(** * Role tracker backend: a shallow embedding and its verified properties

    The development follows the layout of the repository:
    - [Py]        the Python string primitives the two clients rely on
                  ([str.strip], [startswith], [split], [join], [find],
                  [rfind], slices);
    - [Json]      the values and the decoder behind [json.loads];
    - [Scraper]   response handling of [scraper.scrape_company_roles];
    - [Scorer]    response handling of [scorer.score_role] and
                  [scorer.score_roles_batch];
    - [Db]        the three tables of [db.py] and its operations;
    - [Api]       [api.list_roles], [api._run_scrape], [api.trigger_scrape];
    - [Scheduler] [scheduler.scheduled_scrape];
    - [DbMore], [ScraperMore], [ApiMore]
                  seeding, the scrape history, the dashboard counters,
                  [scraper.scrape_all_companies] and the remaining
                  endpoints.

    The definitions come first; the facts follow, one module per part of
    the system ([DbFacts], [Listing], [Upsert], [ScoreFacts], [PostedDate],
    [RunFacts], [SchedFacts], [JsonFacts], [FenceFacts], [StoreFacts],
    [SoftDelete], [Decisions], [RunInvariants], [RunEffects], [History],
    [Answers], [Bodies], [Batch]).

    Text is modelled as a sequence of bytes (the UTF-8 encoding of the
    Python [str]); only ASCII white space is recognised by [strip].  The
    two external services are functions from the request to the text of
    the answer or to the exception the HTTP call raised.

    The database driver refuses a string parameter that holds a NUL
    character or a lone surrogate, before the statement is sent
    ([refusal]).  A table without an [ORDER BY] is read in the order in
    which its rows lie, an updated row after the untouched ones
    ([Db.update_where]); what an [ORDER BY] leaves open among rows it does
    not tell apart is left open ([Db.answers]).

    A run of an orchestrator always has an outcome ([Pipeline.outcome]):
    it went through its companies, or an exception escaped it.  The loop
    bodies are modelled on the values the two clients are meant to produce
    (integer scores, text fields); what Python does with other values is a
    parameter, [untyped], of the runs, and the facts about runs hold for
    every choice of it. *)

From Stdlib Require Import List Ascii String ZArith NArith Bool Lia Arith.
From Stdlib Require Import Sorting.Sorted Sorting.Permutation DecimalString.
Import ListNotations.

Set Warnings "-register-all".
Local Open Scope list_scope.

(** Text as the clients manipulate it. *)
Definition text := list ascii.

Definition T (s : string) : text := list_ascii_of_string s.
Definition S_ (t : text) : string := string_of_list_ascii t.

(** Literals of the examples write a double quote as an apostrophe and a
    line feed as a vertical bar; [Q] puts the real characters back. *)
Definition Q (s : string) : text :=
  map (fun c => if Ascii.eqb c (ascii_of_N 39) then ascii_of_N 34
                else if Ascii.eqb c (ascii_of_N 124) then ascii_of_N 10
                else c) (T s).

(* ================================================================== *)
(** ** Python string primitives *)
(* ================================================================== *)

Module Py.

Definition code (c : ascii) : N := N_of_ascii c.

(** [str.isspace] on the ASCII range: TAB..CR, FS..US and SPACE. *)
Definition isspace (c : ascii) : bool :=
  let n := code c in
  ((9 <=? n) && (n <=? 13) || (28 <=? n) && (n <=? 32))%N.

Fixpoint lstrip (s : text) : text :=
  match s with
  | c :: r => if isspace c then lstrip r else s
  | [] => []
  end.

Definition rstrip (s : text) : text := rev (lstrip (rev s)).

Definition strip (s : text) : text := rstrip (lstrip s).

Fixpoint startswith (p s : text) : bool :=
  match p, s with
  | [], _ => true
  | a :: p', b :: s' => Ascii.eqb a b && startswith p' s'
  | _ :: _, [] => false
  end.

Definition newline : ascii := ascii_of_N 10.

(** [s.split("\n")]: never empty, one more piece than separators. *)
Fixpoint split_lines (s : text) : list text :=
  match s with
  | [] => [[]]
  | c :: r =>
      if Ascii.eqb c newline then [] :: split_lines r
      else match split_lines r with
           | l :: ls => (c :: l) :: ls
           | [] => [[c]]
           end
  end.

(** ["\n".join(ls)] *)
Fixpoint join_lines (ls : list text) : text :=
  match ls with
  | [] => []
  | [l] => l
  | l :: ls' => l ++ newline :: join_lines ls'
  end.

(** [ls[1:-1]] *)
Definition drop_first_last {A} (ls : list A) : list A := removelast (tl ls).

(** [s.find(c)] for a one-character needle: first index or -1. *)
Fixpoint find_from (c : ascii) (s : text) (i : Z) : Z :=
  match s with
  | [] => (-1)%Z
  | x :: r => if Ascii.eqb x c then i else find_from c r (i + 1)%Z
  end.
Definition find (c : ascii) (s : text) : Z := find_from c s 0%Z.

(** [s.rfind(c)]: last index or -1. *)
Fixpoint rfind_from (c : ascii) (s : text) (i best : Z) : Z :=
  match s with
  | [] => best
  | x :: r => rfind_from c r (i + 1)%Z (if Ascii.eqb x c then i else best)
  end.
Definition rfind (c : ascii) (s : text) : Z := rfind_from c s 0%Z (-1)%Z.

(** [s[start:stop]] for [0 <= start <= stop]. *)
Definition slice (s : text) (start stop : Z) : text :=
  firstn (Z.to_nat (stop - start)) (skipn (Z.to_nat start) s).

End Py.

(* ================================================================== *)
(** ** JSON values and [json.loads] *)
(* ================================================================== *)

Module Json.

(** Python values produced by [json.loads].  A [dict] keeps its keys in
    insertion order, without duplicates.  Numbers with a fraction or an
    exponent, [NaN] and the infinities are floats: they are kept as the
    lexeme that denotes them and never computed with. *)
Inductive json : Type :=
| JNull
| JBool (b : bool)
| JInt (z : Z)
| JFloat (lexeme : string)
| JStr (s : string)
| JArr (l : list json)
| JObj (m : list (string * json)).

(** [d[k] = v] on an insertion-ordered dict. *)
Fixpoint dict_set (k : string) (v : json) (m : list (string * json))
  : list (string * json) :=
  match m with
  | [] => [(k, v)]
  | (k', v') :: m' =>
      if String.eqb k' k then (k, v) :: m' else (k', v') :: dict_set k v m'
  end.

Fixpoint dict_find (k : string) (m : list (string * json)) : option json :=
  match m with
  | [] => None
  | (k', v) :: m' => if String.eqb k' k then Some v else dict_find k m'
  end.

(** Outcome of a scanner: a value and the unread input, a syntax error
    ([JSONDecodeError]), or recursion budget exhausted. *)
Inductive pres (A : Type) : Type :=
| POk (a : A) (rest : text)
| PErr
| PFuel.
Arguments POk {A} a rest.
Arguments PErr {A}.
Arguments PFuel {A}.

Definition is_ws (c : ascii) : bool :=
  let n := Py.code c in ((n =? 32) || (n =? 9) || (n =? 10) || (n =? 13))%N.

Fixpoint skip_ws (s : text) : text :=
  match s with
  | c :: r => if is_ws c then skip_ws r else s
  | [] => []
  end.

Definition is_digit (c : ascii) : bool :=
  let n := Py.code c in ((48 <=? n) && (n <=? 57))%N.

Definition digit_val (c : ascii) : Z := Z.of_N (Py.code c) - 48.

Fixpoint span_digits (s : text) : text * text :=
  match s with
  | c :: r => if is_digit c then let (ds, r') := span_digits r in (c :: ds, r')
              else ([], s)
  | [] => ([], [])
  end.

Definition digits_val (ds : text) : Z :=
  fold_left (fun acc c => 10 * acc + digit_val c)%Z ds 0%Z.

Fixpoint strip_prefix (p s : text) : option text :=
  match p, s with
  | [], _ => Some s
  | a :: p', b :: s' => if Ascii.eqb a b then strip_prefix p' s' else None
  | _ :: _, [] => None
  end.

(** *** Strings *)

Definition hex_val (c : ascii) : option N :=
  let n := Py.code c in
  if ((48 <=? n) && (n <=? 57))%N then Some (n - 48)%N
  else if ((97 <=? n) && (n <=? 102))%N then Some (n - 87)%N
  else if ((65 <=? n) && (n <=? 70))%N then Some (n - 55)%N
  else None.

Definition hex4 (a b c d : ascii) : option N :=
  match hex_val a, hex_val b, hex_val c, hex_val d with
  | Some x, Some y, Some z, Some w => Some (((x * 16 + y) * 16 + z) * 16 + w)%N
  | _, _, _, _ => None
  end.

(** One decoded unit of a string literal: a byte copied from the input
    or the 16-bit value of a [\uXXXX] escape. *)
Inductive unit_ : Type := UByte (c : ascii) | UEsc (u : N).

Definition simple_escape (e : ascii) : option ascii :=
  let n := Py.code e in
  if (n =? 34)%N then Some (ascii_of_N 34)        (* quote *)
  else if (n =? 92)%N then Some (ascii_of_N 92)   (* backslash *)
  else if (n =? 47)%N then Some (ascii_of_N 47)   (* slash *)
  else if (n =? 98)%N then Some (ascii_of_N 8)    (* b *)
  else if (n =? 102)%N then Some (ascii_of_N 12)  (* f *)
  else if (n =? 110)%N then Some (ascii_of_N 10)  (* n *)
  else if (n =? 114)%N then Some (ascii_of_N 13)  (* r *)
  else if (n =? 116)%N then Some (ascii_of_N 9)   (* t *)
  else None.

(** Scans the body of a string literal, after its opening quote. *)
Fixpoint scan_string (s : text) (acc : list unit_) : option (list unit_ * text) :=
  match s with
  | [] => None
  | c :: r =>
      if (Py.code c =? 34)%N then Some (rev acc, r)
      else if (Py.code c =? 92)%N then
        match r with
        | [] => None
        | e :: r1 =>
            if (Py.code e =? 117)%N then
              match r1 with
              | h1 :: h2 :: h3 :: h4 :: r2 =>
                  match hex4 h1 h2 h3 h4 with
                  | Some u => scan_string r2 (UEsc u :: acc)
                  | None => None
                  end
              | _ => None
              end
            else
              match simple_escape e with
              | Some x => scan_string r1 (UByte x :: acc)
              | None => None
              end
        end
      else if (Py.code c <? 32)%N then None
      else scan_string r (UByte c :: acc)
  end.

Definition byte (n : N) : ascii := ascii_of_N n.

Definition utf8 (cp : N) : text :=
  (if cp <? 128 then [byte cp]
   else if cp <? 2048 then [byte (192 + cp / 64); byte (128 + cp mod 64)]
   else if cp <? 65536 then
     [byte (224 + cp / 4096); byte (128 + (cp / 64) mod 64); byte (128 + cp mod 64)]
   else
     [byte (240 + cp / 262144); byte (128 + (cp / 4096) mod 64);
      byte (128 + (cp / 64) mod 64); byte (128 + cp mod 64)])%N.

Definition is_high (u : N) : bool := ((55296 <=? u) && (u <=? 56319))%N.
Definition is_low (u : N) : bool := ((56320 <=? u) && (u <=? 57343))%N.

(** Surrogate pairs written as two escapes are joined, as the decoder
    does; a lone surrogate is kept and encoded as it stands. *)
Fixpoint decode_units (us : list unit_) : text :=
  match us with
  | [] => []
  | UByte c :: r => c :: decode_units r
  | UEsc hi :: r =>
      match r with
      | UEsc lo :: r' =>
          if is_high hi && is_low lo
          then utf8 (65536 + (hi - 55296) * 1024 + (lo - 56320))%N ++ decode_units r'
          else utf8 hi ++ decode_units r
      | _ => utf8 hi ++ decode_units r
      end
  end.

Definition parse_string (s : text) : option (string * text) :=
  match scan_string s [] with
  | Some (us, r) => Some (S_ (decode_units us), r)
  | None => None
  end.

(** *** Numbers and literals *)

Definition chr (s : string) : ascii :=
  match s with String c _ => c | EmptyString => Ascii.zero end.

Definition is_char (s : string) (c : ascii) : bool := Ascii.eqb c (chr s).

Definition quote : ascii := ascii_of_N 34.
Definition is_quote (c : ascii) : bool := Ascii.eqb c quote.

(** The optional fraction: a dot followed by at least one digit. *)
Definition scan_frac (s : text) : text * text :=
  match s with
  | d :: c :: r =>
      if is_char "." d && is_digit c
      then let (fs, r') := span_digits r in (d :: c :: fs, r')
      else ([], s)
  | _ => ([], s)
  end.

(** The optional exponent: [e] or [E], an optional sign, at least one
    digit; otherwise nothing is consumed. *)
Definition scan_exp (s : text) : text * text :=
  match s with
  | e :: r =>
      if is_char "e" e || is_char "E" e then
        match r with
        | c :: r1 =>
            if is_digit c then let (ds, r') := span_digits r1 in (e :: c :: ds, r')
            else if is_char "+" c || is_char "-" c then
              match r1 with
              | c1 :: r2 =>
                  if is_digit c1
                  then let (ds, r') := span_digits r2 in (e :: c :: c1 :: ds, r')
                  else ([], s)
              | [] => ([], s)
              end
            else ([], s)
        | [] => ([], s)
        end
      else ([], s)
  | [] => ([], s)
  end.

Definition scan_int (s : text) : option (text * text) :=
  match s with
  | d :: r =>
      if is_char "0" d then Some ([d], r)
      else if is_digit d then let (ds, r') := span_digits r in Some (d :: ds, r')
      else None
  | [] => None
  end.

Definition parse_number (s : text) : pres json :=
  let '(neg, s1) :=
    match s with
    | c :: r => if is_char "-" c then (true, r) else (false, s)
    | [] => (false, s)
    end in
  match scan_int s1 with
  | None => PErr
  | Some (ip, r1) =>
      let (fp, r2) := scan_frac r1 in
      let (ep, r3) := scan_exp r2 in
      match fp, ep with
      | [], [] => POk (JInt (if neg then - digits_val ip else digits_val ip)%Z) r3
      | _, _ =>
          POk (JFloat (S_ ((if neg then [chr "-"] else []) ++ ip ++ fp ++ ep))) r3
      end
  end.

Definition parse_scalar (s : text) : pres json :=
  match strip_prefix (T "null") s with
  | Some r => POk JNull r
  | None =>
  match strip_prefix (T "true") s with
  | Some r => POk (JBool true) r
  | None =>
  match strip_prefix (T "false") s with
  | Some r => POk (JBool false) r
  | None =>
  match strip_prefix (T "NaN") s with
  | Some r => POk (JFloat "NaN") r
  | None =>
  match strip_prefix (T "Infinity") s with
  | Some r => POk (JFloat "Infinity") r
  | None =>
  match strip_prefix (T "-Infinity") s with
  | Some r => POk (JFloat "-Infinity") r
  | None => parse_number s
  end end end end end end.

(** *** Values *)

Fixpoint parse_value (n : nat) (s : text) {struct n} : pres json :=
  match n with
  | O => PFuel
  | S n' =>
      match s with
      | [] => PErr
      | c :: r =>
          if is_quote c then
            match parse_string r with
            | Some (x, r') => POk (JStr x) r'
            | None => PErr
            end
          else if is_char "{" c then
            match skip_ws r with
            | c' :: r' =>
                if is_char "}" c' then POk (JObj []) r'
                else parse_members n' (c' :: r') []
            | [] => PErr
            end
          else if is_char "[" c then
            match skip_ws r with
            | c' :: r' =>
                if is_char "]" c' then POk (JArr []) r'
                else parse_elems n' (c' :: r') []
            | [] => PErr
            end
          else parse_scalar s
      end
  end

(** Elements of a non-empty array; [s] stands at the next element. *)
with parse_elems (n : nat) (s : text) (acc : list json) {struct n} : pres json :=
  match n with
  | O => PFuel
  | S n' =>
      match parse_value n' s with
      | POk v r =>
          match skip_ws r with
          | c :: r' =>
              if is_char "]" c then POk (JArr (rev (v :: acc))) r'
              else if is_char "," c then parse_elems n' (skip_ws r') (v :: acc)
              else PErr
          | [] => PErr
          end
      | PErr => PErr
      | PFuel => PFuel
      end
  end

(** Members of a non-empty object; [s] stands at the next key. *)
with parse_members (n : nat) (s : text) (acc : list (string * json))
       {struct n} : pres json :=
  match n with
  | O => PFuel
  | S n' =>
      match s with
      | q :: r =>
          if is_quote q then
            match parse_string r with
            | Some (k, r1) =>
                match skip_ws r1 with
                | c :: r2 =>
                    if is_char ":" c then
                      match parse_value n' (skip_ws r2) with
                      | POk v r3 =>
                          match skip_ws r3 with
                          | c' :: r4 =>
                              if is_char "}" c' then POk (JObj (dict_set k v acc)) r4
                              else if is_char "," c'
                              then parse_members n' (skip_ws r4) (dict_set k v acc)
                              else PErr
                          | [] => PErr
                          end
                      | PErr => PErr
                      | PFuel => PFuel
                      end
                    else PErr
                | [] => PErr
                end
            | None => PErr
            end
          else PErr
      | [] => PErr
      end
  end.

(** Recursion budget that always suffices ([JsonFacts.fuel_enough]).
    The interpreter's own limits (recursion depth, digits of an integer
    literal) are not modelled. *)
Definition fuel (s : text) : nat := 2 * List.length s + 2.

(** [json.loads]: leading white space, one value, trailing white space,
    end of input.  [None] stands for [JSONDecodeError]. *)
Definition loads (s : text) : option json :=
  let s' := skip_ws s in
  match parse_value (fuel s') s' with
  | POk v r => match skip_ws r with [] => Some v | _ :: _ => None end
  | _ => None
  end.

End Json.

Import Json.

(* ================================================================== *)
(** ** Exceptions *)
(* ================================================================== *)

(** A Python exception and the text [str(e)] yields.  For exceptions
    raised by the interpreter or a library inside the modelled code the
    text is represented by the name of the exception. *)
Inductive exn : Type :=
| TransportError (msg : string)   (* raised by the HTTP call of a client *)
| JSONDecodeError
| AttributeError
| TypeError
| DatabaseError (msg : string)
| ValueError                      (* the driver: NUL in a string parameter *)
| UnicodeEncodeError.             (* the driver: a lone surrogate in one *)

Definition str_exn (e : exn) : string :=
  match e with
  | TransportError m => m
  | JSONDecodeError => "JSONDecodeError"
  | AttributeError => "AttributeError"
  | TypeError => "TypeError"
  | DatabaseError m => m
  | ValueError => "ValueError"
  | UnicodeEncodeError => "UnicodeEncodeError"
  end.

(** Result of a call that may raise. *)
Inductive result (A : Type) : Type :=
| Ok (a : A)
| Raise (e : exn).
Arguments Ok {A} a.
Arguments Raise {A} e.

(** What the database driver makes of a [str] parameter before any
    statement is sent: the text is encoded as UTF-8, which fails on a lone
    surrogate (here the three bytes [ED A0..BF xx], see
    [Json.decode_units]), and is then refused when it contains NUL. *)
Fixpoint has_surrogate (s : text) : bool :=
  match s with
  | a :: r =>
      match r with
      | b :: _ =>
          ((Py.code a =? 237) && (160 <=? Py.code b) && (Py.code b <=? 191))%N
          || has_surrogate r
      | [] => false
      end
  | [] => false
  end.

Definition has_nul (s : text) : bool := existsb (fun c => (Py.code c =? 0)%N) s.

Definition refusal (s : string) : option exn :=
  if has_surrogate (T s) then Some UnicodeEncodeError
  else if has_nul (T s) then Some ValueError
  else None.


(** The fence test and removal shared by the two clients:
<<
    content = content.strip()
    if content.startswith("```"):
        lines = content.split("\n")
        content = "\n".join(lines[1:-1])
>> *)
Definition fence : text := T "```".

Definition strip_fence (content : text) : text :=
  let content := Py.strip content in
  if Py.startswith fence content
  then Py.join_lines (Py.drop_first_last (Py.split_lines content))
  else content.

(* ================================================================== *)
(** ** scraper.py *)
(* ================================================================== *)

Module Scraper.

(** Lines 71-94 of [scrape_company_roles]: from the text of the
    service's answer to the list of roles.  A text that starts with an
    opening bracket decodes to a list or not at all
    ([Json.loads_bracket_is_list]), so the fallback yields a list. *)
Definition parse_response (content : text) : list json :=
  let content := strip_fence content in
  match loads content with
  | Some roles =>
      match roles with
      | JArr l => l
      | _ => []
      end
  | None =>
      let start := Py.find (chr "[") content in
      let stop := (Py.rfind (chr "]") content + 1)%Z in
      if negb (start =? -1)%Z && (stop >? start)%Z then
        match loads (Py.slice content start stop) with
        | Some (JArr l) => l
        | Some _ => []
        | None => []
        end
      else []
  end.

Section Client.
(** The search service: company name and careers URL to the text of
    the answer, or the exception the HTTP call raised. *)
Variable search_service : string -> string -> result text.

Definition scrape_company_roles (company_name careers_url : string)
  : result (list json) :=
  match search_service company_name careers_url with
  | Raise e => Raise e
  | Ok content => Ok (parse_response content)
  end.
End Client.

End Scraper.

(* ================================================================== *)
(** ** scorer.py *)
(* ================================================================== *)

Module Scorer.

Definition parse_failure : json :=
  JObj [("total_score"%string, JInt 0);
        ("breakdown"%string, JObj []);
        ("red_flags"%string, JArr [JStr "Failed to parse scoring response"]);
        ("recommendation"%string, JStr "Error");
        ("reasoning"%string, JStr "Could not parse Gemini response")].

(** Lines 79-100 of [score_role]. *)
Definition parse_response (content : text) : result json :=
  let content := strip_fence content in
  match loads content with
  | Some r => Ok r
  | None =>
      let start := Py.find (chr "{") content in
      let stop := (Py.rfind (chr "}") content + 1)%Z in
      if negb (start =? -1)%Z && (stop >? start)%Z then
        match loads (Py.slice content start stop) with
        | Some r => Ok r
        | None => Raise JSONDecodeError
        end
      else Ok parse_failure
  end.

(** [role.get(key, default)]: [AttributeError] unless [role] is a dict. *)
Definition py_get (o : json) (key : string) (default : json) : result json :=
  match o with
  | JObj m => Ok (match dict_find key m with Some v => v | None => default end)
  | _ => Raise AttributeError
  end.

Definition batch_failure (e : exn) : json :=
  JObj [("total_score"%string, JInt 0);
        ("breakdown"%string, JObj []);
        ("red_flags"%string, JArr [JStr ("Scoring error: " ++ str_exn e)]);
        ("recommendation"%string, JStr "Error");
        ("reasoning"%string, JStr ("Error during scoring: " ++ str_exn e))].

Section Client.
(** The scoring service: title, description, location, seniority and
    company name to the text of the answer, or the exception the HTTP
    call raised. *)
Variable scoring_service :
  json -> json -> json -> json -> string -> result text.

Definition score_role (role_title role_description role_location
                         role_seniority : json) (company_name : string)
  : result json :=
  match scoring_service role_title role_description role_location
          role_seniority company_name with
  | Raise e => Raise e
  | Ok content => parse_response content
  end.

Definition score_one (role : json) (company_name : string) : result json :=
  match py_get role "title" (JStr "") with
  | Raise e => Raise e
  | Ok title =>
  match py_get role "description" (JStr "") with
  | Raise e => Raise e
  | Ok description =>
  match py_get role "location" (JStr "") with
  | Raise e => Raise e
  | Ok location =>
  match py_get role "seniority" (JStr "") with
  | Raise e => Raise e
  | Ok seniority =>
      score_role title description location seniority company_name
  end end end end.

Fixpoint score_roles_batch (roles : list json) (company_name : string)
  : list (json * json) :=
  match roles with
  | [] => []
  | role :: rest =>
      (role, match score_one role company_name with
             | Ok r => r
             | Raise e => batch_failure e
             end) :: score_roles_batch rest company_name
  end.
End Client.

End Scorer.

(* ================================================================== *)
(** ** db.py *)
(* ================================================================== *)

Module Db.

(** Timestamps ([NOW()], [datetime.utcnow()]) are integers. *)
Abbreviation time := Z (only parsing).

(** [companies] *)
Record company : Type := mkCompany {
  c_id : Z;
  c_name : string;
  c_careers_url : string;
  c_active : Z;
  c_created_at : time;
  c_last_scraped_at : option time
}.

(** The text stored in [roles.score_breakdown]: [json.dumps(d)] of a
    dict, kept symbolically, or a string passed as it is. *)
Inductive breakdown_text : Type :=
| Dumps (d : list (string * json))
| Verbatim (s : string).

(** The [score_breakdown] argument of [upsert_role]. *)
Inductive breakdown_arg : Type :=
| BDict (d : list (string * json))
| BStr (s : string)
| BNone.

(** [roles]; a nullable column is an [option]. *)
Record role : Type := mkRole {
  r_id : Z;
  r_company_id : Z;
  r_title : string;
  r_url : option string;
  r_location : option string;
  r_description : option string;
  r_seniority : option string;
  r_department : option string;
  r_posted_date : option string;
  r_score : Z;
  r_score_breakdown : option breakdown_text;
  r_status : string;
  r_first_seen_at : time;
  r_last_seen_at : time;
  r_applied_at : option time
}.

(** [scrape_logs] *)
Record scrape_log : Type := mkLog {
  l_id : Z;
  l_company_id : Z;
  l_started_at : time;
  l_finished_at : option time;
  l_roles_found : Z;
  l_roles_qualified : Z;
  l_status : string;
  l_error : option string
}.

(** The database: the rows of each table and the three [SERIAL]
    sequences.  [companies] is listed in the order a scan without
    [ORDER BY] returns it: a row an [UPDATE] has written is a new row
    version and comes after the rows left alone.  [roles] and
    [scrape_logs] are only read through [ORDER BY]; the order of their
    lists is the order of insertion and stands for nothing in the
    database. *)
Record store : Type := mkStore {
  companies : list company;
  roles : list role;
  scrape_logs : list scrape_log;
  next_company_id : Z;
  next_role_id : Z;
  next_log_id : Z
}.

Definition set_companies (cs : list company) (n : Z) (st : store) : store :=
  mkStore cs (roles st) (scrape_logs st) n (next_role_id st) (next_log_id st).
Definition set_roles (rs : list role) (n : Z) (st : store) : store :=
  mkStore (companies st) rs (scrape_logs st) (next_company_id st) n (next_log_id st).
Definition set_logs (ls : list scrape_log) (n : Z) (st : store) : store :=
  mkStore (companies st) (roles st) ls (next_company_id st) (next_role_id st) n.

(** SQL [=] on a nullable text column and a parameter: never true when
    either side is NULL. *)
Definition sql_eq (a b : option string) : bool :=
  match a, b with
  | Some x, Some y => String.eqb x y
  | _, _ => false
  end.

(** [UPDATE ... SET ... WHERE p] on a table that is scanned without
    [ORDER BY]. *)
Definition update_where {A} (p : A -> bool) (f : A -> A) (rows : list A) : list A :=
  filter (fun r => negb (p r)) rows ++ map f (filter p rows).

Definition get_active_companies (st : store) : list company :=
  filter (fun c => (c_active c =? 1)%Z) (companies st).

(** [INSERT ... ON CONFLICT (name) DO NOTHING]: the sequence advances
    whether or not the row is inserted. *)
Definition add_company (now : time) (name careers_url : string) (st : store)
  : store :=
  if existsb (fun c => String.eqb (c_name c) name) (companies st)
  then set_companies (companies st) (next_company_id st + 1) st
  else set_companies
         (companies st ++
            [mkCompany (next_company_id st) name careers_url 1 now None])
         (next_company_id st + 1) st.

Definition remove_company (company_id : Z) (st : store) : store :=
  set_companies
    (update_where (fun c => (c_id c =? company_id)%Z)
       (fun c => mkCompany (c_id c) (c_name c) (c_careers_url c) 0
                   (c_created_at c) (c_last_scraped_at c))
       (companies st))
    (next_company_id st) st.

(** [SELECT id, status FROM roles WHERE company_id = %s AND title = %s
    AND location = %s], then [fetchone()]. *)
Definition find_role (company_id : Z) (title : string)
           (location : option string) (st : store) : option role :=
  List.find (fun r => (r_company_id r =? company_id)%Z
                      && String.eqb (r_title r) title
                      && sql_eq (r_location r) location) (roles st).

Definition breakdown_json (b : breakdown_arg) : option breakdown_text :=
  match b with
  | BDict d => Some (Dumps d)
  | BStr s => Some (Verbatim s)
  | BNone => None
  end.

(** Range of the [INTEGER] column type. *)
Definition int4 (z : Z) : bool := ((-2147483648 <=? z) && (z <=? 2147483647))%Z.

Definition upsert_role (now : time) (company_id : Z) (title : string)
           (url location description seniority department : option string)
           (score : Z) (score_breakdown : breakdown_arg)
           (posted_date : option string) (st : store) : result store :=
  let existing := find_role company_id title location st in
  if negb (int4 score) then Raise (DatabaseError "integer out of range")
  else
  match existing with
  | Some ex =>
      Ok (set_roles
            (map (fun r =>
                    if (r_id r =? r_id ex)%Z
                    then mkRole (r_id r) (r_company_id r) (r_title r) url
                           (r_location r) description seniority department
                           posted_date score (breakdown_json score_breakdown)
                           (r_status r) (r_first_seen_at r) now (r_applied_at r)
                    else r) (roles st))
            (next_role_id st) st)
  | None =>
      if existsb (fun c => (c_id c =? company_id)%Z) (companies st)
      then Ok (set_roles
                 (roles st ++
                    [mkRole (next_role_id st) company_id title url location
                       description seniority department posted_date score
                       (breakdown_json score_breakdown) "new" now now None])
                 (next_role_id st + 1) st)
      else Raise (DatabaseError "foreign key violation")
  end.

(** A row of [roles r JOIN companies c ON r.company_id = c.id]. *)
Record joined : Type := mkJoined {
  j_role : role;
  j_company_name : string;
  j_careers_url : option string
}.

Definition join_roles (with_url : bool) (st : store) : list joined :=
  flat_map (fun r =>
              map (fun c => mkJoined r (c_name c)
                              (if with_url then Some (c_careers_url c) else None))
                (filter (fun c => (r_company_id r =? c_id c)%Z) (companies st)))
    (roles st).

(** [ORDER BY].  SQL fixes the order of the rows only as far as the
    sort key tells them apart; what a query may answer is given by
    [answers] below.  The listings are defined with [order_by], one such
    answer, which places the rows by a stable insertion sort; nothing
    proved of a listing may depend on how it places rows of equal key. *)
Section OrderBy.
Context {A : Type} (before : A -> A -> bool).

Fixpoint insert (x : A) (l : list A) : list A :=
  match l with
  | [] => [x]
  | y :: t => if before x y then x :: l else y :: insert x t
  end.

Definition order_by (l : list A) : list A := fold_right insert [] l.

(** [result] is an answer to a query that selects [rows] and orders
    them: the same rows, each before the rows the key puts after it. *)
Definition answers (rows result : list A) : Prop :=
  Permutation rows result /\ StronglySorted (fun a b => before a b = true) result.
End OrderBy.

(** [ORDER BY r.score DESC, r.last_seen_at DESC] *)
Definition by_score_recency (a b : joined) : bool :=
  let ra := j_role a in
  let rb := j_role b in
  ((r_score rb <? r_score ra)
   || ((r_score ra =? r_score rb) && (r_last_seen_at rb <=? r_last_seen_at ra)))%Z.

(** [ORDER BY r.score DESC] *)
Definition by_score (a b : joined) : bool :=
  (r_score (j_role b) <=? r_score (j_role a))%Z.

Definition get_qualified_roles (threshold : Z) (st : store) : list joined :=
  order_by by_score_recency
    (filter (fun j => (r_score (j_role j) >=? threshold)%Z) (join_roles true st)).

Definition get_all_roles (st : store) : list joined :=
  order_by by_score_recency (join_roles true st).

Definition get_roles_by_company (company_id : Z) (st : store) : list joined :=
  order_by by_score
    (filter (fun j => (r_company_id (j_role j) =? company_id)%Z)
       (join_roles false st)).

(** What the query of [get_roles_by_company] may answer. *)
Definition by_company_answer (company_id : Z) (st : store) (result : list joined)
  : Prop :=
  answers by_score
    (filter (fun j => (r_company_id (j_role j) =? company_id)%Z)
       (join_roles false st))
    result.

Definition update_role (role_id : Z) (f : role -> role) (st : store) : store :=
  set_roles (map (fun r => if (r_id r =? role_id)%Z then f r else r) (roles st))
    (next_role_id st) st.

Definition mark_role_applied (now : time) (role_id : Z) (st : store) : store :=
  update_role role_id
    (fun r => mkRole (r_id r) (r_company_id r) (r_title r) (r_url r)
                (r_location r) (r_description r) (r_seniority r)
                (r_department r) (r_posted_date r) (r_score r)
                (r_score_breakdown r) "applied" (r_first_seen_at r)
                (r_last_seen_at r) (Some now)) st.

Definition mark_role_dismissed (role_id : Z) (st : store) : store :=
  update_role role_id
    (fun r => mkRole (r_id r) (r_company_id r) (r_title r) (r_url r)
                (r_location r) (r_description r) (r_seniority r)
                (r_department r) (r_posted_date r) (r_score r)
                (r_score_breakdown r) "dismissed" (r_first_seen_at r)
                (r_last_seen_at r) (r_applied_at r)) st.

Definition update_company_scraped (now : time) (company_id : Z) (st : store)
  : store :=
  set_companies
    (update_where (fun c => (c_id c =? company_id)%Z)
       (fun c => mkCompany (c_id c) (c_name c) (c_careers_url c)
                   (c_active c) (c_created_at c) (Some now))
       (companies st))
    (next_company_id st) st.

(** The orchestrators log only for ids read from [companies], whose rows
    are never deleted, so the reference always resolves. *)
Definition log_scrape (now : time) (company_id roles_found roles_qualified : Z)
           (status : string) (error : option string) (st : store) : store :=
  set_logs
    (scrape_logs st ++
       [mkLog (next_log_id st) company_id now (Some now) roles_found
          roles_qualified status error])
    (next_log_id st + 1) st.

Definition empty : store := mkStore [] [] [] 1 1 1.

End Db.

(* ================================================================== *)
(** ** config.py *)
(* ================================================================== *)

Definition SCORE_THRESHOLD : Z := 80.

(* ================================================================== *)
(** ** The orchestrators: values crossing from JSON to the store *)
(* ================================================================== *)

(** One step of an orchestrator on typed values: it goes on, it raises,
    or the value at hand is outside the typed part of the model (a float,
    a boolean score, a non-string where a text is stored), in which case
    what Python and the database driver make of it is left to the
    parameter [untyped] of the orchestrators. *)
Inductive step (A : Type) : Type :=
| Next (a : A)
| Throw (e : exn)
| Unmodelled.
Arguments Next {A} a.
Arguments Throw {A} e.
Arguments Unmodelled {A}.

Definition bind {A B} (m : step A) (k : A -> step B) : step B :=
  match m with
  | Next a => k a
  | Throw e => Throw e
  | Unmodelled => Unmodelled
  end.

Notation "x <- m ;; k" := (bind m (fun x => k))
  (at level 61, m at next level, right associativity).

Definition lift {A} (r : result A) : step A :=
  match r with
  | Ok a => Next a
  | Raise e => Throw e
  end.

Module Pipeline.

Import Db.

(** [total_score >= SCORE_THRESHOLD]: a [TypeError] unless the score is
    a number. *)
Definition ge_threshold (total_score : json) : step bool :=
  match total_score with
  | JInt z => Next (z >=? SCORE_THRESHOLD)%Z
  | JBool _ | JFloat _ => Unmodelled
  | JNull | JStr _ | JArr _ | JObj _ => Throw TypeError
  end.

(** Truth value of a Python object. *)
Definition truthy (v : json) : step bool :=
  match v with
  | JNull => Next false
  | JBool b => Next b
  | JInt z => Next (negb (z =? 0)%Z)
  | JFloat _ => Unmodelled
  | JStr s => Next (negb (String.eqb s ""))
  | JArr l => Next (match l with [] => false | _ => true end)
  | JObj m => Next (match m with [] => false | _ => true end)
  end.

Definition is_str (v : json) (s : string) : bool :=
  match v with
  | JStr x => String.eqb x s
  | _ => false
  end.

(** [raw_posted if raw_posted and raw_posted != "Not specified" else None] *)
Definition normalize_posted (raw_posted : json) : step json :=
  t <- truthy raw_posted ;;
  Next (if t && negb (is_str raw_posted "Not specified") then raw_posted else JNull).

(** Parameters as the store receives them.  A string the driver refuses
    ([refusal]) raises before the statement is sent. *)
Definition as_title (v : json) : step string :=
  match v with
  | JStr s =>
      match refusal s with
      | Some e => Throw e
      | None => Next s
      end
  | JNull => Throw (DatabaseError "null value in column title")
  | _ => Unmodelled
  end.

Definition as_text (v : json) : step (option string) :=
  match v with
  | JStr s =>
      match refusal s with
      | Some e => Throw e
      | None => Next (Some s)
      end
  | JNull => Next None
  | _ => Unmodelled
  end.

Definition as_score (v : json) : step Z :=
  match v with
  | JInt z => Next z
  | _ => Unmodelled
  end.

Definition as_breakdown (v : json) : step breakdown_arg :=
  match v with
  | JObj d => Next (BDict d)
  | JStr s =>
      match refusal s with
      | Some e => Throw e
      | None => Next (BStr s)
      end
  | JNull => Next BNone
  | _ => Unmodelled
  end.

(** The arguments of one [db.upsert_role] call. *)
Record upsert_args : Type := mkArgs {
  a_company_id : Z;
  a_title : string;
  a_url : option string;
  a_location : option string;
  a_description : option string;
  a_seniority : option string;
  a_department : option string;
  a_score : Z;
  a_score_breakdown : breakdown_arg;
  a_posted_date : option string
}.

Definition call_upsert (now : time) (a : upsert_args) (st : store) : result store :=
  upsert_role now (a_company_id a) (a_title a) (a_url a) (a_location a)
    (a_description a) (a_seniority a) (a_department a) (a_score a)
    (a_score_breakdown a) (a_posted_date a) st.

Definition get (o : json) (key : string) (default : json) : step json :=
  lift (Scorer.py_get o key default).

(** The keyword arguments common to both orchestrators. *)
Definition role_args (company_id : Z) (role score_result total_score : json)
           (posted_date : json) : step upsert_args :=
  title <- get role "title" (JStr "Unknown") ;;
  url <- get role "url" (JStr "") ;;
  location <- get role "location" (JStr "") ;;
  description <- get role "description" (JStr "") ;;
  seniority <- get role "seniority" (JStr "") ;;
  department <- get role "department" (JStr "") ;;
  breakdown <- get score_result "breakdown" (JObj []) ;;
  title <- as_title title ;;
  location <- as_text location ;;
  url <- as_text url ;;
  description <- as_text description ;;
  seniority <- as_text seniority ;;
  department <- as_text department ;;
  posted_date <- as_text posted_date ;;
  score <- as_score total_score ;;
  breakdown <- as_breakdown breakdown ;;
  Next (mkArgs company_id title url location description seniority department
          score breakdown posted_date).

(** State shared by the process: the database, the clock and the
    in-memory [_scrape_status] dict of api.py. *)
Record scrape_status : Type := mkStatus {
  is_running : bool;
  current_company : option string;
  progress : string
}.

Record world : Type := mkWorld {
  db : store;
  clock : time;
  status : scrape_status
}.

Definition with_db (st : store) (w : world) : world :=
  mkWorld st (clock w + 1) (status w).
Definition with_status (s : scrape_status) (w : world) : world :=
  mkWorld (db w) (clock w) s.

(** Outcome of the body of a [try]: the world it reached and, when it
    raised, the exception. *)
Inductive attempt : Type :=
| Completed (w : world) (qualified_count : Z)
| Failed (w : world) (e : exn).

(** Outcome of a loop over the companies, and of a run: it came to its
    end, or an exception escaped it.  The one call outside the [try] is
    the [log_scrape] of the [except] clause, which raises when the driver
    refuses the text of the exception. *)
Inductive outcome : Type :=
| Done (w : world)
| Escaped (w : world) (e : exn).

Definition world_of (o : outcome) : world :=
  match o with
  | Done w => w
  | Escaped w _ => w
  end.

(** The [except] clause: [db.log_scrape(company["id"], 0, 0, "error", str(e))]. *)
Definition log_failure (company_id : Z) (e : exn) (w : world) : outcome :=
  match refusal (str_exn e) with
  | Some e' => Escaped w e'
  | None =>
      Done (with_db (log_scrape (clock w) company_id 0 0 "error"
                       (Some (str_exn e)) (db w)) w)
  end.

(** A loop body on typed values, or else what [untyped] says of it; the
    call is for the company at hand in any case. *)
Definition typed_or (company_id : Z) (body : step (bool * upsert_args))
           (otherwise : result (bool * upsert_args)) : result (bool * upsert_args) :=
  match body with
  | Next x => Ok x
  | Throw e => Raise e
  | Unmodelled =>
      match otherwise with
      | Ok (qualifies, a) =>
          Ok (qualifies,
              mkArgs company_id (a_title a) (a_url a) (a_location a)
                (a_description a) (a_seniority a) (a_department a) (a_score a)
                (a_score_breakdown a) (a_posted_date a))
      | Raise e => Raise e
      end
  end.

End Pipeline.

(* ================================================================== *)
(** ** api.py *)
(* ================================================================== *)

Module Api.

Import Db Pipeline.

(** A role as [_normalize_role] hands it to the front end. *)
Record api_role : Type := mkApiRole {
  ar_row : role;
  ar_company : string;
  ar_careers_url : option string;
  ar_score_breakdown : option json
}.

(** [company_name] becomes [company], [first_seen_at] becomes
    [created_at]; a stored breakdown string is decoded, [{}] when it
    does not decode. *)
Definition _normalize_role (j : joined) : api_role :=
  mkApiRole (j_role j) (j_company_name j) (j_careers_url j)
    (match r_score_breakdown (j_role j) with
     | None => None
     | Some (Dumps d) => Some (JObj d)
     | Some (Verbatim s) =>
         Some (match loads (T s) with Some v => v | None => JObj [] end)
     end).

(** [if company_id:] on an [Optional[int]]. *)
Definition given (company_id : option Z) : option Z :=
  match company_id with
  | Some z => if (z =? 0)%Z then None else Some z
  | None => None
  end.

Definition list_roles (qualified_only : bool) (company_id : option Z)
           (st : store) : list api_role :=
  map _normalize_role
    (match given company_id with
     | Some cid => get_roles_by_company cid st
     | None =>
         if qualified_only then get_qualified_roles SCORE_THRESHOLD st
         else get_all_roles st
     end).

Definition decimal (n : nat) : string :=
  DecimalString.NilEmpty.string_of_uint (Nat.to_uint n).

Section Run.
Variable search_service : string -> string -> result text.
Variable scoring_service :
  json -> json -> json -> json -> string -> result text.
(** What Python and the database driver make of an iteration that meets
    a value outside the typed part of the model: the exception raised, or
    the verdict on the threshold and the call of [upsert_role] it amounts
    to (a float score is compared as a number and stored rounded, a number
    given for a text is stored as its digits, and so on). *)
Variable untyped : Z -> json -> json -> result (bool * upsert_args).

(** One iteration of [for role, score_result in scored], on typed
    values. *)
Definition upsert_scored (company_id : Z) (role score_result : json)
  : step (bool * upsert_args) :=
  total_score <- get score_result "total_score" (JInt 0) ;;
  qualifies <- ge_threshold total_score ;;
  raw_posted <- get role "posted_date" JNull ;;
  posted_date <- normalize_posted raw_posted ;;
  args <- role_args company_id role score_result total_score posted_date ;;
  Next (qualifies, args).

(** One iteration, whatever the values. *)
Definition iteration (company_id : Z) (role score_result : json)
  : result (bool * upsert_args) :=
  typed_or company_id (upsert_scored company_id role score_result)
    (untyped company_id role score_result).

Fixpoint upsert_all (company_id : Z) (scored : list (json * json))
         (qualified_count : Z) (w : world) : attempt :=
  match scored with
  | [] => Completed w qualified_count
  | (role, score_result) :: rest =>
      match iteration company_id role score_result with
      | Raise e => Failed w e
      | Ok (qualifies, args) =>
          match call_upsert (clock w) args (db w) with
          | Raise e => Failed w e
          | Ok st =>
              upsert_all company_id rest
                (if qualifies then qualified_count + 1 else qualified_count)%Z
                (with_db st w)
          end
      end
  end.

(** The body of the [try] for one company. *)
Definition try_company (c : company) (w : world) : attempt :=
  match Scraper.scrape_company_roles search_service (c_name c) (c_careers_url c) with
  | Raise e => Failed w e
  | Ok roles =>
      let w := with_status
                 (mkStatus (is_running (status w)) (current_company (status w))
                    ("Scoring " ++ decimal (List.length roles) ++ " roles from "
                       ++ c_name c ++ "..."))
                 w in
      let scored := Scorer.score_roles_batch scoring_service roles (c_name c) in
      match upsert_all (c_id c) scored 0 w with
      | Completed w qualified_count =>
          let w := with_db (update_company_scraped (clock w) (c_id c) (db w)) w in
          Completed
            (with_db (log_scrape (clock w) (c_id c) (Z.of_nat (List.length roles))
                        qualified_count "completed" None (db w)) w)
            qualified_count
      | other => other
      end
  end.

(** One iteration of [for company in companies], [except] included. *)
Definition scrape_one (c : company) (w : world) : outcome :=
  let w := with_status
             (mkStatus (is_running (status w)) (Some (c_name c))
                ("Scraping " ++ c_name c ++ "...")) w in
  match try_company c w with
  | Completed w _ => Done w
  | Failed w e => log_failure (c_id c) e w
  end.

Fixpoint for_companies (cs : list company) (w : world) : outcome :=
  match cs with
  | [] => Done w
  | c :: rest =>
      match scrape_one c w with
      | Done w' => for_companies rest w'
      | Escaped w' e => Escaped w' e
      end
  end.

(** [if company_ids: companies = [c for c in companies if c["id"] in company_ids]] *)
Definition select_companies (company_ids : option (list Z)) (cs : list company)
  : list company :=
  match company_ids with
  | Some (i :: ids) =>
      filter (fun c => existsb (fun k => (c_id c =? k)%Z) (i :: ids)) cs
  | _ => cs
  end.

(** The last line, which resets the status, is not reached when an
    exception escapes the loop. *)
Definition _run_scrape (company_ids : option (list Z)) (w : world) : outcome :=
  let w := with_status
             (mkStatus true (current_company (status w)) (progress (status w))) w in
  let companies := select_companies company_ids (get_active_companies (db w)) in
  match for_companies companies w with
  | Done w => Done (with_status (mkStatus false None "Done") w)
  | Escaped w e => Escaped w e
  end.
End Run.

(** Answer of [POST /api/scrape]. *)
Inductive trigger_response : Type :=
| Conflict409
| Started (company_ids : option (list Z)).

(** The background task is only scheduled here; it runs, and sets the
    flag, after the response has been produced. *)
Definition trigger_scrape (company_id : option Z) (w : world) : trigger_response :=
  if is_running (status w) then Conflict409
  else Started (match given company_id with
                | Some cid => Some [cid]
                | None => None
                end).

End Api.

(* ================================================================== *)
(** ** scheduler.py *)
(* ================================================================== *)

Module Scheduler.

Import Db Pipeline.

Section Run.
Variable search_service : string -> string -> result text.
Variable scoring_service :
  json -> json -> json -> json -> string -> result text.
(** As in [Api]; the two loop bodies differ, so do their parameters. *)
Variable untyped : Z -> json -> json -> result (bool * upsert_args).

(** One iteration of [for role, score_result in scored], on typed
    values: [posted_date] is left to its default, [None]. *)
Definition upsert_scored (company_id : Z) (role score_result : json)
  : step (bool * upsert_args) :=
  total_score <- get score_result "total_score" (JInt 0) ;;
  qualifies <- ge_threshold total_score ;;
  args <- role_args company_id role score_result total_score JNull ;;
  Next (qualifies, args).

Definition iteration (company_id : Z) (role score_result : json)
  : result (bool * upsert_args) :=
  typed_or company_id (upsert_scored company_id role score_result)
    (untyped company_id role score_result).

Fixpoint upsert_all (company_id : Z) (scored : list (json * json))
         (qualified_count : Z) (w : world) : attempt :=
  match scored with
  | [] => Completed w qualified_count
  | (role, score_result) :: rest =>
      match iteration company_id role score_result with
      | Raise e => Failed w e
      | Ok (qualifies, args) =>
          match call_upsert (clock w) args (db w) with
          | Raise e => Failed w e
          | Ok st =>
              upsert_all company_id rest
                (if qualifies then qualified_count + 1 else qualified_count)%Z
                (with_db st w)
          end
      end
  end.

Definition try_company (c : company) (w : world) : attempt :=
  match Scraper.scrape_company_roles search_service (c_name c) (c_careers_url c) with
  | Raise e => Failed w e
  | Ok roles =>
      let scored := Scorer.score_roles_batch scoring_service roles (c_name c) in
      match upsert_all (c_id c) scored 0 w with
      | Completed w qualified_count =>
          let w := with_db (update_company_scraped (clock w) (c_id c) (db w)) w in
          Completed
            (with_db (log_scrape (clock w) (c_id c) (Z.of_nat (List.length roles))
                        qualified_count "completed" None (db w)) w)
            qualified_count
      | other => other
      end
  end.

Definition scrape_one (c : company) (w : world) : outcome :=
  match try_company c w with
  | Completed w _ => Done w
  | Failed w e => log_failure (c_id c) e w
  end.

Fixpoint for_companies (cs : list company) (w : world) : outcome :=
  match cs with
  | [] => Done w
  | c :: rest =>
      match scrape_one c w with
      | Done w' => for_companies rest w'
      | Escaped w' e => Escaped w' e
      end
  end.

Definition scheduled_scrape (w : world) : outcome :=
  for_companies (get_active_companies (db w)) w.
End Run.

End Scheduler.


(* ================================================================== *)
(** ** db.py, the remaining operations *)
(* ================================================================== *)

Module DbMore.

Import Db.

(** [INSERT INTO companies (name, careers_url, active) VALUES (...)
    ON CONFLICT (name) DO NOTHING], the statement of [seed_companies];
    [add_company] issues it with [active] 1. *)
Definition insert_company (now : time) (name careers_url : string) (active : Z)
           (st : store) : store :=
  if existsb (fun c => String.eqb (c_name c) name) (companies st)
  then set_companies (companies st) (next_company_id st + 1) st
  else set_companies
         (companies st ++
            [mkCompany (next_company_id st) name careers_url active now None])
         (next_company_id st + 1) st.

(** What [seed_companies] can raise. *)
Inductive seed_error : Type :=
| SeedJSONDecodeError          (* the file is not JSON *)
| SeedTypeError                (* an entry, or the file's value, is of the wrong type *)
| SeedKeyError (key : string)  (* an entry lacks the key *)
| SeedIntegrityError           (* NULL for a NOT NULL column *)
| SeedRefused (e : exn).       (* a text the driver refuses *)

Inductive seed_step (A : Type) : Type :=
| SNext (a : A)
| SThrow (e : seed_error) (executed : bool)
| SUnmodelled.
Arguments SNext {A} a.
Arguments SThrow {A} e executed.
Arguments SUnmodelled {A}.

(** [company[key]] *)
Definition subscript (company : json) (key : string) : seed_step json :=
  match company with
  | JObj m =>
      match dict_find key m with
      | Some v => SNext v
      | None => SThrow (SeedKeyError key) false
      end
  | _ => SThrow SeedTypeError false
  end.

(** A value for a [TEXT NOT NULL] column: a string the driver refuses
    raises before the statement is sent; NULL is refused by the database,
    once the statement runs. *)
Definition not_null_text (v : json) : seed_step string :=
  match v with
  | JStr s =>
      match refusal s with
      | Some e => SThrow (SeedRefused e) false
      | None => SNext s
      end
  | JNull => SThrow SeedIntegrityError true
  | _ => SUnmodelled
  end.

(** [1 if company.get("active", True) else 0] *)
Definition active_flag (company : json) : seed_step Z :=
  match company with
  | JObj m =>
      match Pipeline.truthy
              (match dict_find "active" m with Some v => v | None => JBool true end)
      with
      | Next true => SNext 1%Z
      | Next false => SNext 0%Z
      | _ => SUnmodelled
      end
  | _ => SThrow SeedTypeError false
  end.

(** The parameters of one entry's [INSERT], in the order Python
    evaluates them. *)
Definition seed_values (company : json) : seed_step (string * string * Z) :=
  match subscript company "name" with
  | SThrow e x => SThrow e x
  | SUnmodelled => SUnmodelled
  | SNext name =>
  match subscript company "careers_url" with
  | SThrow e x => SThrow e x
  | SUnmodelled => SUnmodelled
  | SNext url =>
  match active_flag company with
  | SThrow e x => SThrow e x
  | SUnmodelled => SUnmodelled
  | SNext active =>
  match not_null_text name with
  | SThrow e x => SThrow e x
  | SUnmodelled => SUnmodelled
  | SNext name =>
  match not_null_text url with
  | SThrow e x => SThrow e x
  | SUnmodelled => SUnmodelled
  | SNext url => SNext (name, url, active)
  end end end end end.

(** Outcome of [seed_companies]: committed, or raised before the commit
    (the tables are as they were; sequence values drawn by the statements
    that ran stay drawn), or outside the model. *)
Inductive seed_result : Type :=
| Seeded (st : store)
| SeedFailed (e : seed_error) (st : store)
| SeedUnmodelled.

Definition rolled_back (st0 st : store) (executed : bool) : store :=
  set_companies (companies st0)
    (if executed then next_company_id st + 1 else next_company_id st)%Z st0.

(** The loop of [seed_companies] over the entries; [st0] is the database
    before the transaction. *)
Fixpoint seed_rows (now : time) (entries : list json) (st0 st : store) : seed_result :=
  match entries with
  | [] => Seeded st
  | company :: rest =>
      match seed_values company with
      | SNext (name, url, active) =>
          seed_rows now rest st0 (insert_company now name url active st)
      | SThrow e executed => SeedFailed e (rolled_back st0 st executed)
      | SUnmodelled => SeedUnmodelled
      end
  end.

(** [seed_companies], from the text of the companies file.  Iterating a
    dict yields its keys and iterating a string its characters, which
    are no entries. *)
Definition seed_companies (now : time) (file : text) (st : store) : seed_result :=
  match loads file with
  | None => SeedFailed SeedJSONDecodeError st
  | Some (JArr entries) => seed_rows now entries st st
  | Some (JObj []) => Seeded st
  | Some (JStr s) => if String.eqb s "" then Seeded st else SeedFailed SeedTypeError st
  | Some _ => SeedFailed SeedTypeError st
  end.

(** A row of [scrape_logs sl JOIN companies c ON sl.company_id = c.id]. *)
Record joined_log : Type := mkJoinedLog {
  jl_log : scrape_log;
  jl_company_name : string
}.

Definition join_logs (st : store) : list joined_log :=
  flat_map (fun l =>
              map (fun c => mkJoinedLog l (c_name c))
                (filter (fun c => (l_company_id l =? c_id c)%Z) (companies st)))
    (scrape_logs st).

(** [ORDER BY sl.started_at DESC] *)
Definition by_started (a b : joined_log) : bool :=
  (l_started_at (jl_log b) <=? l_started_at (jl_log a))%Z.

(** The query of [get_scrape_history] with a non-negative [LIMIT]. *)
Definition history_rows (limit : nat) (st : store) : list joined_log :=
  firstn limit (order_by by_started (join_logs st)).

Definition get_scrape_history (limit : Z) (st : store) : result (list joined_log) :=
  if (limit <? 0)%Z then Raise (DatabaseError "LIMIT must not be negative")
  else Ok (history_rows (Z.to_nat limit) st).

(** [get_dashboard_stats] *)
Record stats : Type := mkStats {
  total_companies : Z;
  total_roles : Z;
  qualified_roles : Z;
  applied_roles : Z;
  new_roles : Z
}.

Definition count {A} (p : A -> bool) (l : list A) : Z :=
  Z.of_nat (List.length (filter p l)).

Definition get_dashboard_stats (st : store) : stats :=
  mkStats
    (count (fun c => (c_active c =? 1)%Z) (companies st))
    (Z.of_nat (List.length (roles st)))
    (count (fun r => (r_score r >=? 80)%Z) (roles st))
    (count (fun r => String.eqb (r_status r) "applied") (roles st))
    (count (fun r => String.eqb (r_status r) "new" && (r_score r >=? 80)%Z) (roles st)).

End DbMore.

(* ================================================================== *)
(** ** scraper.py, [scrape_all_companies] *)
(* ================================================================== *)

Module ScraperMore.

Import Db.

(** The value stored under a company id. *)
Record scraped : Type := mkScraped {
  s_company : company;
  s_roles : list json;
  s_error : option string
}.

(** [results[k] = v] on an insertion-ordered dict keyed by company id. *)
Fixpoint results_set (k : Z) (v : scraped) (m : list (Z * scraped))
  : list (Z * scraped) :=
  match m with
  | [] => [(k, v)]
  | (k', v') :: m' =>
      if (k' =? k)%Z then (k, v) :: m' else (k', v') :: results_set k v m'
  end.

Fixpoint results_get (k : Z) (m : list (Z * scraped)) : option scraped :=
  match m with
  | [] => None
  | (k', v) :: m' => if (k' =? k)%Z then Some v else results_get k m'
  end.

Section Client.
Variable search_service : string -> string -> result text.

Definition scrape_entry (c : company) : scraped :=
  match Scraper.scrape_company_roles search_service (c_name c) (c_careers_url c) with
  | Ok roles => mkScraped c roles None
  | Raise e => mkScraped c [] (Some (str_exn e))
  end.

Definition scrape_all_companies (companies : list company) : list (Z * scraped) :=
  fold_left (fun results c => results_set (c_id c) (scrape_entry c) results)
    companies [].
End Client.

End ScraperMore.

(* ================================================================== *)
(** ** api.py, the remaining endpoints *)
(* ================================================================== *)

Module ApiMore.

Import Db DbMore Pipeline.

(** Answer of an endpoint: the JSON body, or [HTTPException(400)]. *)
Inductive http (A : Type) : Type :=
| Http200 (body : A)
| Http400 (detail : string).
Arguments Http200 {A} body.
Arguments Http400 {A} detail.

Definition show (z : Z) : string :=
  DecimalString.NilEmpty.string_of_int (Z.to_int z).

(** [PATCH /api/roles/{role_id}] *)
Definition update_role_status (role_id : Z) (status : string) (w : world)
  : http string * world :=
  if String.eqb status "applied" then
    (Http200 ("Role " ++ show role_id ++ " marked as " ++ status)%string,
     with_db (mark_role_applied (clock w) role_id (db w)) w)
  else if String.eqb status "dismissed" then
    (Http200 ("Role " ++ show role_id ++ " marked as " ++ status)%string,
     with_db (mark_role_dismissed role_id (db w)) w)
  else (Http400 "Status must be 'applied' or 'dismissed'"%string, w).

(** [POST /api/companies] *)
Definition add_company (name careers_url : string) (w : world) : string * world :=
  (("Added " ++ name)%string, with_db (Db.add_company (clock w) name careers_url (db w)) w).

(** [DELETE /api/companies/{company_id}] *)
Definition deactivate_company (company_id : Z) (w : world) : string * world :=
  ("Company deactivated"%string, with_db (remove_company company_id (db w)) w).

(** [GET /api/stats] *)
Definition get_stats (w : world) : stats := get_dashboard_stats (db w).

(** An entry as [_normalize_history] hands it to the front end:
    [company_name] becomes [company], [started_at] becomes [date],
    [error] becomes [error_message]. *)
Record api_history : Type := mkApiHistory {
  ah_id : Z;
  ah_company_id : Z;
  ah_date : time;
  ah_finished_at : option time;
  ah_roles_found : Z;
  ah_roles_qualified : Z;
  ah_status : string;
  ah_error_message : option string;
  ah_company : string
}.

Definition _normalize_history (e : joined_log) : api_history :=
  let l := jl_log e in
  mkApiHistory (l_id l) (l_company_id l) (l_started_at l) (l_finished_at l)
    (l_roles_found l) (l_roles_qualified l) (l_status l) (l_error l)
    (jl_company_name e).

(** [GET /api/scrape/history]: [db.get_scrape_history()] with its default
    limit of 20. *)
Definition scrape_history (w : world) : list api_history :=
  map _normalize_history (history_rows 20 (db w)).

End ApiMore.
(* ================================================================== *)
(** ** Vocabulary of the statements *)
(* ================================================================== *)

Module Lex.

(** The unread input does not continue a number. *)
Definition stop (r : text) : bool :=
  match r with
  | [] => true
  | c :: _ => negb (is_digit c || is_char "." c || is_char "e" c || is_char "E" c)
  end.

Definition no_digit_next (r : text) : bool :=
  match r with
  | [] => true
  | c :: _ => negb (is_digit c)
  end.

(** The text is not empty and its last character is no white space. *)
Definition ends_ok (c : text) : Prop :=
  exists c' a, c = c' ++ [a] /\ Py.isspace a = false.

Definition ends_digit (c : text) : Prop :=
  exists c' a, c = c' ++ [a] /\ is_digit a = true.

(** A markdown code fence around [t]: the opening fence and a language
    tag on the first line, the closing fence alone on the last. *)
Definition fenced (tag t : text) : text :=
  fence ++ tag ++ Py.newline :: t ++ Py.newline :: fence.

End Lex.

Module Vocab.

Import Db Pipeline.

(** Python equality of two optional texts ([None == None] holds). *)
Definition opt_eqb (a b : option string) : bool :=
  match a, b with
  | Some x, Some y => String.eqb x y
  | None, None => true
  | _, _ => false
  end.

(** The row carries the key (company_id, title, location). *)
Definition has_key (company_id : Z) (title : string) (location : option string)
           (r : role) : bool :=
  (r_company_id r =? company_id)%Z && String.eqb (r_title r) title
  && opt_eqb (r_location r) location.

Definition rows_with_key (company_id : Z) (title : string)
           (location : option string) (st : store) : list role :=
  filter (has_key company_id title location) (roles st).

(** The constraints the schema of [init_db] puts on [roles]:
    [PRIMARY KEY (id)] fed by a sequence, and
    [UNIQUE (company_id, title, location)], which like SQL [=] does not
    relate rows whose location is NULL. *)
Definition roles_wf (st : store) : Prop :=
  NoDup (map r_id (roles st))
  /\ Forall (fun r => r_id r < next_role_id st)%Z (roles st)
  /\ forall r1 r2, In r1 (roles st) -> In r2 (roles st) ->
       r_company_id r1 = r_company_id r2 -> r_title r1 = r_title r2 ->
       sql_eq (r_location r1) (r_location r2) = true -> r1 = r2.

Definition company_exists (company_id : Z) (st : store) : Prop :=
  exists c, In c (companies st) /\ c_id c = company_id.

(** Descending score, then descending recency: the order the listings
    are specified to have. *)
Definition score_then_recency (a b : joined) : Prop :=
  (r_score (j_role b) < r_score (j_role a)
   \/ (r_score (j_role a) = r_score (j_role b)
       /\ r_last_seen_at (j_role b) <= r_last_seen_at (j_role a)))%Z.

(** An iteration of an orchestrator's loop goes through without
    raising, and the store accepts the resulting score. *)
Definition accepted (r : result (bool * upsert_args)) : bool :=
  match r with
  | Ok (_, a) => int4 (a_score a)
  | Raise _ => false
  end.

Definition qualifies (r : result (bool * upsert_args)) : bool :=
  match r with
  | Ok (q, _) => q
  | Raise _ => false
  end.


(** What the body of a [try] leaves alone. *)
Definition frame (w w' : world) : Prop :=
  companies (db w') = companies (db w)
  /\ scrape_logs (db w') = scrape_logs (db w)
  /\ next_log_id (db w') = next_log_id (db w)
  /\ status w' = status w.

Definition known (company_id : Z) (st : store) : bool :=
  existsb (fun c => (c_id c =? company_id)%Z) (companies st).

Definition error_row (company_id : Z) (e : exn) (row : scrape_log) : Prop :=
  l_company_id row = company_id /\ l_status row = "error"%string
  /\ l_roles_found row = 0%Z /\ l_roles_qualified row = 0%Z
  /\ l_error row = Some (str_exn e).

Definition completed_row (company_id found qualified : Z) (row : scrape_log) : Prop :=
  l_company_id row = company_id /\ l_status row = "completed"%string
  /\ l_roles_found row = found /\ l_roles_qualified row = qualified
  /\ l_error row = None.

Section Run.
Variable search_service : string -> string -> result text.
Variable scoring_service : json -> json -> json -> json -> string -> result text.
(** The loop body of the orchestrator at hand, [Api.iteration] or
    [Scheduler.iteration] with its treatment of untyped values. *)
Variable iteration : Z -> json -> json -> result (bool * upsert_args).

(** The (role, score result) pairs an orchestrator loops over for a
    company whose search answered [content]. *)
Definition scored_of (c : company) (content : text) : list (json * json) :=
  Scorer.score_roles_batch scoring_service (Scraper.parse_response content) (c_name c).

Definition loop_body (c : company) (p : json * json) : result (bool * upsert_args) :=
  iteration (c_id c) (fst p) (snd p).

(** Nothing raises while the company's roles are scored and stored. *)
Definition company_succeeds (c : company) (content : text) : bool :=
  forallb (fun p => accepted (loop_body c p)) (scored_of c content).

Definition qualified_count (c : company) (content : text) : Z :=
  Z.of_nat (List.length (filter (fun p => qualifies (loop_body c p))
                           (scored_of c content))).


(** The log row the run owes the company. *)
Definition row_for (c : company) (row : scrape_log) : Prop :=
  l_company_id row = c_id c
  /\ (forall e, search_service (c_name c) (c_careers_url c) = Raise e ->
        error_row (c_id c) e row)
  /\ (forall content, search_service (c_name c) (c_careers_url c) = Ok content ->
        company_succeeds c content = true ->
        completed_row (c_id c)
          (Z.of_nat (List.length (Scraper.parse_response content)))
          (qualified_count c content) row).
End Run.

End Vocab.
(* ================================================================== *)
(** ** Vocabulary of the further statements *)
(* ================================================================== *)

Module Vocab2.

Import Db DbMore Pipeline.

(** The constraints of [init_db] on [companies]: [PRIMARY KEY (id)] fed
    by a sequence and [UNIQUE (name)]. *)
Definition companies_wf (st : store) : Prop :=
  NoDup (map c_id (companies st))
  /\ Forall (fun c => c_id c < next_company_id st)%Z (companies st)
  /\ NoDup (map c_name (companies st)).

(** [company_id ... REFERENCES companies(id)] together with the primary
    key: every role joins with exactly one company. *)
Definition refs_ok (st : store) : bool :=
  forallb (fun r =>
             Nat.eqb (List.length
                        (filter (fun c => (r_company_id r =? c_id c)%Z) (companies st)))
               1)
    (roles st).

Definition has_name (name : string) (st : store) : bool :=
  existsb (fun c => String.eqb (c_name c) name) (companies st).

(** What of a role a scrape has no business changing: its identity, its
    key, the user's decision and the first sighting. *)
Definition user_view (r : role)
  : Z * Z * string * option string * string * option Z * Z :=
  (r_id r, r_company_id r, r_title r, r_location r, r_status r, r_applied_at r,
   r_first_seen_at r).

Definition fresh_role (r : role) : Prop :=
  r_status r = "new"%string /\ r_applied_at r = None.

(** [st'] has the roles of [st], none dropped, none re-keyed, the user's
    decisions untouched, and besides them fresh ones. *)
Definition extends (st st' : store) : Prop :=
  exists added,
    Permutation (map user_view (roles st'))
      (map user_view (roles st) ++ map user_view added)
    /\ Forall fresh_role added.

(** The same call with [posted_date] left out. *)
Definition without_posted (a : upsert_args) : upsert_args :=
  mkArgs (a_company_id a) (a_title a) (a_url a) (a_location a) (a_description a)
    (a_seniority a) (a_department a) (a_score a) (a_score_breakdown a) None.

(** The same call for a role whose scoring failed. *)
Definition zero_scored (a : upsert_args) : upsert_args :=
  mkArgs (a_company_id a) (a_title a) (a_url a) (a_location a) (a_description a)
    (a_seniority a) (a_department a) 0 (BDict []) (a_posted_date a).

(** A row of [scrape_logs] as an orchestrator writes it. *)
Definition row_ok (row : scrape_log) : Prop :=
  l_finished_at row = Some (l_started_at row)
  /\ ((l_status row = "completed"%string /\ l_error row = None
       /\ 0 <= l_roles_qualified row <= l_roles_found row)%Z
      \/ (l_status row = "error"%string /\ l_error row <> None
          /\ l_roles_found row = 0 /\ l_roles_qualified row = 0)%Z).

(** The company's row after [update_company_scraped] at time [t]. *)
Definition stamped (t : time) (c : company) : company :=
  mkCompany (c_id c) (c_name c) (c_careers_url c) (c_active c) (c_created_at c)
    (Some t).

(** Among the rows there is a completed one for the company. *)
Definition completed_for (company_id : Z) (rows : list scrape_log) : bool :=
  existsb (fun row => (l_company_id row =? company_id)%Z
                      && String.eqb (l_status row) "completed") rows.

(** The three constraints together. *)
Definition consistent (st : store) : Prop :=
  companies_wf st /\ Vocab.roles_wf st /\ refs_ok st = true.

(** No occurrence of the character. *)
Definition lacks (c : ascii) (s : text) : bool :=
  forallb (fun x => negb (Ascii.eqb x c)) s.

Local Open Scope Z_scope.

(** The company's row after [remove_company]. *)
Definition deactivated (c : company) : company :=
  mkCompany (c_id c) (c_name c) (c_careers_url c) 0 (c_created_at c)
    (c_last_scraped_at c).

Definition one (b : bool) : Z := if b then 1 else 0.

Definition at_id (id : Z) (f : role -> role) (r : role) : role :=
  if (r_id r =? id)%Z then f r else r.

(** The foreign-key test reads the company ids only. *)
Definition matches (k : Z) (ids : list Z) : bool :=
  Nat.eqb (List.length (filter (fun i => k =? i) ids)) 1.

(** What the loop over the scored roles leaves alone, and the range of
    its counter. *)
Definition loop_effect (n : Z) (len : nat) (w : world) (out : attempt) : Prop :=
  match out with
  | Completed w' k =>
      companies (db w') = companies (db w)
      /\ scrape_logs (db w') = scrape_logs (db w)
      /\ clock w <= clock w' /\ n <= k <= n + Z.of_nat len
  | Failed w' _ =>
      companies (db w') = companies (db w)
      /\ scrape_logs (db w') = scrape_logs (db w)
      /\ clock w <= clock w'
  end.

Definition stamp_at (id : Z) (t : time) (c : company) : company :=
  if c_id c =? id then stamped t c else c.

(** One iteration of the loop over the companies: the row it logs,
    which is the row [owed] to the company, and the stamp it sets; or, when
    the exception escapes, nothing logged and nothing stamped. *)
Definition company_effect (owed : company -> scrape_log -> Prop) (c : company)
           (w : world) (out : outcome) : Prop :=
  clock w <= clock (world_of out)
  /\ match out with
     | Done w' =>
         exists row,
           scrape_logs (db w') = scrape_logs (db w) ++ [row]
           /\ l_company_id row = c_id c
           /\ owed c row
           /\ row_ok row
           /\ ((l_status row = "completed"%string
                /\ exists t, clock w <= t
                             /\ companies (db w')
                                = update_where (fun x => c_id x =? c_id c)
                                    (stamped t) (companies (db w)))
               \/ (l_status row = "error"%string
                   /\ companies (db w') = companies (db w)))
     | Escaped w' _ =>
         scrape_logs (db w') = scrape_logs (db w)
         /\ companies (db w') = companies (db w)
     end.

(** The loop over the scored roles, for either orchestrator. *)
Fixpoint upsert_loop (iteration : Z -> json -> json -> result (bool * upsert_args))
         (company_id : Z) (scored : list (json * json)) (qualified_count : Z)
         (w : world) : attempt :=
  match scored with
  | [] => Completed w qualified_count
  | (role, score_result) :: rest =>
      match iteration company_id role score_result with
      | Raise e => Failed w e
      | Ok (qualifies, args) =>
          match call_upsert (clock w) args (db w) with
          | Raise e => Failed w e
          | Ok st =>
              upsert_loop iteration company_id rest
                (if qualifies then qualified_count + 1 else qualified_count)
                (with_db st w)
          end
      end
  end.

(** The loop over the companies, for either orchestrator. *)
Fixpoint iterate (one : company -> world -> outcome) (cs : list company)
         (w : world) : outcome :=
  match cs with
  | [] => Done w
  | c :: rest =>
      match one c w with
      | Done w' => iterate one rest w'
      | Escaped w' e => Escaped w' e
      end
  end.

(** The companies a loop got through: all of them, or those before the
    one whose exception escaped. *)
Definition got_through (cs visited : list company) (out : outcome) : Prop :=
  match out with
  | Done _ => visited = cs
  | Escaped _ _ => exists c rest, cs = visited ++ c :: rest
  end.


(** The stamps of a run: the companies are the rows there were, those
    with a completed row among the rows logged stamped at a time not
    before the start, the others as they were. *)
Definition stamps (w : world) (out : outcome) : Prop :=
  exists rows g,
    scrape_logs (db (world_of out)) = scrape_logs (db w) ++ rows
    /\ Permutation (companies (db (world_of out))) (map g (companies (db w)))
    /\ forall c, if completed_for (c_id c) rows
                 then exists t, clock w <= t /\ g c = stamped t c
                 else g c = c.

(** Both at once, as the loop establishes them. *)
Definition run_effect (owed : company -> scrape_log -> Prop) (cs : list company)
           (w : world) (out : outcome) : Prop :=
  clock w <= clock (world_of out)
  /\ exists visited rows g,
       got_through cs visited out
       /\ scrape_logs (db (world_of out)) = scrape_logs (db w) ++ rows
       /\ Forall2 owed visited rows
       /\ Forall row_ok rows
       /\ Permutation (companies (db (world_of out))) (map g (companies (db w)))
       /\ forall c, if completed_for (c_id c) rows
                    then exists t, clock w <= t /\ g c = stamped t c
                    else g c = c.

(** Descending order of [started_at]. *)
Definition later_first (a b : joined_log) : Prop :=
  l_started_at (jl_log b) <= l_started_at (jl_log a).

End Vocab2.

(* ================================================================== *)
(** ** Concrete stores and services used by the checks *)
(* ================================================================== *)

Module Data.

Import Db Pipeline.
Local Open Scope string_scope.
Local Open Scope Z_scope.

Definition acme_store : store :=
  add_company 0 "Acme" "https://acme.example/careers" empty.

(** Three roles of one company with equal scores.  A, B and C are seen
    at times 1, 2 and 3, A is seen again at time 4, then the user applies
    to B: by recency the order is A, C, B. *)
Definition shuffled_store : store :=
  let see t title st :=
    match upsert_role t 1 title None (Some "London") None None None 85
            (BDict []) None st with
    | Ok st' => st'
    | Raise _ => st
    end in
  mark_role_applied 5 2
    (see 4 "Analyst" (see 3 "Consultant" (see 2 "Broker" (see 1 "Analyst" acme_store)))).

(** One company with roles scored 79, 80 and 10. *)
Definition scored_store : store :=
  fold_left
    (fun st '(t, title, score) =>
       match upsert_role t 1 title None (Some "London") None None None score
               BNone None st with
       | Ok st' => st'
       | Raise _ => st
       end)
    [(1, "A", 79); (2, "B", 80); (3, "C", 10)] acme_store.

(** One role of company 1, seen once. *)
Definition one_role_store : store :=
  match upsert_role 1 1 "PM" (Some "u1") (Some "London") None None None 85
          (BDict []) None acme_store with
  | Ok st => st
  | Raise _ => acme_store
  end.

Definition the_role : role :=
  mkRole 1 1 "PM" (Some "u1") (Some "London") None None None None 85
    (Some (Dumps [])) "new" 1 1 None.

(** The same role observed twice with no location. *)
Definition first_null_upsert : result store :=
  upsert_role 1 1 "PM" (Some "u1") None (Some "d1") None None 70 (BDict []) None
    acme_store.

Definition second_null_upsert (st : store) : result store :=
  upsert_role 2 1 "PM" (Some "u2") None (Some "d2") None None 90 (BDict []) None st.

(** Services with fixed answers. *)
Definition answers (content : text) : string -> string -> result text :=
  fun _ _ => Ok content.

Definition scores (content : text)
  : json -> json -> json -> json -> string -> result text :=
  fun _ _ _ _ _ => Ok content.

(** A treatment of untyped values for the examples, none of which
    meets one. *)
Definition refuses : Z -> json -> json -> result (bool * upsert_args) :=
  fun _ _ _ => Raise TypeError.

Definition one_role : text :=
  Q "[{'title': 'PM', 'location': 'London', 'posted_date': '2024-05-01'}]".

Definition idle : scrape_status := mkStatus false None "".

Definition acme_world : world := mkWorld acme_store 10 idle.

(** Roles as the search client returns them. *)
Definition role_without_date : json :=
  JObj [("title", JStr "PM"); ("location", JStr "London"); ("posted_date", JStr "")].

Definition role_with_date : json :=
  JObj [("title", JStr "PM"); ("location", JStr "London");
        ("posted_date", JStr "2024-05-01")].

Definition result_70 : json := JObj [("total_score", JInt 70); ("breakdown", JObj [])].

(** Three active companies; the search fails for the second. *)
Definition three_companies : store :=
  add_company 2 "Gamma" "https://gamma.example/jobs"
    (add_company 1 "Beta" "https://beta.example/jobs" acme_store).

Definition three_world : world := mkWorld three_companies 10 idle.

Definition beta_down : string -> string -> result text :=
  fun name _ =>
    if String.eqb name "Beta" then Raise (TransportError "503 Server Error")
    else Ok one_role.

(** The same, the text of the exception holding a NUL character. *)
Definition beta_down_nul : string -> string -> result text :=
  fun name _ =>
    if String.eqb name "Beta"
    then Raise (TransportError (String "5" (String Ascii.zero "3")))
    else Ok one_role.

Definition scores_85 : json -> json -> json -> json -> string -> result text :=
  scores (Q "{'total_score': 85, 'breakdown': {'core_skills': 18}}").

Definition acme : company :=
  mkCompany 1 "Acme" "https://acme.example/careers" 1 0 None.

Definition beta_gamma : list company :=
  [mkCompany 2 "Beta" "https://beta.example/jobs" 1 1 None;
   mkCompany 3 "Gamma" "https://gamma.example/jobs" 1 2 None].

(** A scheduled run over the three companies, interrupted after the
    first one by a manual trigger whose run goes through before the
    scheduled run resumes with the other two. *)
Definition overlapped : Api.trigger_response * world :=
  let w1 := world_of (Scheduler.scrape_one beta_down scores_85 refuses acme three_world) in
  let w2 := world_of (Api._run_scrape beta_down scores_85 refuses None w1) in
  (Api.trigger_scrape None w1,
   world_of (Scheduler.for_companies beta_down scores_85 refuses beta_gamma w2)).

(** A valid JSON array and two fenced layouts of it. *)
Definition bare_array : text := Q "[{'title': 'PM', 'location': 'London'}]".

Definition fenced_on_one_line : text :=
  (T "```json " ++ bare_array ++ T " ```")%list.

Definition fence_closed_on_last_line : text :=
  (T "```json" ++ Py.newline :: bare_array ++ T "```")%list.

End Data.

(* ================================================================== *)
(** ** Further example data *)
(* ================================================================== *)

Module Data2.

Import Db DbMore Pipeline.
Local Open Scope string_scope.
Local Open Scope Z_scope.

(** A companies file: the first entry relies on the default of
    [active], the second is switched off. *)
Definition seed_file : text :=
  Q "[{'name': 'Acme', 'careers_url': 'https://acme.example/jobs'}, {'name': 'Beta', 'careers_url': 'https://beta.example/jobs', 'active': false}]".

(** Acme, deactivated by the user. *)
Definition acme_off : store := remove_company 1 Data.acme_store.

(** The user applied to the one role on file; then a manual run finds
    the same role again. *)
Definition applied_world : world :=
  mkWorld (mark_role_applied 9 1 Data.one_role_store) 10 Data.idle.

Definition after_rerun : world :=
  world_of (Api._run_scrape (Data.answers Data.one_role) Data.scores_85 Data.refuses
              None applied_world).

(** A manual run over the three companies, the search failing for Beta. *)
Definition after_three : world :=
  world_of (Api._run_scrape Data.beta_down Data.scores_85 Data.refuses None
              Data.three_world).

(** Answers with prose around the JSON. *)
Definition chatty_roles : text :=
  Q "Here are the roles: [{'title': 'PM'}] Hope this helps!".

Definition chatty_score : text :=
  Q "Sure. {'total_score': 85} Let me know if you need more.".

(** A valid answer of the wrong shape. *)
Definition roles_in_object : text := Q "{'roles': [{'title': 'PM'}]}".

(** The one role on file, as the search returns it. *)
Definition pm_role : json :=
  JObj [("title", JStr "PM"); ("location", JStr "London"); ("url", JStr "u1")].

End Data2.

(* ================================================================== *)
(** * Checks of the embedding on concrete inputs *)
(* ================================================================== *)

Example loads_ex1 :
  loads (Q "[{'title': 'PM', 'n': [1, -20, 3.5e2], 'x': null}] ")
  = Some (JArr [JObj [("title"%string, JStr "PM");
                      ("n"%string, JArr [JInt 1; JInt (-20); JFloat "3.5e2"]);
                      ("x"%string, JNull)]]).
Proof. vm_compute. reflexivity. Qed.

Example loads_ex2 : loads (T "{oops}") = None.
Proof. vm_compute. reflexivity. Qed.

Example loads_ex3 : loads (T "") = None.
Proof. vm_compute. reflexivity. Qed.

Example loads_ex4 : loads (Q "{'a': 1, 'b': 2, 'a': '\u00e9\n\ud83d\ude00'}")
  = Some (JObj [("a"%string, JStr (S_ (map ascii_of_N [195; 169; 10; 240; 159; 152; 128]%N)));
                ("b"%string, JInt 2)]).
Proof. vm_compute. reflexivity. Qed.

Example loads_ex5 :
  map loads [T "01"; T "1."; T "-"; T "[1,]"; T "nul"; T " 12 "; T "1e5"; T "-0"; T "[] x"]
  = [None; None; None; None; None; Some (JInt 12); Some (JFloat "1e5"); Some (JInt 0); None].
Proof. vm_compute. reflexivity. Qed.

Example scraper_ex1 :
  Scraper.parse_response (Q "```json|[{'title': 'PM'}]|```") = [JObj [("title"%string, JStr "PM")]].
Proof. vm_compute. reflexivity. Qed.

Example scraper_ex2 :
  Scraper.parse_response (Q "Here you go: [{'title': 'PM'}] enjoy") = [JObj [("title"%string, JStr "PM")]].
Proof. vm_compute. reflexivity. Qed.

Example scraper_ex3 :
  Scraper.parse_response (Q "```json [{'title': 'PM'}] ```") = [].
Proof. vm_compute. reflexivity. Qed.

Example scorer_ex1 : Scorer.parse_response (T "{oops}") = Raise JSONDecodeError.
Proof. vm_compute. reflexivity. Qed.

Example scorer_ex2 : Scorer.parse_response (T "no json here") = Ok Scorer.parse_failure.
Proof. vm_compute. reflexivity. Qed.

(* ================================================================== *)
(** * The persistence store *)
(* ================================================================== *)

Module DbFacts.

Import Db Vocab Data.




End DbFacts.

(* ------------------------------------------------------------------ *)
(** ** Listings *)
(* ------------------------------------------------------------------ *)

Module Listing.

Import Db Vocab Data Api.

Section OrderByFacts.
Context {A : Type} (before : A -> A -> bool).

Lemma insert_perm (x : A) (l : list A) : Permutation (x :: l) (insert before x l).
Proof.
  induction l as [|y t IH]; simpl.
  - apply Permutation_refl.
  - destruct (before x y).
    + apply Permutation_refl.
    + eapply perm_trans; [apply perm_swap|]. now apply perm_skip.
Qed.

Lemma order_by_perm (l : list A) : Permutation l (order_by before l).
Proof.
  induction l as [|x t IH]; simpl.
  - constructor.
  - eapply perm_trans; [apply perm_skip, IH | apply insert_perm].
Qed.

Lemma order_by_In (x : A) (l : list A) : In x (order_by before l) <-> In x l.
Proof.
  split; intro H.
  - eapply Permutation_in; [apply Permutation_sym, order_by_perm | exact H].
  - eapply Permutation_in; [apply order_by_perm | exact H].
Qed.

Hypothesis before_total : forall a b, before a b = false -> before b a = true.

Lemma insert_sorted (x : A) (l : list A) :
  Sorted (fun a b => before a b = true) l ->
  Sorted (fun a b => before a b = true) (insert before x l).
Proof.
  induction l as [|y t IH]; intros Hs; simpl.
  - repeat constructor.
  - destruct (before x y) eqn:E.
    + constructor; [exact Hs | constructor; exact E].
    + inversion Hs as [|? ? Ht Hhd]; subst.
      constructor; [apply IH, Ht|].
      destruct t as [|z t']; simpl.
      * constructor. now apply before_total.
      * destruct (before x z) eqn:E'.
        -- constructor. now apply before_total.
        -- inversion Hhd; subst. now constructor.
Qed.

Lemma order_by_sorted (l : list A) :
  Sorted (fun a b => before a b = true) (order_by before l).
Proof.
  induction l as [|x t IH]; simpl; [constructor | now apply insert_sorted].
Qed.

End OrderByFacts.

Lemma by_score_recency_spec (a b : joined) :
  by_score_recency a b = true <-> score_then_recency a b.
Proof.
  unfold by_score_recency, score_then_recency.
  rewrite orb_true_iff, andb_true_iff, Z.ltb_lt, Z.eqb_eq, Z.leb_le. tauto.
Qed.

Lemma by_score_recency_total (a b : joined) :
  by_score_recency a b = false -> by_score_recency b a = true.
Proof.
  unfold by_score_recency. intros H.
  apply orb_false_iff in H. destruct H as [H1 H2].
  apply Z.ltb_ge in H1.
  destruct (Z.eqb_spec (r_score (j_role a)) (r_score (j_role b))) as [E|E].
  - simpl in H2. apply Z.leb_gt in H2.
    rewrite E, Z.eqb_refl. simpl.
    replace (r_last_seen_at (j_role a) <=? r_last_seen_at (j_role b))%Z with true
      by (symmetry; apply Z.leb_le; lia).
    apply orb_true_r.
  - replace (r_score (j_role a) <? r_score (j_role b))%Z with true
      by (symmetry; apply Z.ltb_lt; lia).
    reflexivity.
Qed.

Lemma score_then_recency_trans (a b c : joined) :
  score_then_recency a b -> score_then_recency b c -> score_then_recency a c.
Proof. unfold score_then_recency. lia. Qed.

Lemma sorted_score_then_recency (l : list joined) :
  StronglySorted score_then_recency (order_by by_score_recency l).
Proof.
  apply Sorted_StronglySorted.
  - intros a b c. apply score_then_recency_trans.
  - pose proof (order_by_sorted by_score_recency by_score_recency_total l) as H.
    induction H as [|x t Ht IH Hhd]; constructor; [exact IH|].
    destruct Hhd; constructor. now apply by_score_recency_spec.
Qed.

(** X4. The qualified listing comes in descending score, ties in
    descending recency. *)
Lemma get_qualified_roles_sorted (threshold : Z) (st : store) :
  StronglySorted score_then_recency (get_qualified_roles threshold st).
Proof. apply sorted_score_then_recency. Qed.

(** X5. The unfiltered listing comes in descending score, ties in
    descending recency. *)
Lemma get_all_roles_sorted (st : store) :
  StronglySorted score_then_recency (get_all_roles st).
Proof. apply sorted_score_then_recency. Qed.

(** X3. The qualified listing holds exactly the joined rows at or above
    the threshold. *)
Lemma get_qualified_roles_exact (threshold : Z) (st : store) (j : joined) :
  In j (get_qualified_roles threshold st)
  <-> In j (join_roles true st) /\ (threshold <= r_score (j_role j))%Z.
Proof.
  unfold get_qualified_roles. rewrite order_by_In, filter_In.
  rewrite Z.geb_le. tauto.
Qed.

Lemma qualified_threshold_boundary :
  map (fun j => r_title (j_role j)) (get_qualified_roles 80 scored_store)
  = ["B"%string]
  /\ map (fun j => (r_title (j_role j), r_score (j_role j))) (get_all_roles scored_store)
     = [("B"%string, 80%Z); ("A"%string, 79%Z); ("C"%string, 10%Z)].
Proof. split; vm_compute; reflexivity. Qed.

Lemma by_score_total (a b : joined) : by_score a b = false -> by_score b a = true.
Proof.
  unfold by_score. intros H. apply Z.leb_gt in H. apply Z.leb_le. lia.
Qed.

(** The per-company listing comes in descending score; nothing more. *)
Lemma get_roles_by_company_sorted (company_id : Z) (st : store) :
  StronglySorted (fun a b => r_score (j_role b) <= r_score (j_role a))%Z
    (get_roles_by_company company_id st).
Proof.
  apply Sorted_StronglySorted.
  - intros a b c. lia.
  - unfold get_roles_by_company.
    pose proof (order_by_sorted by_score by_score_total
                  (filter (fun j => (r_company_id (j_role j) =? company_id)%Z)
                     (join_roles false st))) as H.
    induction H as [|x t Ht IH Hhd]; constructor; [exact IH|].
    destruct Hhd as [|y t' Hxy]; constructor.
    unfold by_score in Hxy. now apply Z.leb_le.
Qed.

Lemma all_tied_sorted {A} (R : A -> A -> Prop) (l : list A) :
  (forall a b, In a l -> In b l -> R a b) -> StronglySorted R l.
Proof.
  induction l as [|x l IH]; intro H; constructor.
  - apply IH. intros a b Ha Hb. apply H; now right.
  - apply Forall_forall. intros b Hb. apply H; [now left | now right].
Qed.

(** The listing as modelled is one of the answers the query admits. *)
Lemma get_roles_by_company_answer (company_id : Z) (st : store) :
  by_company_answer company_id st (get_roles_by_company company_id st).
Proof.
  split; [apply order_by_perm|].
  apply Sorted_StronglySorted.
  - intros a b c. unfold by_score. rewrite !Z.leb_le. lia.
  - apply order_by_sorted, by_score_total.
Qed.

Lemma three_orders {A} (a b c : A) (l : list A) :
  Permutation [a; b; c] l ->
  l = [a; b; c] \/ l = [a; c; b] \/ l = [b; a; c]
  \/ l = [b; c; a] \/ l = [c; a; b] \/ l = [c; b; a].
Proof.
  intro H. pose proof (Permutation_length H) as Hlen.
  destruct l as [|x [|y [|z [|? ?]]]]; try discriminate Hlen.
  assert (Hx : In x [a; b; c]).
  { apply (Permutation_in x (Permutation_sym H)). now left. }
  apply Permutation_sym in H.
  destruct Hx as [<-|[<-|[<-|[]]]].
  - apply Permutation_cons_inv, Permutation_length_2_inv in H.
    destruct H as [[= -> ->]|[= -> ->]]; auto.
  - apply (Permutation_cons_app_inv [a] [c]), Permutation_length_2_inv in H.
    destruct H as [[= -> ->]|[= -> ->]]; auto 6.
  - apply (Permutation_cons_app_inv [a; b] []), Permutation_length_2_inv in H.
    destruct H as [[= -> ->]|[= -> ->]]; auto 7.
Qed.

(** C5, at the failing input: three roles of one company with equal
    scores, Analyst seen at times 1 and 4, Broker at time 2 and since
    applied to, Consultant at time 3.  [get_roles_by_company] orders by
    score alone, which tells none of the three apart: every order of the
    three rows is an answer to its query, and of the six only Analyst,
    Consultant, Broker is in descending recency.  The rows as they were
    inserted, as they lie in the table after the updates, and either of
    these reversed are four of the other five. *)
Theorem by_company_ties_not_by_recency :
  Permutation
    (map (fun j => (r_title (j_role j), r_score (j_role j), r_last_seen_at (j_role j)))
       (get_roles_by_company 1 shuffled_store))
    [("Analyst"%string, 85%Z, 4%Z); ("Consultant"%string, 85%Z, 3%Z);
     ("Broker"%string, 85%Z, 2%Z)]
  /\ (forall result,
         Permutation (get_roles_by_company 1 shuffled_store) result ->
         by_company_answer 1 shuffled_store result)
  /\ (forall result,
         by_company_answer 1 shuffled_store result ->
         StronglySorted score_then_recency result ->
         map (fun j => r_title (j_role j)) result
         = ["Analyst"%string; "Consultant"%string; "Broker"%string])
  /\ (forall result,
         by_company_answer 1 shuffled_store result ->
         In (map (fun j => r_title (j_role j)) result)
            [["Analyst"%string; "Broker"%string; "Consultant"%string];
             ["Consultant"%string; "Broker"%string; "Analyst"%string];
             ["Consultant"%string; "Analyst"%string; "Broker"%string];
             ["Broker"%string; "Analyst"%string; "Consultant"%string]] ->
         ~ StronglySorted score_then_recency result).
Proof.
  assert (Hthree : forall result,
             by_company_answer 1 shuffled_store result ->
             exists a b c,
               map (fun j => (r_title (j_role j), r_score (j_role j),
                              r_last_seen_at (j_role j))) [a; b; c]
               = [("Analyst"%string, 85%Z, 4%Z); ("Broker"%string, 85%Z, 2%Z);
                  ("Consultant"%string, 85%Z, 3%Z)]
               /\ Permutation [a; b; c] result).
  { intros result [Hperm _]. revert Hperm. vm_compute filter. intro Hperm.
    eexists. eexists. eexists. split; [|exact Hperm]. reflexivity. }
  assert (Hsorted : forall result,
             by_company_answer 1 shuffled_store result ->
             StronglySorted score_then_recency result ->
             map (fun j => r_title (j_role j)) result
             = ["Analyst"%string; "Consultant"%string; "Broker"%string]).
  { intros result Hans Hs.
    destruct (Hthree result Hans) as (a & b & c & E & Hperm).
    cbn [map] in E. injection E as Ta Sa La Tb Sb Lb Tc Sc Lc.
    destruct (three_orders a b c result Hperm) as [-> | [-> | [-> | [-> | [-> | -> ] ] ] ] ];
      cbn [map]; rewrite ?Ta, ?Tb, ?Tc; try reflexivity; exfalso;
      repeat match goal with
             | H : StronglySorted _ (_ :: _) |- _ =>
                 apply StronglySorted_inv in H; destruct H
             | H : Forall _ (_ :: _) |- _ =>
                 apply Forall_inv in H || (apply Forall_inv_tail in H)
             end;
      repeat match goal with
             | H : Forall _ (_ :: _) |- _ =>
                 pose proof (Forall_inv H); apply Forall_inv_tail in H
             end;
      unfold score_then_recency in *; lia. }
  split; [vm_compute; apply perm_skip, perm_swap|]. split; [|split].
  - intros result Hperm. split.
    + eapply perm_trans; [apply order_by_perm | exact Hperm].
    + apply all_tied_sorted. intros a b Ha Hb.
      assert (Hs : forall j, In j result -> r_score (j_role j) = 85%Z).
      { intros j Hj. apply (Permutation_in _ (Permutation_sym Hperm)) in Hj.
        revert Hj. vm_compute. intros [<-|[<-|[<-|[]]]]; reflexivity. }
      unfold by_score. rewrite (Hs a Ha), (Hs b Hb). reflexivity.
  - exact Hsorted.
  - intros result Hans Hin Hs. rewrite (Hsorted result Hans Hs) in Hin.
    cbn in Hin. intuition discriminate.
Qed.

(** C10. With a company id the listing is the per-company one whatever
    [qualified_only] says, and it holds every role of that company,
    whatever its score. *)
Theorem list_roles_company_ignores_qualified_only
  (st : store) (qualified_only : bool) (company_id : Z)
  (Hid : company_id <> 0%Z) :
  list_roles qualified_only (Some company_id) st
  = map _normalize_role (get_roles_by_company company_id st)
  /\ list_roles true (Some company_id) st = list_roles false (Some company_id) st
  /\ forall r c, In r (roles st) -> In c (companies st) ->
       r_company_id r = company_id -> c_id c = company_id ->
       In (_normalize_role (mkJoined r (c_name c) None))
          (list_roles qualified_only (Some company_id) st).
Proof.
  unfold list_roles, given.
  destruct (Z.eqb_spec company_id 0) as [E|_]; [contradiction|].
  split; [reflexivity|]. split; [reflexivity|].
  intros r c Hr Hc Hrc Hcc.
  apply in_map. unfold get_roles_by_company.
  apply order_by_In, filter_In. split.
  - unfold join_roles. apply in_flat_map. exists r. split; [exact Hr|].
    apply in_map_iff. exists c. split; [reflexivity|].
    apply filter_In. split; [exact Hc|]. apply Z.eqb_eq. congruence.
  - simpl. now apply Z.eqb_eq.
Qed.

Lemma list_roles_company_ignores_qualified_only_witness :
  (1 <> 0)%Z
  /\ map (fun a => (r_title (ar_row a), r_score (ar_row a)))
       (list_roles true (Some 1%Z) scored_store)
     = [("B"%string, 80%Z); ("A"%string, 79%Z); ("C"%string, 10%Z)].
Proof.
  assert (H : (1 <> 0)%Z) by lia.
  split; [exact H|].
  rewrite (proj1 (list_roles_company_ignores_qualified_only scored_store true 1 H)).
  vm_compute. reflexivity.
Defined.

End Listing.

(* ------------------------------------------------------------------ *)
(** ** [upsert_role] *)
(* ------------------------------------------------------------------ *)

Module Upsert.

Import Db Vocab Data.
Local Open Scope Z_scope.

Lemma find_is_first_filtered {A} (p : A -> bool) (l : list A) :
  List.find p l = match filter p l with [] => None | x :: _ => Some x end.
Proof.
  induction l as [|a l IH]; simpl; [reflexivity|].
  destruct (p a); [reflexivity | exact IH].
Qed.

Lemma filter_none {A} (p : A -> bool) (l : list A) :
  (forall y, In y l -> p y = false) -> filter p l = [].
Proof.
  induction l as [|a l IH]; intros H; simpl; [reflexivity|].
  rewrite (H a (or_introl eq_refl)). apply IH. intros y Hy. apply H. now right.
Qed.

Lemma filter_singleton {A} (p : A -> bool) (l : list A) (x : A) :
  NoDup l -> In x l -> p x = true ->
  (forall y, In y l -> p y = true -> y = x) ->
  filter p l = [x].
Proof.
  induction l as [|a l IH]; intros Hnd Hin Hp Huniq; [contradiction|].
  inversion Hnd as [|? ? Hnotin Hnd']; subst. simpl.
  destruct (p a) eqn:Ea.
  - assert (a = x) by (apply Huniq; [now left | exact Ea]). subst a.
    f_equal. apply filter_none. intros y Hy.
    destruct (p y) eqn:Ey; [|reflexivity].
    exfalso. apply Hnotin.
    replace x with y; [exact Hy|]. apply Huniq; [now right | exact Ey].
  - destruct Hin as [Hin|Hin]; [subst; congruence|].
    apply IH; auto. intros y Hy. apply Huniq. now right.
Qed.

Lemma NoDup_map_inv_In {A B} (f : A -> B) (l : list A) (x y : A) :
  NoDup (map f l) -> In x l -> In y l -> f x = f y -> x = y.
Proof.
  induction l as [|a l IH]; simpl; intros Hnd Hx Hy E; [contradiction|].
  inversion Hnd as [|? ? Hnotin Hnd']; subst.
  destruct Hx as [Hx|Hx], Hy as [Hy|Hy]; subst; auto.
  - exfalso. apply Hnotin. rewrite E. now apply in_map.
  - exfalso. apply Hnotin. rewrite <- E. now apply in_map.
Qed.

Lemma opt_eqb_some (a : option string) (l : string) :
  opt_eqb a (Some l) = sql_eq a (Some l).
Proof. destruct a; reflexivity. Qed.

Lemma find_role_has_key (company_id : Z) (title l : string) (st : store) :
  find_role company_id title (Some l) st
  = List.find (has_key company_id title (Some l)) (roles st).
Proof.
  unfold find_role, has_key. induction (roles st) as [|r rs IH]; simpl; [reflexivity|].
  rewrite opt_eqb_some, IH. reflexivity.
Qed.

Lemma has_key_inv (company_id : Z) (title : string) (l : string) (r : role) :
  has_key company_id title (Some l) r = true ->
  r_company_id r = company_id /\ r_title r = title /\ r_location r = Some l.
Proof.
  unfold has_key. rewrite !andb_true_iff, Z.eqb_eq, String.eqb_eq.
  intros [[H1 H2] H3]. repeat split; auto.
  destruct (r_location r) as [x|]; simpl in H3; [|discriminate].
  apply String.eqb_eq in H3. now subst.
Qed.

Lemma has_key_intro (r : role) (l : string) :
  r_location r = Some l -> has_key (r_company_id r) (r_title r) (Some l) r = true.
Proof.
  intros E. unfold has_key. rewrite E. simpl.
  now rewrite Z.eqb_refl, !String.eqb_refl.
Qed.

Lemma company_exists_existsb (company_id : Z) (st : store) :
  company_exists company_id st ->
  existsb (fun c => c_id c =? company_id) (companies st) = true.
Proof.
  intros [c [Hin E]]. apply existsb_exists. exists c. split; [exact Hin|].
  now apply Z.eqb_eq.
Qed.

(** One call on a well-formed store, for a key with a location. *)
Lemma upsert_role_once
  (st : store) (now company_id : Z) (title loc : string)
  (url description seniority department : option string) (score : Z)
  (score_breakdown : breakdown_arg) (posted_date : option string) :
  roles_wf st -> company_exists company_id st -> int4 score = true ->
  exists st' r',
    upsert_role now company_id title url (Some loc) description seniority
      department score score_breakdown posted_date st = Ok st'
    /\ roles_wf st' /\ companies st' = companies st
    /\ rows_with_key company_id title (Some loc) st' = [r']
    /\ r_url r' = url /\ r_description r' = description
    /\ r_seniority r' = seniority /\ r_department r' = department
    /\ r_posted_date r' = posted_date /\ r_score r' = score
    /\ r_score_breakdown r' = breakdown_json score_breakdown
    /\ r_last_seen_at r' = now
    /\ match rows_with_key company_id title (Some loc) st with
       | [] => r_status r' = "new"%string /\ r_first_seen_at r' = now
               /\ r_applied_at r' = None
       | r :: _ => r_id r' = r_id r /\ r_status r' = r_status r
                   /\ r_first_seen_at r' = r_first_seen_at r
                   /\ r_applied_at r' = r_applied_at r
       end.
Proof.
  intros (Hnd & Hlt & Huniq) Hex Hint.
  unfold upsert_role. rewrite Hint. simpl negb. cbv iota.
  rewrite find_role_has_key, find_is_first_filtered.
  unfold rows_with_key.
  destruct (filter (has_key company_id title (Some loc)) (roles st)) as [|ex rest] eqn:Ef.
  - (* first observation: INSERT *)
    rewrite (company_exists_existsb _ _ Hex).
    eexists. eexists. split; [reflexivity|].
    simpl roles. simpl companies. simpl next_role_id.
    rewrite filter_app, Ef. simpl.
    unfold has_key at 1. simpl. rewrite Z.eqb_refl, !String.eqb_refl. simpl.
    split; [|repeat split; reflexivity].
    unfold roles_wf. simpl. repeat split.
    + rewrite map_app. simpl. apply NoDup_app; [exact Hnd | repeat constructor; auto |].
      intros a Ha [E|[]]. subst a. apply in_map_iff in Ha.
      destruct Ha as [r [Er Hr]]. rewrite Forall_forall in Hlt.
      specialize (Hlt r Hr). lia.
    + apply Forall_app. split.
      * eapply Forall_impl; [|exact Hlt]. simpl. intros; lia.
      * repeat constructor. simpl. lia.
    + intros r1 r2 H1 H2 Ec Et El.
      apply in_app_or in H1. apply in_app_or in H2.
      assert (Hold : forall r, In r (roles st) ->
                has_key company_id title (Some loc) r = false).
      { intros r Hr. destruct (has_key company_id title (Some loc) r) eqn:E; auto.
        assert (In r (filter (has_key company_id title (Some loc)) (roles st)))
          by (apply filter_In; auto).
        rewrite Ef in H. contradiction. }
      destruct H1 as [H1|[H1|[]]], H2 as [H2|[H2|[]]]; subst; auto.
      * exfalso. simpl in Ec, Et, El. specialize (Hold r1 H1).
        destruct (r_location r1) as [x|] eqn:Ex; simpl in El; [|discriminate].
        apply String.eqb_eq in El. subst x.
        rewrite <- Ec, <- Et in Hold. rewrite (has_key_intro r1 loc Ex) in Hold.
        discriminate.
      * exfalso. simpl in Ec, Et, El. specialize (Hold r2 H2).
        destruct (r_location r2) as [x|] eqn:Ex; simpl in El; [|discriminate].
        apply String.eqb_eq in El. subst x.
        rewrite Ec, Et in Hold. rewrite (has_key_intro r2 loc Ex) in Hold.
        discriminate.
  - (* re-observation: UPDATE *)
    assert (Hin : In ex (roles st) /\ has_key company_id title (Some loc) ex = true).
    { apply filter_In. rewrite Ef. now left. }
    destruct Hin as [Hin Hkey].
    destruct (has_key_inv _ _ _ _ Hkey) as (Kc & Kt & Kl).
    assert (Hone : filter (has_key company_id title (Some loc)) (roles st) = [ex]).
    { apply filter_singleton; auto.
      - eapply NoDup_map_inv. exact Hnd.
      - intros y Hy Hky. destruct (has_key_inv _ _ _ _ Hky) as (Yc & Yt & Yl).
        apply Huniq; auto; try congruence.
        rewrite Yl, Kl. simpl. apply String.eqb_refl. }
    set (upd := fun r : role =>
                  if r_id r =? r_id ex
                  then mkRole (r_id r) (r_company_id r) (r_title r) url
                         (r_location r) description seniority department
                         posted_date score (breakdown_json score_breakdown)
                         (r_status r) (r_first_seen_at r) now (r_applied_at r)
                  else r).
    assert (Hid : forall r, r_id (upd r) = r_id r)
      by (intro r; unfold upd; destruct (r_id r =? r_id ex); reflexivity).
    assert (Hk : forall r, has_key company_id title (Some loc) (upd r)
                           = has_key company_id title (Some loc) r)
      by (intro r; unfold upd; destruct (r_id r =? r_id ex); reflexivity).
    assert (Hkeep : forall r, r_company_id (upd r) = r_company_id r
                              /\ r_title (upd r) = r_title r
                              /\ r_location (upd r) = r_location r)
      by (intro r; unfold upd; destruct (r_id r =? r_id ex); auto).
    eexists. exists (upd ex). split; [reflexivity|].
    simpl roles. simpl companies. simpl next_role_id.
    fold upd. rewrite filter_map_swap.
    rewrite (filter_ext _ _ Hk), Hone. simpl.
    split; [|split; [reflexivity|split; [reflexivity|]]].
    + unfold roles_wf. simpl. fold upd. repeat split.
      * rewrite map_map. rewrite (map_ext _ r_id Hid). exact Hnd.
      * apply Forall_map. eapply Forall_impl; [|exact Hlt].
        simpl. intros r Hr. now rewrite Hid.
      * intros r1 r2 H1 H2 Ec Et El.
        apply in_map_iff in H1. destruct H1 as [a [Ea Ha]].
        apply in_map_iff in H2. destruct H2 as [b [Eb Hb]]. subst r1 r2.
        destruct (Hkeep a) as (A1 & A2 & A3). destruct (Hkeep b) as (B1 & B2 & B3).
        f_equal. apply Huniq; auto; congruence.
    + unfold upd. rewrite Z.eqb_refl. simpl. repeat split; reflexivity.
Qed.

(** X1. Re-observing a role whose key has a location, on a store that
    meets the schema's constraints: one row with that key, carrying the
    second call's descriptive fields and score, the status and the
    [applied_at] and [first_seen_at] stamps the first call left, and the
    second call's time as [last_seen_at]. *)
Lemma upsert_role_twice_merges
  (st : store) (now1 now2 company_id : Z) (title loc : string)
  (url1 description1 seniority1 department1 : option string) (score1 : Z)
  (breakdown1 : breakdown_arg) (posted1 : option string)
  (url2 description2 seniority2 department2 : option string) (score2 : Z)
  (breakdown2 : breakdown_arg) (posted2 : option string) :
  roles_wf st -> company_exists company_id st ->
  int4 score1 = true -> int4 score2 = true ->
  exists st1 st2 r1 r2,
    upsert_role now1 company_id title url1 (Some loc) description1 seniority1
      department1 score1 breakdown1 posted1 st = Ok st1
    /\ upsert_role now2 company_id title url2 (Some loc) description2 seniority2
         department2 score2 breakdown2 posted2 st1 = Ok st2
    /\ rows_with_key company_id title (Some loc) st1 = [r1]
    /\ rows_with_key company_id title (Some loc) st2 = [r2]
    /\ r_url r2 = url2 /\ r_description r2 = description2
    /\ r_seniority r2 = seniority2 /\ r_department r2 = department2
    /\ r_posted_date r2 = posted2 /\ r_score r2 = score2
    /\ r_score_breakdown r2 = breakdown_json breakdown2
    /\ r_status r2 = r_status r1 /\ r_applied_at r2 = r_applied_at r1
    /\ r_first_seen_at r2 = r_first_seen_at r1
    /\ r_last_seen_at r2 = now2.
Proof.
  intros Hwf Hex H1 H2.
  destruct (upsert_role_once st now1 company_id title loc url1 description1
              seniority1 department1 score1 breakdown1 posted1 Hwf Hex H1)
    as (st1 & r1 & E1 & Hwf1 & Hc1 & Hrows1 & _).
  assert (Hex1 : company_exists company_id st1)
    by (unfold company_exists; rewrite Hc1; exact Hex).
  destruct (upsert_role_once st1 now2 company_id title loc url2 description2
              seniority2 department2 score2 breakdown2 posted2 Hwf1 Hex1 H2)
    as (st2 & r2 & E2 & _ & _ & Hrows2 & F1 & F2 & F3 & F4 & F5 & F6 & F7 & F8 & Hold).
  rewrite Hrows1 in Hold. destruct Hold as (_ & G1 & G2 & G3).
  exists st1, st2, r1, r2. repeat split; auto.
Qed.

(** [roles_wf] is an invariant: every accepted upsert keeps it, whatever
    the location. *)
Lemma upsert_role_wf
  (st st' : store) (now company_id : Z) (title : string)
  (url location description seniority department : option string) (score : Z)
  (score_breakdown : breakdown_arg) (posted_date : option string) :
  roles_wf st ->
  upsert_role now company_id title url location description seniority
    department score score_breakdown posted_date st = Ok st' ->
  roles_wf st'.
Proof.
  intros (Hnd & Hlt & Huniq). unfold upsert_role.
  destruct (negb (int4 score)); [discriminate|].
  destruct (find_role company_id title location st) as [ex|] eqn:Ef.
  - intros H. inversion H; subst st'; clear H.
    set (upd := fun r : role =>
                  if r_id r =? r_id ex
                  then mkRole (r_id r) (r_company_id r) (r_title r) url
                         (r_location r) description seniority department
                         posted_date score (breakdown_json score_breakdown)
                         (r_status r) (r_first_seen_at r) now (r_applied_at r)
                  else r).
    assert (Hkeep : forall r, r_id (upd r) = r_id r
                              /\ r_company_id (upd r) = r_company_id r
                              /\ r_title (upd r) = r_title r
                              /\ r_location (upd r) = r_location r)
      by (intro r; unfold upd; destruct (r_id r =? r_id ex); auto).
    unfold roles_wf. simpl. fold upd. repeat split.
    + rewrite map_map. rewrite (map_ext _ r_id (fun r => proj1 (Hkeep r))). exact Hnd.
    + apply Forall_map. eapply Forall_impl; [|exact Hlt].
      simpl. intros r Hr. now rewrite (proj1 (Hkeep r)).
    + intros r1 r2 H1 H2 Ec Et El.
      apply in_map_iff in H1. destruct H1 as [a [Ea Ha]].
      apply in_map_iff in H2. destruct H2 as [b [Eb Hb]]. subst r1 r2.
      destruct (Hkeep a) as (_ & A1 & A2 & A3). destruct (Hkeep b) as (_ & B1 & B2 & B3).
      f_equal. apply Huniq; auto; congruence.
  - destruct (existsb _ (companies st)); [|discriminate].
    intros H. inversion H; subst st'; clear H.
    pose proof (find_none _ _ Ef) as Hnone. simpl in Hnone.
    unfold roles_wf. simpl. repeat split.
    + rewrite map_app. simpl. apply NoDup_app; [exact Hnd | repeat constructor; auto |].
      intros a Ha [E|[]]. subst a. apply in_map_iff in Ha.
      destruct Ha as [r [Er Hr]]. rewrite Forall_forall in Hlt.
      specialize (Hlt r Hr). lia.
    + apply Forall_app. split.
      * eapply Forall_impl; [|exact Hlt]. simpl. intros; lia.
      * repeat constructor. simpl. lia.
    + intros r1 r2 H1 H2 Ec Et El.
      apply in_app_or in H1. apply in_app_or in H2.
      destruct H1 as [H1|[H1|[]]], H2 as [H2|[H2|[]]]; subst; auto.
      * exfalso. simpl in Ec, Et, El. specialize (Hnone r1 H1).
        rewrite Ec, Et, El, Z.eqb_refl, String.eqb_refl in Hnone. discriminate.
      * exfalso. simpl in Ec, Et, El. specialize (Hnone r2 H2).
        rewrite <- Ec, <- Et, Z.eqb_refl, String.eqb_refl in Hnone.
        assert (Hsym : sql_eq (r_location r2) location = true).
        { destruct (r_location r2), location; simpl in *; try discriminate.
          now rewrite String.eqb_sym. }
        rewrite Hsym in Hnone. discriminate.
Qed.

Lemma update_role_wf (role_id : Z) (f : role -> role) (st : store) :
  (forall r, r_id (f r) = r_id r /\ r_company_id (f r) = r_company_id r
             /\ r_title (f r) = r_title r /\ r_location (f r) = r_location r) ->
  roles_wf st -> roles_wf (update_role role_id f st).
Proof.
  intros Hf (Hnd & Hlt & Huniq).
  set (upd := fun r : role => if r_id r =? role_id then f r else r).
  assert (Hkeep : forall r, r_id (upd r) = r_id r
                            /\ r_company_id (upd r) = r_company_id r
                            /\ r_title (upd r) = r_title r
                            /\ r_location (upd r) = r_location r).
  { intro r. unfold upd. destruct (r_id r =? role_id); [apply Hf | auto]. }
  unfold roles_wf, update_role. simpl. fold upd. repeat split.
  - rewrite map_map. rewrite (map_ext _ r_id (fun r => proj1 (Hkeep r))). exact Hnd.
  - apply Forall_map. eapply Forall_impl; [|exact Hlt].
    simpl. intros r Hr. now rewrite (proj1 (Hkeep r)).
  - intros r1 r2 H1 H2 Ec Et El.
    apply in_map_iff in H1. destruct H1 as [a [Ea Ha]].
    apply in_map_iff in H2. destruct H2 as [b [Eb Hb]]. subst r1 r2.
    destruct (Hkeep a) as (_ & A1 & A2 & A3). destruct (Hkeep b) as (_ & B1 & B2 & B3).
    f_equal. apply Huniq; auto; congruence.
Qed.

Lemma roles_wf_empty : roles_wf empty.
Proof.
  unfold roles_wf, empty. simpl. repeat split; try constructor. intros ? ? [].
Qed.

Lemma roles_wf_acme : roles_wf acme_store.
Proof.
  unfold roles_wf. simpl. repeat split; try constructor. intros ? ? [].
Qed.

(** X2. A role marked [applied] and observed again keeps its status and
    its [applied_at] stamp; score, url and [last_seen_at] are refreshed. *)
Lemma applied_survives_reupsert
  (st : store) (r : role) (t now company_id : Z) (title loc : string)
  (url description seniority department : option string) (score : Z)
  (score_breakdown : breakdown_arg) (posted_date : option string) :
  roles_wf st -> company_exists company_id st -> int4 score = true ->
  rows_with_key company_id title (Some loc) st = [r] ->
  exists st' r',
    upsert_role now company_id title url (Some loc) description seniority
      department score score_breakdown posted_date
      (mark_role_applied t (r_id r) st) = Ok st'
    /\ rows_with_key company_id title (Some loc) st' = [r']
    /\ r_id r' = r_id r
    /\ r_status r' = "applied"%string /\ r_applied_at r' = Some t
    /\ r_first_seen_at r' = r_first_seen_at r
    /\ r_score r' = score /\ r_url r' = url /\ r_last_seen_at r' = now.
Proof.
  intros Hwf Hex Hint Hrows.
  set (st1 := mark_role_applied t (r_id r) st).
  assert (Hwf1 : roles_wf st1) by (apply update_role_wf; [intro; simpl; auto | exact Hwf]).
  assert (Hex1 : company_exists company_id st1) by exact Hex.
  assert (Hrows1 : exists r1, rows_with_key company_id title (Some loc) st1 = [r1]
                              /\ r_id r1 = r_id r /\ r_status r1 = "applied"%string
                              /\ r_applied_at r1 = Some t
                              /\ r_first_seen_at r1 = r_first_seen_at r).
  { unfold rows_with_key, st1, mark_role_applied, update_role. simpl.
    rewrite filter_map_swap.
    rewrite (filter_ext _ (has_key company_id title (Some loc)))
      by (intro a; destruct (r_id a =? r_id r); reflexivity).
    unfold rows_with_key in Hrows. rewrite Hrows. simpl. rewrite Z.eqb_refl.
    eexists. split; [reflexivity|]. simpl. auto. }
  destruct Hrows1 as (r1 & Hr1 & I1 & S1 & A1 & F1).
  destruct (upsert_role_once st1 now company_id title loc url description
              seniority department score score_breakdown posted_date
              Hwf1 Hex1 Hint)
    as (st' & r' & E & _ & _ & Hrows' & G1 & _ & _ & _ & _ & G6 & _ & G8 & Hold).
  rewrite Hr1 in Hold. destruct Hold as (K1 & K2 & K3 & K4).
  exists st', r'. repeat split; auto; congruence.
Qed.


Lemma company_exists_acme : company_exists 1 acme_store.
Proof. eexists. split; [left; reflexivity | reflexivity]. Qed.

Lemma upsert_role_twice_merges_witness :
  exists st1 st2 r1 r2,
    upsert_role 1 1 "PM" (Some "u1"%string) (Some "London"%string) None None None 70
      (BDict []) None acme_store = Ok st1
    /\ upsert_role 2 1 "PM" (Some "u2"%string) (Some "London"%string) None None None
         90 BNone (Some "2024-05-01"%string) st1 = Ok st2
    /\ rows_with_key 1 "PM" (Some "London"%string) st1 = [r1]
    /\ rows_with_key 1 "PM" (Some "London"%string) st2 = [r2]
    /\ r_url r2 = Some "u2"%string /\ r_score r2 = 90
    /\ r_status r2 = r_status r1 /\ r_first_seen_at r2 = r_first_seen_at r1
    /\ r_last_seen_at r2 = 2.
Proof.
  destruct (upsert_role_twice_merges acme_store 1 2 1 "PM" "London"
              (Some "u1"%string) None None None 70 (BDict []) None
              (Some "u2"%string) None None None 90 BNone (Some "2024-05-01"%string)
              roles_wf_acme company_exists_acme eq_refl eq_refl)
    as (st1 & st2 & r1 & r2 & E1 & E2 & R1 & R2 & F1 & _ & _ & _ & _ & F6 & _ & F8
        & _ & F10 & F11).
  exists st1, st2, r1, r2. repeat split; assumption.
Defined.

Lemma roles_wf_one_role : roles_wf one_role_store.
Proof.
  unfold roles_wf. simpl. repeat split.
  - repeat constructor. intros [].
  - repeat constructor.
  - intros r1 r2 [<-|[]] [<-|[]] _ _ _. reflexivity.
Qed.

Lemma applied_survives_reupsert_witness :
  rows_with_key 1 "PM" (Some "London"%string) one_role_store = [the_role]
  /\ exists st' r',
       upsert_role 9 1 "PM" (Some "u2"%string) (Some "London"%string) None None None
         40 BNone None (mark_role_applied 5 1 one_role_store) = Ok st'
       /\ rows_with_key 1 "PM" (Some "London"%string) st' = [r']
       /\ r_status r' = "applied"%string /\ r_applied_at r' = Some 5
       /\ r_score r' = 40 /\ r_last_seen_at r' = 9.
Proof.
  assert (Hrows : rows_with_key 1 "PM" (Some "London"%string) one_role_store
                  = [the_role]) by (vm_compute; reflexivity).
  split; [exact Hrows|].
  destruct (applied_survives_reupsert one_role_store the_role 5 9 1 "PM" "London"
              (Some "u2"%string) None None None 40 BNone None
              roles_wf_one_role company_exists_acme eq_refl Hrows)
    as (st' & r' & E & R & _ & S & A & _ & Sc & _ & L).
  exists st', r'. repeat split; assumption.
Defined.


(** C1, at the failing input: the same role, observed twice with no
    location (the search answer carries [null] there).  SQL [=] never holds
    on NULL, so the second call finds no existing row and inserts again:
    the key has two rows and the first keeps its stale fields. *)
Theorem upsert_null_location_duplicates :
  exists st1 st2,
    first_null_upsert = Ok st1 /\ second_null_upsert st1 = Ok st2
    /\ map (fun r => (r_id r, r_url r, r_score r, r_last_seen_at r))
         (rows_with_key 1 "PM" None st2)
       = [(1, Some "u1"%string, 70, 1); (2, Some "u2"%string, 90, 2)].
Proof.
  eexists. eexists. split; [vm_compute; reflexivity|].
  split; vm_compute; reflexivity.
Qed.

End Upsert.

(* ================================================================== *)
(** * The scoring client and the values handed to the store *)
(* ================================================================== *)

Module ScoreFacts.

Import Db Vocab Data Pipeline.
Local Open Scope Z_scope.

(** C3, at the failing input: the answer [{oops}] is not JSON, it has an
    opening and a closing brace, and the text between them is not JSON
    either.  The decoding of the fallback is not guarded (the one in
    scraper.py is), so [score_role] raises [JSONDecodeError] instead of
    returning the zero-score result. *)
Theorem score_role_raises_on_bad_braces :
  Scorer.score_role (scores (T "{oops}")) (JStr "PM") (JStr "") (JStr "London")
    (JStr "") "Acme"
  = Raise JSONDecodeError.
Proof. vm_compute. reflexivity. Qed.

(** Without a brace pair the zero-score result is returned. *)
Lemma parse_response_no_braces (content : text) :
  loads (strip_fence content) = None ->
  Py.find (chr "{") (strip_fence content) = -1 ->
  Scorer.parse_response content = Ok Scorer.parse_failure.
Proof.
  intros H1 H2. unfold Scorer.parse_response. rewrite H1, H2. reflexivity.
Qed.

(** X6. The batch absorbs what scoring a role raises.  It pairs every
    role, in order, with a result: the result [score_role] returned, or,
    when scoring the role raised, a stand-in that is an object with
    [total_score] 0, an empty [breakdown] and the recommendation Error, so
    that the role is scored below the threshold.  Scoring raises, and the
    stand-in is used, for a role that is not an object and for a role for
    which the scoring service raises. *)
Theorem score_roles_batch_absorbs
  (svc : json -> json -> json -> json -> string -> result text)
  (roles : list json) (company_name : string) :
  Forall2
    (fun role p =>
       fst p = role
       /\ match Scorer.score_one svc role company_name with
          | Ok r => snd p = r
          | Raise e =>
              snd p = Scorer.batch_failure e
              /\ Scorer.py_get (snd p) "total_score" (JInt 0) = Ok (JInt 0)
              /\ Scorer.py_get (snd p) "breakdown" (JObj []) = Ok (JObj [])
              /\ Scorer.py_get (snd p) "recommendation" JNull = Ok (JStr "Error")
              /\ (v <- get (snd p) "total_score" (JInt 0) ;; ge_threshold v) = Next false
          end)
    roles (Scorer.score_roles_batch svc roles company_name)
  /\ (forall role, (forall m, role <> JObj m) ->
                   Scorer.score_one svc role company_name = Raise AttributeError)
  /\ (forall m e,
         let field k := match dict_find k m with Some v => v | None => JStr "" end in
         svc (field "title"%string) (field "description"%string)
           (field "location"%string) (field "seniority"%string) company_name
         = Raise e ->
         Scorer.score_one svc (JObj m) company_name = Raise e).
Proof.
  split; [|split].
  - induction roles as [|r rs IH]; cbn [Scorer.score_roles_batch]; constructor; auto.
    cbn [fst snd]. split; [reflexivity|].
    destruct (Scorer.score_one svc r company_name); [reflexivity|].
    repeat split; reflexivity.
  - intros role Hrole. unfold Scorer.score_one.
    destruct role; try reflexivity. exfalso. now apply (Hrole m).
  - intros m e field H. unfold Scorer.score_one, Scorer.score_role.
    cbn [Scorer.py_get]. fold (field "title"%string) (field "description"%string)
      (field "location"%string) (field "seniority"%string).
    now rewrite H.
Qed.

Lemma get_inv (o : json) (key : string) (default v : json) :
  get o key default = Next v ->
  exists m, o = JObj m
            /\ v = match dict_find key m with Some x => x | None => default end.
Proof.
  unfold get, Scorer.py_get. destruct o; simpl; try discriminate.
  intros H. inversion H. eauto.
Qed.

Lemma bind_inv {A B} (m : step A) (k : A -> step B) (b : B) :
  bind m k = Next b -> exists a, m = Next a /\ k a = Next b.
Proof. destruct m; simpl; try discriminate. eauto. Qed.

Ltac unbind H :=
  let a := fresh "v" in
  let E := fresh "E" in
  apply bind_inv in H; destruct H as [a [E H]].

Lemma as_score_inv (v : json) (z : Z) : as_score v = Next z -> v = JInt z.
Proof. destruct v; simpl; try discriminate. now inversion 1. Qed.

Lemma as_text_inv (v : json) (o : option string) :
  as_text v = Next o ->
  match o with Some s => v = JStr s | None => v = JNull end.
Proof.
  destruct v; simpl; try discriminate; try destruct (refusal _); try discriminate;
    now inversion 1.
Qed.

(** What [role_args] hands over. *)
Lemma role_args_inv (company_id : Z) (role score_result total_score posted : json)
      (a : upsert_args) :
  role_args company_id role score_result total_score posted = Next a ->
  a_company_id a = company_id
  /\ total_score = JInt (a_score a)
  /\ match a_posted_date a with Some s => posted = JStr s | None => posted = JNull end.
Proof.
  unfold role_args. intros H.
  do 16 unbind H. inversion H; subst; simpl.
  split; [reflexivity|]. split.
  - now apply as_score_inv.
  - now apply as_text_inv.
Qed.

(** C8, as the code has it.  The score an orchestrator passes to the
    upsert is the integer [total_score] of the score result, 0 when the
    field is missing; it is 0 for both error defaults, and it lies in
    [0, 100] when the scoring service's [total_score] does.  Nothing
    validates or clamps it. *)
Theorem score_passed_is_total_score
  (company_id : Z) (role score_result : json) (q : bool) (a : upsert_args)
  (Hrun : Api.upsert_scored company_id role score_result = Next (q, a)
          \/ Scheduler.upsert_scored company_id role score_result = Next (q, a)) :
  exists m,
    score_result = JObj m
    /\ JInt (a_score a)
       = match dict_find "total_score" m with Some v => v | None => JInt 0 end
    /\ q = (a_score a >=? SCORE_THRESHOLD)
    /\ (score_result = Scorer.parse_failure
        \/ (exists e, score_result = Scorer.batch_failure e) -> a_score a = 0)
    /\ (forall z, dict_find "total_score" m = Some (JInt z) ->
          0 <= z <= 100 -> 0 <= a_score a <= 100).
Proof.
  assert (Hcore : exists total_score posted qualifies,
             get score_result "total_score" (JInt 0) = Next total_score
             /\ ge_threshold total_score = Next qualifies
             /\ role_args company_id role score_result total_score posted = Next a
             /\ q = qualifies).
  { destruct Hrun as [H|H].
    - unfold Api.upsert_scored in H. do 5 unbind H. inversion H; subst. eauto 8.
    - unfold Scheduler.upsert_scored in H. do 3 unbind H. inversion H; subst. eauto 8. }
  destruct Hcore as (ts & posted & qual & Hget & Hge & Hargs & ->).
  destruct (get_inv _ _ _ _ Hget) as (m & -> & Hts).
  destruct (role_args_inv _ _ _ _ _ _ Hargs) as (_ & Ets & _).
  exists m. split; [reflexivity|]. split; [congruence|]. split.
  { rewrite Ets in Hge. simpl in Hge. now inversion Hge. }
  split.
  - intros [Hp|[e He]].
    + inversion Hp; subst m. simpl in Hts. congruence.
    + inversion He; subst m. simpl in Hts. congruence.
  - intros z Hz Hrange. rewrite Hz in Hts. assert (a_score a = z) by congruence. lia.
Qed.

Lemma score_passed_is_total_score_witness :
  exists q a,
    Api.upsert_scored 1 role_with_date result_70 = Next (q, a)
    /\ JInt (a_score a) = JInt 70 /\ q = false.
Proof.
  assert (H : Api.upsert_scored 1 role_with_date result_70
              = Next (false, mkArgs 1 "PM" (Some ""%string) (Some "London"%string)
                               (Some ""%string) (Some ""%string) (Some ""%string)
                               70 (BDict []) (Some "2024-05-01"%string)))
    by (vm_compute; reflexivity).
  eexists. eexists. split; [exact H|].
  destruct (score_passed_is_total_score 1 role_with_date result_70 _ _ (or_introl H))
    as (m & Em & Es & Eq & _).
  inversion Em; subst m. split; [exact Es | exact Eq].
Defined.

(** C8, as stated, fails: a scoring answer with [total_score] 150 is
    stored as it is. *)
Lemma score_150_is_stored :
  exists w',
    Api._run_scrape (answers one_role) (scores (Q "{'total_score': 150}")) refuses
      None acme_world = Done w'
    /\ map r_score (roles (db w')) = [150]
    /\ ~ (forall r, In r (roles (db w')) -> 0 <= r_score r <= 100).
Proof.
  eexists. split; [vm_compute; reflexivity|].
  split; [vm_compute; reflexivity|].
  intros H. specialize (H _ (or_introl eq_refl)). simpl in H. lia.
Qed.

End ScoreFacts.

(* ================================================================== *)
(** * The posted date handed to the store *)
(* ================================================================== *)

Module PostedDate.

Import Db Vocab Data Pipeline ScoreFacts.
Local Open Scope Z_scope.

(** The row an accepted upsert writes carries the call's arguments. *)
Lemma call_upsert_writes (now : Z) (a : upsert_args) (st st' : store) :
  call_upsert now a st = Ok st' ->
  exists r, In r (roles st')
            /\ r_posted_date r = a_posted_date a /\ r_score r = a_score a
            /\ r_url r = a_url a /\ r_last_seen_at r = now.
Proof.
  unfold call_upsert, upsert_role.
  destruct (negb (int4 (a_score a))); [discriminate|].
  destruct (find_role (a_company_id a) (a_title a) (a_location a) st) as [ex|] eqn:Ef.
  - intros H. inversion H; subst; clear H. simpl.
    apply find_some in Ef. destruct Ef as [Hin _].
    eexists. split.
    + apply in_map_iff. exists ex. split; [reflexivity | exact Hin].
    + rewrite Z.eqb_refl. simpl. repeat split; reflexivity.
  - destruct (existsb _ (companies st)); [|discriminate].
    intros H. inversion H; subst; clear H. simpl.
    eexists. split; [apply in_or_app; right; left; reflexivity|].
    simpl. repeat split; reflexivity.
Qed.

Lemma normalize_posted_inv (raw v : json) :
  normalize_posted raw = Next v ->
  exists t, truthy raw = Next t
            /\ v = if t && negb (is_str raw "Not specified") then raw else JNull.
Proof.
  unfold normalize_posted. intros H. unbind H. inversion H; subst. eauto.
Qed.

Lemma is_str_spec (v : json) (s : string) : is_str v s = true <-> v = JStr s.
Proof.
  destruct v; simpl; try (split; [discriminate | discriminate]).
  rewrite String.eqb_eq. split; congruence.
Qed.

(** C6, as the code has it, for the manual run.  The [posted_date] given
    to and stored by the upsert is null exactly when the search result
    has no such field, or a false value there (null, the empty string),
    or the text [Not specified]; otherwise it is the field's text. *)
Theorem manual_run_posted_date
  (company_id : Z) (role score_result : json) (q : bool) (a : upsert_args)
  (Hrun : Api.upsert_scored company_id role score_result = Next (q, a)) :
  exists m,
    role = JObj m
    /\ (a_posted_date a = None
        <-> (dict_find "posted_date" m = None
             \/ (exists v, dict_find "posted_date" m = Some v /\ truthy v = Next false)
             \/ dict_find "posted_date" m = Some (JStr "Not specified")))
    /\ (forall s, a_posted_date a = Some s ->
          dict_find "posted_date" m = Some (JStr s))
    /\ (forall now st st', call_upsert now a st = Ok st' ->
          exists r, In r (roles st') /\ r_last_seen_at r = now
                    /\ r_posted_date r = a_posted_date a).
Proof.
  unfold Api.upsert_scored in Hrun.
  apply bind_inv in Hrun as (ts & Ets & Hrun).
  apply bind_inv in Hrun as (ql & Eql & Hrun).
  apply bind_inv in Hrun as (raw0 & Eraw & Hrun).
  apply bind_inv in Hrun as (pd & Epd & Hrun).
  apply bind_inv in Hrun as (args & Eargs & Hrun).
  inversion Hrun; subst; clear Hrun.
  destruct (get_inv _ _ _ _ Eraw) as (m & -> & Hraw).
  destruct (normalize_posted_inv _ _ Epd) as (t & Ht & Hv).
  destruct (role_args_inv _ _ _ _ _ _ Eargs) as (_ & _ & Hp).
  exists m. split; [reflexivity|].
  assert (Hstored : forall now st st', call_upsert now a st = Ok st' ->
            exists r, In r (roles st') /\ r_last_seen_at r = now
                      /\ r_posted_date r = a_posted_date a).
  { intros now st st' Hc. destruct (call_upsert_writes _ _ _ _ Hc)
      as (r & Hin & Hpd & _ & _ & Hls). eauto. }
  destruct (dict_find "posted_date" m) as [raw|] eqn:Ed.
  - subst raw0.
    destruct (is_str raw "Not specified") eqn:Es.
    + apply is_str_spec in Es. subst raw. rewrite andb_false_r in Hv. subst pd.
      destruct (a_posted_date a); [discriminate|].
      split; [|split; [discriminate | exact Hstored]].
      split; auto.
    + rewrite andb_true_r in Hv. destruct t.
      * subst pd. destruct (a_posted_date a) as [s|] eqn:Ea.
        -- subst raw. split; [|split; [|exact Hstored]].
           ++ split; [discriminate|].
              intros [H|[(v & Hv & Hf)|H]]; try discriminate.
              ** inversion Hv; subst v. rewrite Ht in Hf. discriminate.
              ** inversion H; subst. simpl in Es. discriminate.
           ++ intros s' Hs'. inversion Hs'. reflexivity.
        -- subst raw. simpl in Ht. discriminate.
      * subst pd. destruct (a_posted_date a); [discriminate|].
        split; [|split; [discriminate | exact Hstored]].
        split; auto. intros _. right. left. eauto.
  - subst raw0. simpl in Ht. inversion Ht; subst t. simpl in Hv. subst pd.
    destruct (a_posted_date a); [discriminate|].
    split; [|split; [discriminate | exact Hstored]].
    split; auto.
Qed.

Lemma manual_run_posted_date_witness :
  exists q a,
    Api.upsert_scored 1 role_with_date result_70 = Next (q, a)
    /\ a_posted_date a = Some "2024-05-01"%string
    /\ exists m, role_with_date = JObj m
                 /\ dict_find "posted_date" m = Some (JStr "2024-05-01").
Proof.
  assert (H : Api.upsert_scored 1 role_with_date result_70
              = Next (false, mkArgs 1 "PM" (Some ""%string) (Some "London"%string)
                               (Some ""%string) (Some ""%string) (Some ""%string)
                               70 (BDict []) (Some "2024-05-01"%string)))
    by (vm_compute; reflexivity).
  eexists. eexists. split; [exact H|]. split; [reflexivity|].
  destruct (manual_run_posted_date 1 role_with_date result_70 _ _ H)
    as (m & Em & _ & Hs & _).
  exists m. split; [exact Em|]. apply Hs. reflexivity.
Defined.

(** C6, as stated, fails twice over.  In the manual run an empty
    [posted_date] is present, differs from [Not specified], and is stored
    as null.  In the scheduled run a real date is dropped: the upsert is
    called without [posted_date]. *)
Lemma posted_date_not_as_stated :
  (exists q a, Api.upsert_scored 1 role_without_date result_70 = Next (q, a)
               /\ a_posted_date a = None)
  /\ (exists q a, Scheduler.upsert_scored 1 role_with_date result_70 = Next (q, a)
                  /\ a_posted_date a = None)
  /\ (exists w',
        Scheduler.scheduled_scrape (answers one_role)
          (scores (Q "{'total_score': 70}")) refuses acme_world = Done w'
        /\ map r_posted_date (roles (db w')) = [None]).
Proof.
  split; [|split].
  - eexists. eexists. split; [vm_compute; reflexivity | reflexivity].
  - eexists. eexists. split; [vm_compute; reflexivity | reflexivity].
  - eexists. split; vm_compute; reflexivity.
Qed.

End PostedDate.

(* ================================================================== *)
(** * The manual run *)
(* ================================================================== *)

Module RunFacts.

Import Db Vocab Data Pipeline ScoreFacts.
Local Open Scope Z_scope.

Lemma frame_refl (w : world) : frame w w.
Proof. repeat split. Qed.

Lemma frame_trans (a b c : world) : frame a b -> frame b c -> frame a c.
Proof. unfold frame. intuition congruence. Qed.

Lemma call_upsert_frame (now : Z) (a : upsert_args) (st st' : store) :
  call_upsert now a st = Ok st' ->
  companies st' = companies st /\ scrape_logs st' = scrape_logs st
  /\ next_log_id st' = next_log_id st.
Proof.
  unfold call_upsert, upsert_role.
  destruct (negb (int4 (a_score a))); [discriminate|].
  destruct (find_role _ _ _ st).
  - inversion 1; subst. simpl. auto.
  - destruct (existsb _ (companies st)); [|discriminate].
    inversion 1; subst. simpl. auto.
Qed.

Lemma call_upsert_ok (now : Z) (a : upsert_args) (st : store) :
  int4 (a_score a) = true -> known (a_company_id a) st = true ->
  exists st', call_upsert now a st = Ok st'.
Proof.
  unfold call_upsert, upsert_role, known. intros -> ->. simpl.
  destruct (find_role _ _ _ st); eauto.
Qed.

Lemma api_upsert_scored_company (company_id : Z) (role sr : json) (q : bool)
      (a : upsert_args) :
  Api.upsert_scored company_id role sr = Next (q, a) -> a_company_id a = company_id.
Proof.
  unfold Api.upsert_scored. intros H.
  apply bind_inv in H as (ts & _ & H). apply bind_inv in H as (ql & _ & H).
  apply bind_inv in H as (raw & _ & H). apply bind_inv in H as (pd & _ & H).
  apply bind_inv in H as (args & Ea & H). inversion H; subst.
  now destruct (role_args_inv _ _ _ _ _ _ Ea).
Qed.

Lemma sched_upsert_scored_company (company_id : Z) (role sr : json) (q : bool)
      (a : upsert_args) :
  Scheduler.upsert_scored company_id role sr = Next (q, a) -> a_company_id a = company_id.
Proof.
  unfold Scheduler.upsert_scored. intros H.
  apply bind_inv in H as (ts & _ & H). apply bind_inv in H as (ql & _ & H).
  apply bind_inv in H as (args & Ea & H). inversion H; subst.
  now destruct (role_args_inv _ _ _ _ _ _ Ea).
Qed.

(** Every call of [upsert_role] is for the company at hand. *)
Lemma typed_or_company (company_id : Z) (body : step (bool * upsert_args))
      (otherwise : result (bool * upsert_args)) (q : bool) (a : upsert_args) :
  (forall q' a', body = Next (q', a') -> a_company_id a' = company_id) ->
  typed_or company_id body otherwise = Ok (q, a) -> a_company_id a = company_id.
Proof.
  intros Hbody. unfold typed_or. destruct body as [[q' a']|e|].
  - intros [= <- <-]. eauto.
  - discriminate.
  - destruct otherwise as [[q' a']|e]; [|discriminate]. now intros [= <- <-].
Qed.

Lemma select_companies_incl (ids : option (list Z)) (cs : list company) (c : company) :
  In c (Api.select_companies ids cs) -> In c cs.
Proof.
  unfold Api.select_companies. destruct ids as [[|i ids]|]; auto.
  intros H. now apply filter_In in H.
Qed.

(** The run of the specification's example: three companies, the search
    of the second one fails; whatever is made of untyped values, of which
    there are none. *)
Example three_company_run
  (untyped : Z -> json -> json -> result (bool * upsert_args)) :
  exists w',
    Api._run_scrape beta_down scores_85 untyped None three_world = Done w'
    /\ is_running (status w') = false
    /\ map (fun l => (l_company_id l, l_status l, l_roles_found l,
                      l_roles_qualified l, l_error l))
         (scrape_logs (db w'))
       = [(1, "completed"%string, 1, 1, None);
          (2, "error"%string, 0, 0, Some "503 Server Error"%string);
          (3, "completed"%string, 1, 1, None)].
Proof. eexists. split; [vm_compute; reflexivity|]. split; reflexivity. Qed.

(** C2, at the failing input: three companies, the search of the second
    one raises an exception whose text holds a NUL character.  The
    [except] clause hands that text to [log_scrape], the driver refuses it
    with a [ValueError], and nothing catches that: the run ends there.
    The second company has no log row, the third one is never processed,
    and the run-state flag stays set. *)
Theorem escaping_failure_stops_the_run
  (untyped : Z -> json -> json -> result (bool * upsert_args)) :
  exists w',
    Api._run_scrape beta_down_nul scores_85 untyped None three_world
    = Escaped w' ValueError
    /\ map (fun l => (l_company_id l, l_status l)) (scrape_logs (db w'))
       = [(1, "completed"%string)]
    /\ is_running (status w') = true
    /\ forall company_id, Api.trigger_scrape company_id w' = Api.Conflict409.
Proof.
  eexists. split; [vm_compute; reflexivity|].
  split; [reflexivity|]. split; reflexivity.
Qed.

End RunFacts.

(* ================================================================== *)
(** * The scheduled run and the run-state flag *)
(* ================================================================== *)

Module SchedFacts.

Import Db Vocab Data Pipeline ScoreFacts RunFacts.
Local Open Scope Z_scope.

Section Run.
Variable search_service : string -> string -> result text.
Variable scoring_service : json -> json -> json -> json -> string -> result text.
Variable untyped : Z -> json -> json -> result (bool * upsert_args).

Lemma sched_upsert_all_frame (company_id : Z) (scored : list (json * json)) :
  forall (n : Z) (w : world),
    match Scheduler.upsert_all untyped company_id scored n w with
    | Completed w' _ => frame w w'
    | Failed w' _ => frame w w'
    end.
Proof.
  induction scored as [|[role sr] rest IH]; intros n w; simpl.
  - apply frame_refl.
  - destruct (Scheduler.iteration untyped company_id role sr) as [[q a]|e].
    + destruct (call_upsert (clock w) a (db w)) as [st|e] eqn:Ec.
      * destruct (call_upsert_frame _ _ _ _ Ec) as (F1 & F2 & F3).
        specialize (IH (if q then n + 1 else n) (with_db st w)).
        destruct (Scheduler.upsert_all untyped company_id rest _ (with_db st w)); auto;
          (eapply frame_trans; [|exact IH]); repeat split; assumption.
      * apply frame_refl.
    + apply frame_refl.
Qed.

Lemma log_failure_status (company_id : Z) (e : exn) (w : world) :
  status (world_of (log_failure company_id e w)) = status w.
Proof. unfold log_failure. destruct (refusal (str_exn e)); reflexivity. Qed.

(** No step of the scheduled run touches [_scrape_status]. *)
Lemma sched_scrape_one_status (c : company) (w : world) :
  status (world_of (Scheduler.scrape_one search_service scoring_service untyped c w))
  = status w.
Proof.
  unfold Scheduler.scrape_one, Scheduler.try_company, Scraper.scrape_company_roles.
  destruct (search_service (c_name c) (c_careers_url c)) as [content|e].
  - pose proof (sched_upsert_all_frame (c_id c)
                  (Scorer.score_roles_batch scoring_service
                     (Scraper.parse_response content) (c_name c)) 0 w) as H.
    destruct (Scheduler.upsert_all _ _ _ 0 w) as [w3 k|w3 e].
    + simpl. apply H.
    + rewrite log_failure_status. apply H.
  - apply log_failure_status.
Qed.

(** X7. However far a scheduled run has got, and whether or not an
    exception escaped it, the scrape status is what it was at the start:
    an idle flag is still idle and a manual trigger is let through. *)
Lemma scheduled_run_keeps_flag (cs : list company) :
  forall w : world,
    status (world_of (Scheduler.for_companies search_service scoring_service
                        untyped cs w))
    = status w
    /\ (is_running (status w) = false ->
        forall company_id,
          Api.trigger_scrape company_id
            (world_of (Scheduler.for_companies search_service scoring_service
                         untyped cs w))
          <> Api.Conflict409).
Proof.
  assert (St : forall w,
             status (world_of (Scheduler.for_companies search_service scoring_service
                                 untyped cs w)) = status w).
  { induction cs as [|c rest IH]; intros w; simpl; [reflexivity|].
    pose proof (sched_scrape_one_status c w) as S1.
    destruct (Scheduler.scrape_one search_service scoring_service untyped c w)
      as [w1|w1 e]; simpl in *; [|exact S1].
    now rewrite IH. }
  intros w. split; [apply St|].
  intros Hidle cid. unfold Api.trigger_scrape. rewrite St, Hidle. discriminate.
Qed.

End Run.

Lemma scheduled_run_keeps_flag_witness :
  status (world_of (Scheduler.scheduled_scrape beta_down scores_85 refuses three_world))
  = status three_world
  /\ Api.trigger_scrape None
       (world_of (Scheduler.scheduled_scrape beta_down scores_85 refuses three_world))
     <> Api.Conflict409.
Proof.
  destruct (scheduled_run_keeps_flag beta_down scores_85 refuses
              (get_active_companies (db three_world)) three_world) as [Hstatus Htrigger].
  split; [exact Hstatus | apply Htrigger; reflexivity].
Defined.

(** C4, at the failing input: the scheduler fires on an idle process and
    has handled the first of three companies when a manual trigger
    arrives.  The flag is clear, the trigger is accepted, and the two
    runs overlap: the log holds the scheduled run's row for company 1,
    then the whole manual run, which by then reads the companies as 2, 3,
    1, then the scheduled run's remaining rows. *)
Theorem manual_trigger_accepted_during_scheduled_run :
  exists w1,
    Scheduler.scrape_one beta_down scores_85 refuses acme three_world = Done w1
    /\ is_running (status w1) = false
    /\ Api.trigger_scrape None w1 = Api.Started None
    /\ fst overlapped = Api.Started None
    /\ map l_company_id (scrape_logs (db (snd overlapped))) = [1; 2; 3; 1; 2; 3].
Proof.
  eexists. split; [vm_compute; reflexivity|].
  split; [reflexivity|]. split; [reflexivity|]. split; vm_compute; reflexivity.
Qed.

End SchedFacts.

(* ================================================================== *)
(** * The decoder reads only what it consumes *)
(* ================================================================== *)

Module JsonFacts.

Import Lex.
Local Open Scope list_scope.

(** ** Characters *)

Lemma is_char_eq (s : string) (c : ascii) : is_char s c = true -> c = chr s.
Proof. unfold is_char. apply Ascii.eqb_eq. Qed.

Lemma is_quote_eq (c : ascii) : is_quote c = true -> c = quote.
Proof. unfold is_quote. apply Ascii.eqb_eq. Qed.

Lemma code_eq (c : ascii) (n : N) : (Py.code c =? n)%N = true -> c = ascii_of_N n.
Proof.
  intros H. apply N.eqb_eq in H. unfold Py.code in H.
  rewrite <- H. symmetry. apply ascii_N_embedding.
Qed.

Lemma is_ws_isspace (c : ascii) : is_ws c = true -> Py.isspace c = true.
Proof.
  unfold is_ws, Py.isspace. set (n := Py.code c).
  rewrite !orb_true_iff, !andb_true_iff, !N.eqb_eq, !N.leb_le. lia.
Qed.

Lemma is_digit_nospace (c : ascii) : is_digit c = true -> Py.isspace c = false.
Proof.
  unfold is_digit, Py.isspace. set (n := Py.code c).
  rewrite andb_true_iff, !N.leb_le. intros H.
  apply not_true_iff_false. rewrite !orb_true_iff, !andb_true_iff, !N.leb_le. lia.
Qed.

Lemma is_digit_differs (a d : ascii) :
  is_digit a = false -> is_digit d = true -> Ascii.eqb a d = false.
Proof.
  intros Ha Hd. destruct (Ascii.eqb_spec a d) as [E|]; [|reflexivity].
  subst. congruence.
Qed.

Lemma is_ws_stop (x : ascii) (r : text) : is_ws x = true -> stop (x :: r) = true.
Proof.
  unfold stop, is_ws, is_digit, is_char. set (n := Py.code x). intros H.
  apply negb_true_iff. apply not_true_iff_false. intros G.
  rewrite !orb_true_iff, andb_true_iff, !N.leb_le in G.
  rewrite !orb_true_iff, !N.eqb_eq in H.
  destruct G as [[[G|G]|G]|G].
  - lia.
  - apply Ascii.eqb_eq in G. subst x. vm_compute in n. subst n. lia.
  - apply Ascii.eqb_eq in G. subst x. vm_compute in n. subst n. lia.
  - apply Ascii.eqb_eq in G. subst x. vm_compute in n. subst n. lia.
Qed.

(** ** White space *)

Lemma skip_ws_split (s : text) :
  exists ws, s = ws ++ skip_ws s /\ forallb is_ws ws = true.
Proof.
  induction s as [|c s [ws [E F]]]; simpl.
  - exists []. auto.
  - destruct (is_ws c) eqn:Ec.
    + exists (c :: ws). simpl. rewrite Ec, F. split; [now f_equal | reflexivity].
    + exists []. auto.
Qed.

Lemma skip_ws_app (ws s : text) :
  forallb is_ws ws = true -> skip_ws (ws ++ s) = skip_ws s.
Proof.
  induction ws as [|c ws IH]; simpl; [reflexivity|].
  intros H. apply andb_true_iff in H. destruct H as [-> H]. now apply IH.
Qed.

Lemma skip_ws_head (s : text) (x : ascii) (r : text) :
  skip_ws s = x :: r -> is_ws x = false.
Proof.
  induction s as [|c s IH]; simpl; [discriminate|].
  destruct (is_ws c) eqn:Ec; [exact IH|]. intros H. inversion H; subst. exact Ec.
Qed.

Lemma skip_ws_stays (x : ascii) (r : text) : is_ws x = false -> skip_ws (x :: r) = x :: r.
Proof. intros H. simpl. now rewrite H. Qed.

Lemma all_ws_isspace (ws : text) :
  forallb is_ws ws = true -> forallb Py.isspace ws = true.
Proof.
  induction ws as [|c ws IH]; simpl; [reflexivity|].
  intros H. apply andb_true_iff in H. destruct H as [H1 H2].
  now rewrite (is_ws_isspace _ H1), IH.
Qed.

(** ** Prefixes *)

Lemma strip_prefix_inv (p s r : text) : strip_prefix p s = Some r -> s = p ++ r.
Proof.
  revert s. induction p as [|a p IH]; intros s; simpl.
  - now inversion 1.
  - destruct s as [|b s]; [discriminate|].
    destruct (Ascii.eqb_spec a b) as [->|]; [|discriminate].
    intros H. f_equal. now apply IH.
Qed.

(** ** Digits *)

Lemma span_digits_inv (s ds r : text) :
  span_digits s = (ds, r) -> s = ds ++ r /\ forallb is_digit ds = true.
Proof.
  revert ds r. induction s as [|c s IH]; intros ds r; simpl.
  - inversion 1. auto.
  - destruct (is_digit c) eqn:Ec.
    + destruct (span_digits s) as [ds' r'] eqn:E. inversion 1; subst.
      destruct (IH ds' r eq_refl) as [-> F]. simpl. now rewrite Ec, F.
    + inversion 1. auto.
Qed.

Lemma span_digits_app (ds r : text) :
  forallb is_digit ds = true -> no_digit_next r = true ->
  span_digits (ds ++ r) = (ds, r).
Proof.
  intros Hds Hr. induction ds as [|c ds IH]; simpl.
  - destruct r as [|x r]; [reflexivity|]. simpl in Hr.
    apply negb_true_iff in Hr. simpl. now rewrite Hr.
  - simpl in Hds. apply andb_true_iff in Hds. destruct Hds as [-> Hds].
    now rewrite (IH Hds).
Qed.

Lemma ends_digit_all (d : ascii) (ds : text) :
  is_digit d = true -> forallb is_digit ds = true -> ends_digit (d :: ds).
Proof.
  revert d. induction ds as [|x ds IH]; intros d Hd Hds.
  - exists [], d. auto.
  - simpl in Hds. apply andb_true_iff in Hds. destruct Hds as [Hx Hds].
    destruct (IH x Hx Hds) as (c' & a & E & Ha).
    exists (d :: c'), a. split; [simpl; now rewrite E | exact Ha].
Qed.

Lemma ends_digit_app_r (a b : text) : ends_digit b -> ends_digit (a ++ b).
Proof.
  intros (c' & x & -> & Hx). exists (a ++ c'), x. now rewrite app_assoc.
Qed.

Lemma ends_digit_ok (c : text) : ends_digit c -> ends_ok c.
Proof.
  intros (c' & a & E & Ha). exists c', a. split; [exact E|].
  now apply is_digit_nospace.
Qed.

(** ** Numbers *)

Lemma zero_is_digit (d : ascii) : is_char "0" d = true -> is_digit d = true.
Proof. intros H. apply is_char_eq in H. subst. reflexivity. Qed.

Lemma scan_int_inv (s ip r : text) :
  scan_int s = Some (ip, r) ->
  s = ip ++ r /\ ends_digit ip
  /\ (exists d t, ip = d :: t /\ is_digit d = true)
  /\ forall r', no_digit_next r' = true -> scan_int (ip ++ r') = Some (ip, r').
Proof.
  destruct s as [|d s]; simpl; [discriminate|].
  destruct (is_char "0" d) eqn:E0.
  - inversion 1; subst. pose proof (zero_is_digit _ E0) as Hd.
    split; [reflexivity|]. split; [now apply ends_digit_all|].
    split; [eauto|]. intros r' _. simpl. now rewrite E0.
  - destruct (is_digit d) eqn:Ed; [|discriminate].
    destruct (span_digits s) as [ds r0] eqn:Es. inversion 1; subst.
    destruct (span_digits_inv _ _ _ Es) as [-> Hds].
    split; [reflexivity|]. split; [now apply ends_digit_all|].
    split; [eauto|]. intros r' Hr'. simpl.
    now rewrite E0, Ed, (span_digits_app _ _ Hds Hr').
Qed.

Lemma scan_frac_inv (s fp r : text) :
  scan_frac s = (fp, r) ->
  s = fp ++ r
  /\ (fp = []
      \/ (ends_digit fp
          /\ (exists d t, fp = d :: t /\ is_char "." d = true)
          /\ forall r', no_digit_next r' = true -> scan_frac (fp ++ r') = (fp, r'))).
Proof.
  unfold scan_frac. destruct s as [|d [|c s]]; try solve [inversion 1; auto].
  destruct (is_char "." d && is_digit c) eqn:E; [|inversion 1; auto].
  apply andb_true_iff in E. destruct E as [Ed Ec].
  destruct (span_digits s) as [fs r0] eqn:Es. inversion 1; subst.
  destruct (span_digits_inv _ _ _ Es) as [-> Hfs].
  split; [reflexivity|]. right. split.
  - apply (ends_digit_app_r [d]). now apply ends_digit_all.
  - split; [eauto|]. intros r' Hr'. simpl.
    now rewrite Ed, Ec, (span_digits_app _ _ Hfs Hr').
Qed.

Lemma scan_frac_skip (r : text) :
  (forall x t, r = x :: t -> is_char "." x = false) -> scan_frac r = ([], r).
Proof.
  intros H. unfold scan_frac. destruct r as [|d [|c r]]; try reflexivity.
  now rewrite (H d (c :: r) eq_refl).
Qed.

Lemma scan_exp_inv (s ep r : text) :
  scan_exp s = (ep, r) ->
  s = ep ++ r
  /\ (ep = []
      \/ (ends_digit ep
          /\ (exists e t, ep = e :: t /\ (is_char "e" e || is_char "E" e) = true)
          /\ forall r', no_digit_next r' = true -> scan_exp (ep ++ r') = (ep, r'))).
Proof.
  unfold scan_exp. destruct s as [|e s]; [inversion 1; auto|].
  destruct (is_char "e" e || is_char "E" e) eqn:Ee; [|inversion 1; auto].
  destruct s as [|c s]; [inversion 1; auto|].
  destruct (is_digit c) eqn:Ec.
  - destruct (span_digits s) as [ds r0] eqn:Es. inversion 1; subst.
    destruct (span_digits_inv _ _ _ Es) as [-> Hds].
    split; [reflexivity|]. right. split.
    + apply (ends_digit_app_r [e]). now apply ends_digit_all.
    + split; [eauto|]. intros r' Hr'. simpl.
      now rewrite Ee, Ec, (span_digits_app _ _ Hds Hr').
  - destruct (is_char "+" c || is_char "-" c) eqn:Esg; [|inversion 1; auto].
    destruct s as [|c1 s]; [inversion 1; auto|].
    destruct (is_digit c1) eqn:E1; [|inversion 1; auto].
    destruct (span_digits s) as [ds r0] eqn:Es. inversion 1; subst.
    destruct (span_digits_inv _ _ _ Es) as [-> Hds].
    split; [reflexivity|]. right. split.
    + apply (ends_digit_app_r [e; c]). now apply ends_digit_all.
    + split; [eauto|]. intros r' Hr'. simpl.
      now rewrite Ee, Ec, Esg, E1, (span_digits_app _ _ Hds Hr').
Qed.

Lemma scan_exp_skip (r : text) :
  (forall x t, r = x :: t -> (is_char "e" x || is_char "E" x) = false) ->
  scan_exp r = ([], r).
Proof.
  intros H. unfold scan_exp. destruct r as [|e r]; [reflexivity|].
  now rewrite (H e r eq_refl).
Qed.

Lemma stop_no_digit (r : text) : stop r = true -> no_digit_next r = true.
Proof.
  destruct r as [|x r]; simpl; [reflexivity|].
  rewrite !negb_true_iff, !orb_false_iff. tauto.
Qed.

Lemma stop_no_dot (r : text) (x : ascii) (t : text) :
  stop r = true -> r = x :: t -> is_char "." x = false.
Proof.
  intros H ->. simpl in H. rewrite negb_true_iff, !orb_false_iff in H. tauto.
Qed.

Lemma stop_no_exp (r : text) (x : ascii) (t : text) :
  stop r = true -> r = x :: t -> (is_char "e" x || is_char "E" x) = false.
Proof.
  intros H ->. simpl in H. rewrite negb_true_iff, !orb_false_iff in H.
  apply orb_false_iff. tauto.
Qed.

Lemma dot_no_digit (d : ascii) (t : text) :
  is_char "." d = true -> no_digit_next (d :: t) = true.
Proof. intros H. apply is_char_eq in H. subst. reflexivity. Qed.

Lemma exp_no_digit (e : ascii) (t : text) :
  (is_char "e" e || is_char "E" e) = true -> no_digit_next (e :: t) = true.
Proof.
  intros H. apply orb_true_iff in H.
  destruct H as [H|H]; apply is_char_eq in H; subst; reflexivity.
Qed.

Lemma exp_no_dot (e : ascii) :
  (is_char "e" e || is_char "E" e) = true -> is_char "." e = false.
Proof.
  intros H. apply orb_true_iff in H.
  destruct H as [H|H]; apply is_char_eq in H; subst; reflexivity.
Qed.

(** The three parts of a number are read again, whatever follows, as long
    as what follows does not continue the number. *)
Lemma scan_number_again (ip fp ep r1 r2 r3 : text) :
  scan_frac r1 = (fp, r2) -> scan_exp r2 = (ep, r3) ->
  (forall r', no_digit_next r' = true -> scan_int (ip ++ r') = Some (ip, r')) ->
  forall r', stop r' = true ->
    scan_int (ip ++ fp ++ ep ++ r') = Some (ip, fp ++ ep ++ r')
    /\ scan_frac (fp ++ ep ++ r') = (fp, ep ++ r')
    /\ scan_exp (ep ++ r') = (ep, r').
Proof.
  intros Hf He Hint r' Hstop.
  destruct (scan_frac_inv _ _ _ Hf) as [_ Hfp].
  destruct (scan_exp_inv _ _ _ He) as [_ Hep].
  pose proof (stop_no_digit _ Hstop) as Hnd.
  assert (Hexp : scan_exp (ep ++ r') = (ep, r')).
  { destruct Hep as [->|(_ & _ & Happ)]; [|now apply Happ].
    simpl. apply scan_exp_skip. intros x t. now apply stop_no_exp. }
  assert (Hnd_e : no_digit_next (ep ++ r') = true).
  { destruct Hep as [->|(_ & (e & t & -> & Hee) & _)]; [exact Hnd|].
    simpl. now apply (exp_no_digit e (t ++ r')). }
  assert (Hfrac : scan_frac (fp ++ ep ++ r') = (fp, ep ++ r')).
  { destruct Hfp as [->|(_ & _ & Happ)]; [|now apply Happ].
    simpl. apply scan_frac_skip. intros x t E.
    destruct Hep as [->|(_ & (e & t' & -> & Hee) & _)].
    - simpl in E. now apply (stop_no_dot r' x t).
    - simpl in E. inversion E; subst. now apply exp_no_dot. }
  assert (Hnd_f : no_digit_next (fp ++ ep ++ r') = true).
  { destruct Hfp as [->|(_ & (d & t & -> & Hd) & _)]; [exact Hnd_e|].
    simpl. now apply (dot_no_digit d (t ++ ep ++ r')). }
  split; [now apply Hint|]. split; assumption.
Qed.

Lemma parse_number_local (s : text) (v : json) (r : text) :
  parse_number s = POk v r ->
  exists c, s = c ++ r /\ ends_ok c
            /\ (exists d t, c = d :: t /\ (is_char "-" d || is_digit d) = true)
            /\ (forall d t, c = d :: t -> is_char "-" d = true ->
                  exists d' t', t = d' :: t' /\ is_digit d' = true)
            /\ forall r', stop r' = true -> parse_number (c ++ r') = POk v r'.
Proof.
  unfold parse_number.
  assert (Hbody : forall (neg : bool) (s1 : text),
    match scan_int s1 with
    | None => PErr
    | Some (ip, r1) =>
        let (fp, r2) := scan_frac r1 in
        let (ep, r3) := scan_exp r2 in
        match fp, ep with
        | [], [] => POk (JInt (if neg then - digits_val ip else digits_val ip)%Z) r3
        | _, _ =>
            POk (JFloat (S_ ((if neg then [chr "-"] else []) ++ ip ++ fp ++ ep))) r3
        end
    end = POk v r ->
    exists c, s1 = c ++ r /\ ends_digit c
      /\ (exists d t, c = d :: t /\ is_digit d = true)
      /\ forall r', stop r' = true ->
           match scan_int (c ++ r') with
           | None => PErr
           | Some (ip, r1) =>
               let (fp, r2) := scan_frac r1 in
               let (ep, r3) := scan_exp r2 in
               match fp, ep with
               | [], [] =>
                   POk (JInt (if neg then - digits_val ip else digits_val ip)%Z) r3
               | _, _ =>
                   POk (JFloat (S_ ((if neg then [chr "-"] else []) ++ ip ++ fp ++ ep)))
                     r3
               end
           end = POk v r').
  { intros neg s1 H.
    destruct (scan_int s1) as [[ip r1]|] eqn:Ei; [|discriminate].
    destruct (scan_frac r1) as [fp r2] eqn:Ef.
    destruct (scan_exp r2) as [ep r3] eqn:Ee.
    destruct (scan_int_inv _ _ _ Ei) as (E1 & Hend_i & Hhead & Hint).
    destruct (scan_frac_inv _ _ _ Ef) as (E2 & Hfp).
    destruct (scan_exp_inv _ _ _ Ee) as (E3 & Hep).
    assert (Hr : r3 = r) by (destruct fp, ep; inversion H; reflexivity).
    subst r3.
    exists (ip ++ fp ++ ep). split; [subst; now rewrite <- !app_assoc|].
    split.
    { destruct Hep as [->|(Hd & _)].
      - rewrite app_nil_r. destruct Hfp as [->|(Hd & _)].
        + now rewrite app_nil_r.
        + now apply ends_digit_app_r.
      - rewrite app_assoc. now apply ends_digit_app_r. }
    split.
    { destruct Hhead as (d & t & -> & Hd). simpl. eauto. }
    intros r' Hstop.
    destruct (scan_number_again ip fp ep r1 r2 r Ef Ee Hint r' Hstop)
      as (G1 & G2 & G3).
    rewrite <- !app_assoc, G1, G2, G3.
    destruct fp, ep; inversion H; reflexivity. }
  destruct s as [|c0 s0].
  - simpl. discriminate.
  - destruct (is_char "-" c0) eqn:Eminus.
    + intros H. destruct (Hbody true s0 H) as (c & E & Hend & (d & t & Ec & Hd) & Hloc).
      exists (c0 :: c). split; [now rewrite E|].
      split; [apply ends_digit_ok; now apply (ends_digit_app_r [c0])|].
      split; [exists c0, c; now rewrite Eminus|].
      split; [intros d' t' Ed' _; inversion Ed'; subst; eauto|].
      intros r' Hstop. simpl. rewrite Eminus. now apply Hloc.
    + intros H. destruct (Hbody false (c0 :: s0) H)
        as (c & E & Hend & (d & t & Ec & Hd) & Hloc).
      exists c. split; [exact E|]. split; [now apply ends_digit_ok|].
      split; [exists d, t; now rewrite Hd, orb_true_r|].
      split.
      { intros d' t' Ed' Hm. exfalso. rewrite Ec in Ed'. inversion Ed'; subst d' t'.
        rewrite Ec in E. inversion E; subst. congruence. }
      intros r' Hstop. specialize (Hloc r' Hstop).
      rewrite Ec in *. simpl app. inversion E; subst c0. rewrite Eminus.
      exact Hloc.
Qed.

(** ** Strings *)

Lemma ends_ok_app_r (a b : text) : ends_ok b -> ends_ok (a ++ b).
Proof.
  intros (c' & x & -> & Hx). exists (a ++ c'), x. now rewrite app_assoc.
Qed.

Lemma scan_string_local :
  forall (n : nat) (s : text), List.length s <= n ->
  forall (acc us : list unit_) (r : text),
    scan_string s acc = Some (us, r) ->
    exists c, s = c ++ r /\ ends_ok c
              /\ forall r', scan_string (c ++ r') acc = Some (us, r').
Proof.
  induction n as [|n IH]; intros s Hlen acc us r H.
  - destruct s; [discriminate | simpl in Hlen; lia].
  - destruct s as [|c0 s0]; [discriminate|].
    cbn [scan_string] in H. simpl in Hlen.
    destruct (Py.code c0 =? 34)%N eqn:E34.
    { inversion H; subst. exists [c0]. split; [reflexivity|]. split.
      - exists [], c0. split; [reflexivity|].
        apply code_eq in E34. subst c0. reflexivity.
      - intros r'. cbn [scan_string app]. now rewrite E34. }
    destruct (Py.code c0 =? 92)%N eqn:E92.
    { destruct s0 as [|e r1]; [discriminate|].
      destruct (Py.code e =? 117)%N eqn:E117.
      - destruct r1 as [|h1 [|h2 [|h3 [|h4 r2]]]]; try discriminate.
        destruct (hex4 h1 h2 h3 h4) as [u|] eqn:Eh; [|discriminate].
        destruct (IH r2 ltac:(simpl in Hlen; lia) _ _ _ H) as (c & E & Hend & Hloc).
        exists (c0 :: e :: h1 :: h2 :: h3 :: h4 :: c). split; [now rewrite E|].
        split; [now apply (ends_ok_app_r [c0; e; h1; h2; h3; h4])|].
        intros r'. cbn [scan_string app]. rewrite E34, E92, E117, Eh. apply Hloc.
      - destruct (simple_escape e) as [x|] eqn:Ex; [|discriminate].
        destruct (IH r1 ltac:(simpl in Hlen; lia) _ _ _ H) as (c & E & Hend & Hloc).
        exists (c0 :: e :: c). split; [now rewrite E|].
        split; [now apply (ends_ok_app_r [c0; e])|].
        intros r'. cbn [scan_string app]. rewrite E34, E92, E117, Ex. apply Hloc. }
    destruct (Py.code c0 <? 32)%N eqn:E32; [discriminate|].
    destruct (IH s0 ltac:(lia) _ _ _ H) as (c & E & Hend & Hloc).
    exists (c0 :: c). split; [now rewrite E|].
    split; [now apply (ends_ok_app_r [c0])|].
    intros r'. cbn [scan_string app]. rewrite E34, E92, E32. apply Hloc.
Qed.

Lemma parse_string_local (s : text) (x : string) (r : text) :
  parse_string s = Some (x, r) ->
  exists c, s = c ++ r /\ ends_ok c
            /\ forall r', parse_string (c ++ r') = Some (x, r').
Proof.
  unfold parse_string.
  destruct (scan_string s []) as [[us r0]|] eqn:E; [|discriminate].
  inversion 1; subst.
  destruct (scan_string_local (List.length s) s (le_n _) _ _ _ E) as (c & Ec & Hend & Hloc).
  exists c. split; [exact Ec|]. split; [exact Hend|].
  intros r'. now rewrite Hloc.
Qed.

(** ** Literals *)

Lemma strip_prefix_digit (p : text) (d : ascii) (t : text) :
  is_digit d = true -> no_digit_next p = true -> p <> [] ->
  strip_prefix p (d :: t) = None.
Proof.
  intros Hd Hp Hne. destruct p as [|a p]; [contradiction|]. simpl.
  simpl in Hp. apply negb_true_iff in Hp.
  now rewrite (is_digit_differs a d Hp Hd).
Qed.

Lemma parse_scalar_local (s : text) (v : json) (r : text) :
  parse_scalar s = POk v r ->
  exists c, s = c ++ r /\ ends_ok c
            /\ forall r', stop r' = true -> parse_scalar (c ++ r') = POk v r'.
Proof.
  unfold parse_scalar.
  destruct (strip_prefix (T "null") s) as [r0|] eqn:E1.
  { inversion 1; subst. apply strip_prefix_inv in E1. exists (T "null").
    split; [exact E1|]. split; [exists (T "nul"), (chr "l"); split; reflexivity|].
    intros r' _. reflexivity. }
  destruct (strip_prefix (T "true") s) as [r0|] eqn:E2.
  { inversion 1; subst. apply strip_prefix_inv in E2. exists (T "true").
    split; [exact E2|]. split; [exists (T "tru"), (chr "e"); split; reflexivity|].
    intros r' _. reflexivity. }
  destruct (strip_prefix (T "false") s) as [r0|] eqn:E3.
  { inversion 1; subst. apply strip_prefix_inv in E3. exists (T "false").
    split; [exact E3|]. split; [exists (T "fals"), (chr "e"); split; reflexivity|].
    intros r' _. reflexivity. }
  destruct (strip_prefix (T "NaN") s) as [r0|] eqn:E4.
  { inversion 1; subst. apply strip_prefix_inv in E4. exists (T "NaN").
    split; [exact E4|]. split; [exists (T "Na"), (chr "N"); split; reflexivity|].
    intros r' _. reflexivity. }
  destruct (strip_prefix (T "Infinity") s) as [r0|] eqn:E5.
  { inversion 1; subst. apply strip_prefix_inv in E5. exists (T "Infinity").
    split; [exact E5|]. split; [exists (T "Infinit"), (chr "y"); split; reflexivity|].
    intros r' _. reflexivity. }
  destruct (strip_prefix (T "-Infinity") s) as [r0|] eqn:E6.
  { inversion 1; subst. apply strip_prefix_inv in E6. exists (T "-Infinity").
    split; [exact E6|]. split; [exists (T "-Infinit"), (chr "y"); split; reflexivity|].
    intros r' _. reflexivity. }
  intros H.
  destruct (parse_number_local _ _ _ H) as (c & E & Hend & (d & t & Ec & Hd) & Hminus & Hloc).
  exists c. split; [exact E|]. split; [exact Hend|].
  intros r' Hstop. rewrite <- (Hloc r' Hstop). subst c.
  destruct (is_char "-" d) eqn:Em.
  - destruct (Hminus d t eq_refl Em) as (d' & t' & -> & Hd').
    apply is_char_eq in Em. subst d. cbn [app].
    change (strip_prefix (T "null") (chr "-" :: d' :: t' ++ r')) with (@None text).
    change (strip_prefix (T "true") (chr "-" :: d' :: t' ++ r')) with (@None text).
    change (strip_prefix (T "false") (chr "-" :: d' :: t' ++ r')) with (@None text).
    change (strip_prefix (T "NaN") (chr "-" :: d' :: t' ++ r')) with (@None text).
    change (strip_prefix (T "Infinity") (chr "-" :: d' :: t' ++ r')) with (@None text).
    change (strip_prefix (T "-Infinity") (chr "-" :: d' :: t' ++ r'))
      with (strip_prefix (T "Infinity") (d' :: t' ++ r')).
    rewrite (strip_prefix_digit (T "Infinity") d' (t' ++ r') Hd' eq_refl
               ltac:(intro X; vm_compute in X; discriminate X)).
    reflexivity.
  - simpl in Hd. cbn [app].
    rewrite (strip_prefix_digit (T "null") d (t ++ r') Hd eq_refl
               ltac:(intro X; vm_compute in X; discriminate X)).
    rewrite (strip_prefix_digit (T "true") d (t ++ r') Hd eq_refl
               ltac:(intro X; vm_compute in X; discriminate X)).
    rewrite (strip_prefix_digit (T "false") d (t ++ r') Hd eq_refl
               ltac:(intro X; vm_compute in X; discriminate X)).
    rewrite (strip_prefix_digit (T "NaN") d (t ++ r') Hd eq_refl
               ltac:(intro X; vm_compute in X; discriminate X)).
    rewrite (strip_prefix_digit (T "Infinity") d (t ++ r') Hd eq_refl
               ltac:(intro X; vm_compute in X; discriminate X)).
    rewrite (strip_prefix_digit (T "-Infinity") d (t ++ r') Hd eq_refl
               ltac:(intro X; vm_compute in X; discriminate X)).
    reflexivity.
Qed.

(** ** Values *)

Lemma ends_ok_head (c : text) (c0 : ascii) (r0 r : text) :
  ends_ok c -> c0 :: r0 = c ++ r -> exists t, c = c0 :: t.
Proof.
  intros (c' & a & -> & _) E.
  destruct c' as [|x c']; simpl in E; inversion E; subst; simpl; eauto.
Qed.

Lemma skip_ws_to (ws c rest : text) (h : ascii) (t : text) :
  forallb is_ws ws = true -> c = h :: t -> is_ws h = false ->
  skip_ws (ws ++ c ++ rest) = c ++ rest.
Proof.
  intros Hws -> Hh. rewrite (skip_ws_app _ _ Hws). simpl. now rewrite Hh.
Qed.

Lemma skipped_head (s c r : text) :
  skip_ws s = c ++ r -> ends_ok c -> exists h t, c = h :: t /\ is_ws h = false.
Proof.
  intros E Hend. destruct (skip_ws s) as [|x s'] eqn:Es.
  - destruct Hend as (c' & a & -> & _). destruct c'; discriminate.
  - destruct (ends_ok_head _ _ _ _ Hend E) as [t ->].
    exists x, t. split; [reflexivity|]. now apply (skip_ws_head s x s').
Qed.

Lemma stop_ws_then (ws : text) (x : ascii) (r : text) :
  forallb is_ws ws = true -> stop [x] = true -> stop (ws ++ x :: r) = true.
Proof.
  intros Hws Hx. destruct ws as [|w ws]; simpl app.
  - exact Hx.
  - simpl in Hws. apply andb_true_iff in Hws. destruct Hws as [Hw _].
    now apply is_ws_stop.
Qed.

Lemma ends_ok_single (x : ascii) (s : string) :
  is_char s x = true -> Py.isspace (chr s) = false -> ends_ok [x].
Proof.
  intros H Hs. apply is_char_eq in H. subst. exists [], (chr s). auto.
Qed.

Lemma stop_single (x : ascii) (s : string) :
  is_char s x = true -> stop [chr s] = true -> stop [x] = true.
Proof. intros H Hs. apply is_char_eq in H. now subst. Qed.

Ltac list_norm := cbn [app]; repeat (rewrite <- app_assoc; cbn [app]).

Lemma parse_local (n : nat) :
  (forall s v r, parse_value n s = POk v r ->
     exists c, s = c ++ r /\ ends_ok c
               /\ forall r', stop r' = true -> parse_value n (c ++ r') = POk v r')
  /\ (forall s acc v r, parse_elems n s acc = POk v r ->
        exists c, s = c ++ r /\ ends_ok c
                  /\ forall r', parse_elems n (c ++ r') acc = POk v r')
  /\ (forall s acc v r, parse_members n s acc = POk v r ->
        exists c, s = c ++ r /\ ends_ok c
                  /\ forall r', parse_members n (c ++ r') acc = POk v r').
Proof.
  induction n as [|n (IHv & IHe & IHm)].
  { repeat split; intros; discriminate. }
  split; [|split].
  - (* parse_value *)
    intros s v r H. destruct s as [|c0 r0]; [discriminate|].
    cbn [parse_value] in H.
    destruct (is_quote c0) eqn:Eq.
    { destruct (parse_string r0) as [[x r1]|] eqn:Es; [|discriminate].
      inversion H; subst v r1.
      destruct (parse_string_local _ _ _ Es) as (c & E & Hend & Hloc).
      exists (c0 :: c). split; [now rewrite E|].
      split; [now apply (ends_ok_app_r [c0])|].
      intros r' _. cbn [parse_value app]. now rewrite Eq, Hloc. }
    destruct (is_char "{" c0) eqn:Eo.
    { destruct (skip_ws r0) as [|c' r1] eqn:Esk; [discriminate|].
      destruct (skip_ws_split r0) as (ws & Ews & Hws). rewrite Esk in Ews.
      pose proof (skip_ws_head _ _ _ Esk) as Hc'.
      destruct (is_char "}" c') eqn:Ecl.
      - inversion H; subst v r1.
        exists (c0 :: ws ++ [c']). split; [rewrite Ews; now list_norm|].
        split; [apply (ends_ok_app_r (c0 :: ws));
                now apply (ends_ok_single c' "}" Ecl)|].
        intros r' _. list_norm. cbn [parse_value]. rewrite Eq, Eo.
        rewrite (skip_ws_app _ _ Hws), (skip_ws_stays _ _ Hc'). now rewrite Ecl.
      - destruct (IHm _ _ _ _ H) as (c & E & Hend & Hloc).
        destruct (ends_ok_head _ _ _ _ Hend E) as [t Et].
        exists (c0 :: ws ++ c). split; [rewrite Ews, E; now list_norm|].
        split; [now apply (ends_ok_app_r (c0 :: ws))|].
        intros r' _. list_norm. cbn [parse_value]. rewrite Eq, Eo.
        rewrite (skip_ws_to ws c r' c' t Hws Et Hc').
        rewrite <- (Hloc r'), Et. cbn [app]. now rewrite Ecl. }
    destruct (is_char "[" c0) eqn:Ea.
    { destruct (skip_ws r0) as [|c' r1] eqn:Esk; [discriminate|].
      destruct (skip_ws_split r0) as (ws & Ews & Hws). rewrite Esk in Ews.
      pose proof (skip_ws_head _ _ _ Esk) as Hc'.
      destruct (is_char "]" c') eqn:Ecl.
      - inversion H; subst v r1.
        exists (c0 :: ws ++ [c']). split; [rewrite Ews; now list_norm|].
        split; [apply (ends_ok_app_r (c0 :: ws));
                now apply (ends_ok_single c' "]" Ecl)|].
        intros r' _. list_norm. cbn [parse_value]. rewrite Eq, Eo, Ea.
        rewrite (skip_ws_app _ _ Hws), (skip_ws_stays _ _ Hc'). now rewrite Ecl.
      - destruct (IHe _ _ _ _ H) as (c & E & Hend & Hloc).
        destruct (ends_ok_head _ _ _ _ Hend E) as [t Et].
        exists (c0 :: ws ++ c). split; [rewrite Ews, E; now list_norm|].
        split; [now apply (ends_ok_app_r (c0 :: ws))|].
        intros r' _. list_norm. cbn [parse_value]. rewrite Eq, Eo, Ea.
        rewrite (skip_ws_to ws c r' c' t Hws Et Hc').
        rewrite <- (Hloc r'), Et. cbn [app]. now rewrite Ecl. }
    destruct (parse_scalar_local _ _ _ H) as (c & E & Hend & Hloc).
    destruct (ends_ok_head _ _ _ _ Hend E) as [t Et].
    exists c. split; [exact E|]. split; [exact Hend|].
    intros r' Hstop. rewrite <- (Hloc r' Hstop). rewrite Et.
    cbn [parse_value app]. now rewrite Eq, Eo, Ea.
  - (* parse_elems *)
    intros s acc v r H. cbn [parse_elems] in H.
    destruct (parse_value n s) as [v1 r1| |] eqn:Ev; try discriminate.
    destruct (skip_ws r1) as [|x r2] eqn:Esk; [discriminate|].
    destruct (IHv _ _ _ Ev) as (c1 & E1 & Hend1 & Hloc1).
    destruct (skip_ws_split r1) as (ws1 & Ews1 & Hws1). rewrite Esk in Ews1.
    pose proof (skip_ws_head _ _ _ Esk) as Hx.
    destruct (is_char "]" x) eqn:Ecl.
    + inversion H; subst v r2.
      exists (c1 ++ ws1 ++ [x]).
      split; [rewrite E1, Ews1; now list_norm|].
      split; [rewrite app_assoc; apply ends_ok_app_r;
              now apply (ends_ok_single x "]" Ecl)|].
      intros r'. list_norm. cbn [parse_elems].
      rewrite Hloc1
        by (apply stop_ws_then; [exact Hws1 | now apply (stop_single x "]" Ecl)]).
      rewrite (skip_ws_app _ _ Hws1), (skip_ws_stays _ _ Hx). now rewrite Ecl.
    + destruct (is_char "," x) eqn:Eco; [|discriminate].
      destruct (IHe _ _ _ _ H) as (c2 & E2 & Hend2 & Hloc2).
      destruct (skip_ws_split r2) as (ws2 & Ews2 & Hws2).
      destruct (skipped_head _ _ _ E2 Hend2) as (h & t & Eh & Hh).
      exists (c1 ++ ws1 ++ x :: ws2 ++ c2).
      split; [rewrite E1, Ews1, Ews2, E2; now list_norm|].
      split.
      { rewrite app_assoc. apply ends_ok_app_r.
        apply (ends_ok_app_r (x :: ws2)). exact Hend2. }
      intros r'. list_norm. cbn [parse_elems].
      rewrite Hloc1
        by (apply stop_ws_then; [exact Hws1 | now apply (stop_single x "," Eco)]).
      rewrite (skip_ws_app _ _ Hws1), (skip_ws_stays _ _ Hx). rewrite Ecl, Eco.
      rewrite (skip_ws_to ws2 c2 r' h t Hws2 Eh Hh). apply Hloc2.
  - (* parse_members *)
    intros s acc v r H. destruct s as [|q r0]; [discriminate|].
    cbn [parse_members] in H.
    destruct (is_quote q) eqn:Eq; [|discriminate].
    destruct (parse_string r0) as [[k r1]|] eqn:Es; [|discriminate].
    destruct (parse_string_local _ _ _ Es) as (ck & Ek & Hendk & Hlock).
    destruct (skip_ws r1) as [|x r2] eqn:Esk1; [discriminate|].
    destruct (skip_ws_split r1) as (ws1 & Ews1 & Hws1). rewrite Esk1 in Ews1.
    pose proof (skip_ws_head _ _ _ Esk1) as Hx.
    destruct (is_char ":" x) eqn:Ecolon; [|discriminate].
    destruct (parse_value n (skip_ws r2)) as [v1 r3| |] eqn:Ev; try discriminate.
    destruct (IHv _ _ _ Ev) as (cv & E3 & Hendv & Hlocv).
    destruct (skip_ws_split r2) as (ws2 & Ews2 & Hws2).
    destruct (skipped_head _ _ _ E3 Hendv) as (hv & tv & Ehv & Hhv).
    destruct (skip_ws r3) as [|y r4] eqn:Esk3; [discriminate|].
    destruct (skip_ws_split r3) as (ws3 & Ews3 & Hws3). rewrite Esk3 in Ews3.
    pose proof (skip_ws_head _ _ _ Esk3) as Hy.
    destruct (is_char "}" y) eqn:Ecl.
    + inversion H; subst v r4.
      exists (q :: ck ++ ws1 ++ x :: ws2 ++ cv ++ ws3 ++ [y]).
      split; [rewrite Ek, Ews1, Ews2, E3, Ews3; now list_norm|].
      split.
      { replace (q :: ck ++ ws1 ++ x :: ws2 ++ cv ++ ws3 ++ [y])
          with ((q :: ck ++ ws1 ++ x :: ws2 ++ cv ++ ws3) ++ [y])
          by now list_norm.
        apply ends_ok_app_r. now apply (ends_ok_single y "}" Ecl). }
      intros r'. list_norm. cbn [parse_members]. rewrite Eq, Hlock.
      rewrite (skip_ws_app _ _ Hws1), (skip_ws_stays _ _ Hx), Ecolon.
      rewrite (skip_ws_to ws2 cv _ hv tv Hws2 Ehv Hhv).
      rewrite Hlocv
        by (apply stop_ws_then; [exact Hws3 | now apply (stop_single y "}" Ecl)]).
      rewrite (skip_ws_app _ _ Hws3), (skip_ws_stays _ _ Hy). now rewrite Ecl.
    + destruct (is_char "," y) eqn:Eco; [|discriminate].
      destruct (IHm _ _ _ _ H) as (cm & E4 & Hendm & Hlocm).
      destruct (skip_ws_split r4) as (ws4 & Ews4 & Hws4).
      destruct (skipped_head _ _ _ E4 Hendm) as (hm & tm & Ehm & Hhm).
      exists (q :: ck ++ ws1 ++ x :: ws2 ++ cv ++ ws3 ++ y :: ws4 ++ cm).
      split; [rewrite Ek, Ews1, Ews2, E3, Ews3, Ews4, E4; now list_norm|].
      split.
      { replace (q :: ck ++ ws1 ++ x :: ws2 ++ cv ++ ws3 ++ y :: ws4 ++ cm)
          with ((q :: ck ++ ws1 ++ x :: ws2 ++ cv ++ ws3 ++ y :: ws4) ++ cm)
          by now list_norm.
        now apply ends_ok_app_r. }
      intros r'. list_norm. cbn [parse_members]. rewrite Eq, Hlock.
      rewrite (skip_ws_app _ _ Hws1), (skip_ws_stays _ _ Hx), Ecolon.
      rewrite (skip_ws_to ws2 cv _ hv tv Hws2 Ehv Hhv).
      rewrite Hlocv
        by (apply stop_ws_then; [exact Hws3 | now apply (stop_single y "," Eco)]).
      rewrite (skip_ws_app _ _ Hws3), (skip_ws_stays _ _ Hy). rewrite Ecl, Eco.
      rewrite (skip_ws_to ws4 cm r' hm tm Hws4 Ehm Hhm). apply Hlocm.
Qed.

(** ** The recursion budget *)

Lemma skip_ws_length (s : text) : List.length (skip_ws s) <= List.length s.
Proof.
  induction s as [|c s IH]; simpl; [lia|]. destruct (is_ws c); simpl; lia.
Qed.

Lemma ends_ok_length (c : text) : ends_ok c -> 1 <= List.length c.
Proof. intros (c' & a & -> & _). rewrite length_app. simpl. lia. Qed.

Lemma parse_value_shrinks (n : nat) (s : text) (v : json) (r : text) :
  parse_value n s = POk v r -> List.length r < List.length s.
Proof.
  intros H. destruct (proj1 (parse_local n) _ _ _ H) as (c & -> & Hend & _).
  apply ends_ok_length in Hend. rewrite length_app. lia.
Qed.

Lemma parse_string_shrinks (s : text) (x : string) (r : text) :
  parse_string s = Some (x, r) -> List.length r < List.length s.
Proof.
  intros H. destruct (parse_string_local _ _ _ H) as (c & -> & Hend & _).
  apply ends_ok_length in Hend. rewrite length_app. lia.
Qed.

Lemma skip_ws_cons_length (s : text) (x : ascii) (r : text) :
  skip_ws s = x :: r -> List.length r < List.length s.
Proof.
  intros H. pose proof (skip_ws_length s) as L. rewrite H in L. simpl in L. lia.
Qed.

(** With a budget above twice the length of the input the decoder never
    runs out of budget. *)
Lemma fuel_enough (n : nat) :
  (forall s, 2 * List.length s < n -> parse_value n s <> PFuel)
  /\ (forall s acc, 2 * List.length s + 1 < n -> parse_elems n s acc <> PFuel)
  /\ (forall s acc, 2 * List.length s + 1 < n -> parse_members n s acc <> PFuel).
Proof.
  induction n as [|n (IHv & IHe & IHm)].
  { repeat split; intros; lia. }
  split; [|split].
  - intros s Hn. destruct s as [|c0 r0]; [discriminate|].
    cbn [parse_value]. simpl in Hn.
    destruct (is_quote c0).
    { destruct (parse_string r0) as [[x r1]|]; discriminate. }
    destruct (is_char "{" c0).
    { destruct (skip_ws r0) as [|c' r1] eqn:Esk; [discriminate|].
      destruct (is_char "}" c'); [discriminate|].
      apply IHm. pose proof (skip_ws_length r0) as L. rewrite Esk in L. lia. }
    destruct (is_char "[" c0).
    { destruct (skip_ws r0) as [|c' r1] eqn:Esk; [discriminate|].
      destruct (is_char "]" c'); [discriminate|].
      apply IHe. pose proof (skip_ws_length r0) as L. rewrite Esk in L. lia. }
    unfold parse_scalar, parse_number.
    repeat match goal with
           | |- context [match ?x with _ => _ end] => destruct x
           end; discriminate.
  - intros s acc Hn. cbn [parse_elems].
    pose proof (IHv s ltac:(lia)) as Hv.
    destruct (parse_value n s) as [v1 r1| |] eqn:Ev; [|discriminate|contradiction].
    apply parse_value_shrinks in Ev.
    destruct (skip_ws r1) as [|x r2] eqn:Esk; [discriminate|].
    apply skip_ws_cons_length in Esk.
    destruct (is_char "]" x); [discriminate|].
    destruct (is_char "," x); [|discriminate].
    apply IHe. pose proof (skip_ws_length r2). lia.
  - intros s acc Hn. destruct s as [|q r0]; [discriminate|].
    cbn [parse_members]. simpl in Hn.
    destruct (is_quote q); [|discriminate].
    destruct (parse_string r0) as [[k r1]|] eqn:Es; [|discriminate].
    apply parse_string_shrinks in Es.
    destruct (skip_ws r1) as [|x r2] eqn:Esk1; [discriminate|].
    apply skip_ws_cons_length in Esk1.
    destruct (is_char ":" x); [|discriminate].
    pose proof (skip_ws_length r2) as L2.
    pose proof (IHv (skip_ws r2) ltac:(lia)) as Hv.
    destruct (parse_value n (skip_ws r2)) as [v1 r3| |] eqn:Ev;
      [|discriminate|contradiction].
    apply parse_value_shrinks in Ev.
    destruct (skip_ws r3) as [|y r4] eqn:Esk3; [discriminate|].
    apply skip_ws_cons_length in Esk3.
    destruct (is_char "}" y); [discriminate|].
    destruct (is_char "," y); [|discriminate].
    apply IHm. pose proof (skip_ws_length r4). lia.
Qed.

(** More budget changes nothing once the decoder has an answer. *)
Lemma fuel_more (n : nat) :
  (forall s, parse_value n s <> PFuel -> parse_value (S n) s = parse_value n s)
  /\ (forall s acc, parse_elems n s acc <> PFuel ->
        parse_elems (S n) s acc = parse_elems n s acc)
  /\ (forall s acc, parse_members n s acc <> PFuel ->
        parse_members (S n) s acc = parse_members n s acc).
Proof.
  induction n as [|n (IHv & IHe & IHm)].
  { repeat split; intros; simpl in *; contradiction. }
  split; [|split].
  - intros s H. destruct s as [|c0 r0]; [reflexivity|].
    cbn [parse_value] in H. 
    change (parse_value (S (S n)) (c0 :: r0)) with
      (if is_quote c0 then
         match parse_string r0 with
         | Some (x, r') => POk (JStr x) r'
         | None => PErr
         end
       else if is_char "{" c0 then
         match skip_ws r0 with
         | c' :: r' =>
             if is_char "}" c' then POk (JObj []) r'
             else parse_members (S n) (c' :: r') []
         | [] => PErr
         end
       else if is_char "[" c0 then
         match skip_ws r0 with
         | c' :: r' =>
             if is_char "]" c' then POk (JArr []) r'
             else parse_elems (S n) (c' :: r') []
         | [] => PErr
         end
       else parse_scalar (c0 :: r0)).
    cbn [parse_value].
    destruct (is_quote c0); [reflexivity|].
    destruct (is_char "{" c0).
    { destruct (skip_ws r0) as [|c' r1]; [reflexivity|].
      destruct (is_char "}" c'); [reflexivity|]. now apply IHm. }
    destruct (is_char "[" c0); [|reflexivity].
    destruct (skip_ws r0) as [|c' r1]; [reflexivity|].
    destruct (is_char "]" c'); [reflexivity|]. now apply IHe.
  - intros s acc H. cbn [parse_elems] in H.
    change (parse_elems (S (S n)) s acc) with
      (match parse_value (S n) s with
       | POk v r =>
           match skip_ws r with
           | c :: r' =>
               if is_char "]" c then POk (JArr (rev (v :: acc))) r'
               else if is_char "," c then parse_elems (S n) (skip_ws r') (v :: acc)
               else PErr
           | [] => PErr
           end
       | PErr => PErr
       | PFuel => PFuel
       end).
    cbn [parse_elems].
    assert (Hv : parse_value n s <> PFuel)
      by (intro E; rewrite E in H; contradiction).
    rewrite (IHv s Hv).
    destruct (parse_value n s) as [v1 r1| |]; try reflexivity.
    destruct (skip_ws r1) as [|x r2]; [reflexivity|].
    destruct (is_char "]" x); [reflexivity|].
    destruct (is_char "," x); [|reflexivity]. now apply IHe.
  - intros s acc H. destruct s as [|q r0]; [reflexivity|].
    cbn [parse_members] in H.
    change (parse_members (S (S n)) (q :: r0) acc) with
      (if is_quote q then
         match parse_string r0 with
         | Some (k, r1) =>
             match skip_ws r1 with
             | c :: r2 =>
                 if is_char ":" c then
                   match parse_value (S n) (skip_ws r2) with
                   | POk v r3 =>
                       match skip_ws r3 with
                       | c' :: r4 =>
                           if is_char "}" c' then POk (JObj (dict_set k v acc)) r4
                           else if is_char "," c'
                           then parse_members (S n) (skip_ws r4) (dict_set k v acc)
                           else PErr
                       | [] => PErr
                       end
                   | PErr => PErr
                   | PFuel => PFuel
                   end
                 else PErr
             | [] => PErr
             end
         | None => PErr
         end
       else PErr).
    cbn [parse_members].
    destruct (is_quote q); [|reflexivity].
    destruct (parse_string r0) as [[k r1]|]; [|reflexivity].
    destruct (skip_ws r1) as [|x r2]; [reflexivity|].
    destruct (is_char ":" x); [|reflexivity].
    assert (Hv : parse_value n (skip_ws r2) <> PFuel)
      by (intro E; rewrite E in H; contradiction).
    rewrite (IHv _ Hv).
    destruct (parse_value n (skip_ws r2)) as [v1 r3| |]; try reflexivity.
    destruct (skip_ws r3) as [|y r4]; [reflexivity|].
    destruct (is_char "}" y); [reflexivity|].
    destruct (is_char "," y); [|reflexivity]. now apply IHm.
Qed.

Lemma fuel_irrelevant (s : text) (n k : nat) :
  2 * List.length s < n -> parse_value (n + k) s = parse_value n s.
Proof.
  intros Hn. induction k as [|k IH].
  - now rewrite Nat.add_0_r.
  - rewrite Nat.add_succ_r. rewrite (proj1 (fuel_more (n + k))).
    + exact IH.
    + apply (proj1 (fuel_enough (n + k))). lia.
Qed.

(** ** [json.loads] and [str.strip] *)

Lemma lstrip_app (ws s : text) :
  forallb Py.isspace ws = true -> Py.lstrip (ws ++ s) = Py.lstrip s.
Proof.
  induction ws as [|c ws IH]; simpl; [reflexivity|].
  intros H. apply andb_true_iff in H. destruct H as [-> H]. now apply IH.
Qed.

Lemma forallb_rev {A} (p : A -> bool) (l : list A) :
  forallb p l = true -> forallb p (rev l) = true.
Proof.
  rewrite !forallb_forall. intros H x Hx. apply H. now apply in_rev.
Qed.

(** Stripping removes white space around a text that neither starts nor
    ends with white space, and nothing else. *)
Lemma strip_around (ws c r : text) (h : ascii) (t : text) :
  forallb Py.isspace ws = true -> forallb Py.isspace r = true ->
  c = h :: t -> Py.isspace h = false -> ends_ok c ->
  Py.strip (ws ++ c ++ r) = c.
Proof.
  intros Hws Hr Ec Hh (c' & a & Ea & Ha).
  unfold Py.strip, Py.rstrip. rewrite (lstrip_app _ _ Hws).
  assert (E1 : Py.lstrip (c ++ r) = c ++ r) by (rewrite Ec; simpl; now rewrite Hh).
  rewrite E1, rev_app_distr, (lstrip_app _ _ (forallb_rev _ _ Hr)).
  rewrite Ea, rev_app_distr. simpl. rewrite Ha. simpl.
  now rewrite rev_involutive.
Qed.

Lemma strip_prefix_head (p s r : text) (a c0 : ascii) (p' s' : text) :
  strip_prefix p s = Some r -> p = a :: p' -> s = c0 :: s' -> c0 = a.
Proof.
  intros H -> ->. simpl in H. destruct (Ascii.eqb_spec a c0); [auto | discriminate].
Qed.

(** A value starts with neither white space nor a backquote. *)
Lemma parse_value_head (n : nat) (c0 : ascii) (r0 : text) (v : json) (r : text) :
  parse_value n (c0 :: r0) = POk v r ->
  Py.isspace c0 = false /\ Ascii.eqb (chr "`") c0 = false.
Proof.
  destruct n as [|n]; [discriminate|]. cbn [parse_value].
  destruct (is_quote c0) eqn:Eq.
  { intros _. apply is_quote_eq in Eq. subst. split; reflexivity. }
  destruct (is_char "{" c0) eqn:Eo.
  { intros _. apply is_char_eq in Eo. subst. split; reflexivity. }
  destruct (is_char "[" c0) eqn:Ea.
  { intros _. apply is_char_eq in Ea. subst. split; reflexivity. }
  unfold parse_scalar.
  destruct (strip_prefix (T "null") (c0 :: r0)) eqn:E1.
  { intros _. rewrite (strip_prefix_head _ _ _ _ _ _ _ E1 eq_refl eq_refl).
    split; reflexivity. }
  destruct (strip_prefix (T "true") (c0 :: r0)) eqn:E2.
  { intros _. rewrite (strip_prefix_head _ _ _ _ _ _ _ E2 eq_refl eq_refl).
    split; reflexivity. }
  destruct (strip_prefix (T "false") (c0 :: r0)) eqn:E3.
  { intros _. rewrite (strip_prefix_head _ _ _ _ _ _ _ E3 eq_refl eq_refl).
    split; reflexivity. }
  destruct (strip_prefix (T "NaN") (c0 :: r0)) eqn:E4.
  { intros _. rewrite (strip_prefix_head _ _ _ _ _ _ _ E4 eq_refl eq_refl).
    split; reflexivity. }
  destruct (strip_prefix (T "Infinity") (c0 :: r0)) eqn:E5.
  { intros _. rewrite (strip_prefix_head _ _ _ _ _ _ _ E5 eq_refl eq_refl).
    split; reflexivity. }
  destruct (strip_prefix (T "-Infinity") (c0 :: r0)) eqn:E6.
  { intros _. rewrite (strip_prefix_head _ _ _ _ _ _ _ E6 eq_refl eq_refl).
    split; reflexivity. }
  intros H.
  destruct (parse_number_local _ _ _ H) as (c & E & _ & (d & t & Ec & Hd) & _).
  rewrite Ec in E. inversion E; subst c0.
  apply orb_true_iff in Hd. destruct Hd as [Hd|Hd].
  - apply is_char_eq in Hd. subst. split; reflexivity.
  - split; [now apply is_digit_nospace|].
    apply is_digit_differs; [reflexivity | exact Hd].
Qed.

Lemma isspace_not_ws (c : ascii) : Py.isspace c = false -> is_ws c = false.
Proof.
  intros H. destruct (is_ws c) eqn:E; [|reflexivity].
  apply is_ws_isspace in E. congruence.
Qed.

(** What [loads] accepts is white space, a value that starts and ends
    without white space, and white space. *)
Lemma loads_shape (s : text) (v : json) :
  loads s = Some v ->
  exists ws c r h t,
    s = ws ++ c ++ r /\ forallb is_ws ws = true /\ forallb is_ws r = true
    /\ c = h :: t /\ Py.isspace h = false /\ Ascii.eqb (chr "`") h = false
    /\ ends_ok c /\ loads c = Some v.
Proof.
  unfold loads. intros H.
  destruct (parse_value (fuel (skip_ws s)) (skip_ws s)) as [v1 r1| |] eqn:Ev;
    try discriminate.
  destruct (skip_ws r1) as [|x r2] eqn:Er; [|discriminate].
  inversion H; subst v1.
  destruct (proj1 (parse_local _) _ _ _ Ev) as (c & Ec & Hend & Hloc).
  destruct (skip_ws_split s) as (ws & Es & Hws).
  destruct (skip_ws_split r1) as (wr & Ewr & Hwr). rewrite Er, app_nil_r in Ewr.
  subst wr.
  destruct (skip_ws s) as [|h s'] eqn:Esk; [discriminate|].
  destruct (ends_ok_head _ _ _ _ Hend Ec) as [t Et].
  destruct (parse_value_head _ _ _ _ _ Ev) as [Hh Hb].
  exists ws, c, r1, h, t. rewrite Es, Ec.
  repeat split; auto.
  pose proof (Hloc [] eq_refl) as Hc. rewrite app_nil_r in Hc.
  rewrite Et in *. rewrite (skip_ws_stays _ _ (isspace_not_ws _ Hh)).
  assert (Hfuel : fuel (h :: s') = fuel (h :: t) + (fuel (h :: s') - fuel (h :: t))).
  { assert (List.length (h :: t) <= List.length (h :: s'))
      by (rewrite Ec, length_app; lia).
    unfold fuel. lia. }
  rewrite Hfuel in Hc. rewrite fuel_irrelevant in Hc by (unfold fuel; lia).
  now rewrite Hc.
Qed.

(** Stripping a text that decodes leaves a text that decodes to the same
    value and does not open a code fence. *)
Lemma loads_strip (s : text) (v : json) :
  loads s = Some v ->
  loads (Py.strip s) = Some v /\ Py.startswith fence (Py.strip s) = false.
Proof.
  intros H.
  destruct (loads_shape s v H) as (ws & c & r & h & t & -> & Hws & Hr & Ec & Hh & Hb
                                   & Hend & Hc).
  rewrite (strip_around ws c r h t (all_ws_isspace _ Hws) (all_ws_isspace _ Hr)
             Ec Hh Hend).
  split; [exact Hc|]. rewrite Ec.
  unfold fence, T. cbn [list_ascii_of_string Py.startswith].
  change (chr "`") with ("`"%char) in Hb. now rewrite Hb.
Qed.

(** A text that starts with an opening bracket decodes to a list. *)
Lemma parse_elems_is_list (n : nat) :
  forall s acc v r, parse_elems n s acc = POk v r -> exists l, v = JArr l.
Proof.
  induction n as [|n IH]; intros s acc v r H; [discriminate|].
  cbn [parse_elems] in H.
  destruct (parse_value n s) as [v1 r1| |]; try discriminate.
  destruct (skip_ws r1) as [|x r2]; [discriminate|].
  destruct (is_char "]" x); [inversion H; eauto|].
  destruct (is_char "," x); [eauto | discriminate].
Qed.

Lemma loads_bracket_is_list (s : text) (v : json) :
  loads (chr "[" :: s) = Some v -> exists l, v = JArr l.
Proof.
  unfold loads. change (skip_ws (chr "[" :: s)) with (chr "[" :: s).
  destruct (fuel (chr "[" :: s)) as [|n] eqn:Ef; [discriminate|].
  cbn [parse_value].
  change (is_quote (chr "[")) with false. change (is_char "{" (chr "[")) with false.
  change (is_char "[" (chr "[")) with true. cbv iota.
  destruct (skip_ws s) as [|c' r'] eqn:Es; [discriminate|].
  destruct (is_char "]" c').
  - destruct (skip_ws r'); [|discriminate]. inversion 1. eauto.
  - destruct (parse_elems n (c' :: r') []) as [v1 r1| |] eqn:Ee; try discriminate.
    destruct (skip_ws r1); [|discriminate]. inversion 1; subst.
    now apply (parse_elems_is_list _ _ _ _ _ Ee).
Qed.

End JsonFacts.

(* ================================================================== *)
(** * The search client and markdown fences *)
(* ================================================================== *)

Module FenceFacts.

Import Lex Data JsonFacts.
Local Open Scope list_scope.

Lemma split_lines_nonempty (s : text) : Py.split_lines s <> [].
Proof.
  destruct s as [|c s]; cbn [Py.split_lines]; [discriminate|].
  destruct (Ascii.eqb c Py.newline); [discriminate|].
  destruct (Py.split_lines s); discriminate.
Qed.

Lemma split_lines_app (a b : text) :
  Py.split_lines (a ++ Py.newline :: b) = Py.split_lines a ++ Py.split_lines b.
Proof.
  induction a as [|c a IH]; cbn [app Py.split_lines].
  - now rewrite Ascii.eqb_refl.
  - destruct (Ascii.eqb c Py.newline); [now rewrite IH|].
    rewrite IH. pose proof (split_lines_nonempty a) as Hne.
    destruct (Py.split_lines a) as [|l ls]; [contradiction | reflexivity].
Qed.

Lemma split_lines_one (a : text) :
  forallb (fun c => negb (Ascii.eqb c Py.newline)) a = true -> Py.split_lines a = [a].
Proof.
  induction a as [|c a IH]; cbn [forallb Py.split_lines]; [reflexivity|].
  intros H. apply andb_true_iff in H. destruct H as [Hc Ha].
  apply negb_true_iff in Hc. now rewrite Hc, (IH Ha).
Qed.

Lemma join_split (s : text) : Py.join_lines (Py.split_lines s) = s.
Proof.
  induction s as [|c s IH]; [reflexivity|]. cbn [Py.split_lines].
  pose proof (split_lines_nonempty s) as Hne.
  destruct (Ascii.eqb_spec c Py.newline) as [->|_].
  - destruct (Py.split_lines s) as [|l ls]; [contradiction|].
    cbn [Py.join_lines app]. cbn [Py.join_lines] in IH. now rewrite IH.
  - destruct (Py.split_lines s) as [|l ls]; [contradiction|].
    destruct ls as [|l' ls].
    + cbn [Py.join_lines] in IH |- *. now rewrite IH.
    + cbn [Py.join_lines app] in IH |- *. now rewrite IH.
Qed.

Lemma drop_first_last_mid {A} (a b : A) (mid : list A) :
  Py.drop_first_last (a :: mid ++ [b]) = mid.
Proof. unfold Py.drop_first_last. simpl. apply removelast_last. Qed.

Lemma startswith_app (p s : text) : Py.startswith p (p ++ s) = true.
Proof.
  induction p as [|a p IH]; simpl; [reflexivity|]. now rewrite Ascii.eqb_refl.
Qed.

Lemma fenced_shape (tag t : text) :
  fenced tag t = (fence ++ tag) ++ Py.newline :: t ++ Py.newline :: fence.
Proof. unfold fenced. now rewrite <- app_assoc. Qed.

Lemma strip_fenced (tag t : text) : Py.strip (fenced tag t) = fenced tag t.
Proof.
  assert (E : fenced tag t = [] ++ fenced tag t ++ []) by now rewrite app_nil_r.
  rewrite E at 1.
  apply (strip_around [] (fenced tag t) [] (chr "`")
           (T "``" ++ tag ++ Py.newline :: t ++ Py.newline :: fence));
    try reflexivity.
  exists (fence ++ tag ++ Py.newline :: t ++ Py.newline :: T "``"), (chr "`").
  split; [|reflexivity].
  unfold fenced, fence, T. cbn [list_ascii_of_string]. now list_norm.
Qed.

(** The fence is taken off a text laid out by [fenced]. *)
Lemma strip_fence_fenced (tag t : text) :
  forallb (fun c => negb (Ascii.eqb c Py.newline)) tag = true ->
  strip_fence (fenced tag t) = t.
Proof.
  intros Htag. unfold strip_fence. rewrite strip_fenced.
  unfold fenced at 1. rewrite startswith_app.
  rewrite fenced_shape, split_lines_app, split_lines_app.
  assert (H1 : Py.split_lines (fence ++ tag) = [fence ++ tag]).
  { apply split_lines_one. rewrite forallb_app, Htag. reflexivity. }
  rewrite H1. change (Py.split_lines fence) with [fence].
  cbn [app]. rewrite drop_first_last_mid. apply join_split.
Qed.

(** C7, as the code has it.  When the opening fence (with a language
    tag or none) is the first line and the closing fence alone is the
    last line, a text that decodes to a JSON array yields the same roles
    fenced as bare: the elements of the array.  Empty and one-element
    arrays are included. *)
Theorem fenced_array_parses_like_bare
  (tag t : text) (l : list json)
  (Htag : forallb (fun c => negb (Ascii.eqb c Py.newline)) tag = true)
  (Hvalid : loads t = Some (JArr l)) :
  Scraper.parse_response (fenced tag t) = Scraper.parse_response t
  /\ Scraper.parse_response t = l.
Proof.
  assert (Hbare : Scraper.parse_response t = l).
  { unfold Scraper.parse_response, strip_fence.
    destruct (loads_strip t _ Hvalid) as [Hs Hf]. now rewrite Hf, Hs. }
  split; [|exact Hbare]. rewrite Hbare.
  unfold Scraper.parse_response. rewrite (strip_fence_fenced tag t Htag).
  now rewrite Hvalid.
Qed.

Lemma fenced_array_parses_like_bare_witness :
  loads bare_array
  = Some (JArr [JObj [("title"%string, JStr "PM"); ("location"%string, JStr "London")]])
  /\ Scraper.parse_response (fenced (T "json") bare_array)
     = Scraper.parse_response bare_array
  /\ Scraper.parse_response (fenced [] (T " [] ")) = [].
Proof.
  assert (H : loads bare_array
              = Some (JArr [JObj [("title"%string, JStr "PM");
                                  ("location"%string, JStr "London")]]))
    by (vm_compute; reflexivity).
  split; [exact H|]. split.
  - exact (proj1 (fenced_array_parses_like_bare (T "json") bare_array _ eq_refl H)).
  - assert (H0 : loads (T " [] ") = Some (JArr [])) by (vm_compute; reflexivity).
    destruct (fenced_array_parses_like_bare [] (T " [] ") _ eq_refl H0) as [E1 E2].
    now rewrite E1.
Defined.

(** C7, as stated, fails: the layout matters.  With the fences on the
    array's own line, or with the closing fence right after the array,
    the first and last line are dropped with the array in them and no
    role is returned. *)
Lemma fence_layout_matters :
  (exists l, loads bare_array = Some (JArr l)
             /\ Scraper.parse_response bare_array = l /\ l <> [])
  /\ Scraper.parse_response fenced_on_one_line = []
  /\ Scraper.parse_response fence_closed_on_last_line = []
  /\ Scraper.parse_response fenced_on_one_line <> Scraper.parse_response bare_array.
Proof.
  split; [|split; [|split]].
  - eexists. split; [vm_compute; reflexivity|].
    split; [vm_compute; reflexivity | discriminate].
  - vm_compute. reflexivity.
  - vm_compute. reflexivity.
  - vm_compute. discriminate.
Qed.

(** The fallback of the search client decodes a text that starts with an
    opening bracket, hence a list: the client returns a list on every
    path. *)
Lemma find_slice_head (c : ascii) (s : text) (i stop : Z) :
  Py.find_from c s i <> (-1)%Z -> (0 <= i)%Z ->
  (stop > Py.find_from c s i)%Z ->
  exists t, firstn (Z.to_nat (stop - Py.find_from c s i))
              (skipn (Z.to_nat (Py.find_from c s i - i)) s) = c :: t.
Proof.
  revert i. induction s as [|x s IH]; intros i Hfound Hi Hstop; simpl in *.
  - contradiction.
  - destruct (Ascii.eqb_spec x c) as [->|_].
    + rewrite Z.sub_diag. simpl.
      destruct (Z.to_nat (stop - i)) eqn:E; [lia|]. simpl. eauto.
    + assert (Hge : (i + 1 <= Py.find_from c s (i + 1))%Z).
      { clear - Hfound Hi. revert i Hfound Hi.
        induction s as [|y s IHs]; intros i Hfound Hi; simpl in *; [contradiction|].
        destruct (Ascii.eqb y c); [lia|].
        specialize (IHs (i + 1)%Z Hfound ltac:(lia)). lia. }
      destruct (IH (i + 1)%Z Hfound ltac:(lia) Hstop) as [t Ht].
      replace (Z.to_nat (Py.find_from c s (i + 1) - i))
        with (S (Z.to_nat (Py.find_from c s (i + 1) - (i + 1)))) by lia.
      simpl. eauto.
Qed.

Lemma fallback_decodes_list (content : text) (v : json) :
  let start := Py.find (chr "[") content in
  let stop := (Py.rfind (chr "]") content + 1)%Z in
  negb (start =? -1)%Z && (stop >? start)%Z = true ->
  loads (Py.slice content start stop) = Some v ->
  exists l, v = JArr l.
Proof.
  intros start stop Hguard Hloads.
  apply andb_true_iff in Hguard. destruct Hguard as [Hs Hgt].
  apply negb_true_iff, Z.eqb_neq in Hs. apply Z.gtb_lt in Hgt.
  destruct (find_slice_head (chr "[") content 0 stop Hs (Z.le_refl 0)
              ltac:(unfold start, Py.find in Hgt; lia)) as [t Ht].
  rewrite Z.sub_0_r in Ht. unfold Py.slice in Hloads.
  unfold start, Py.find in Hloads. rewrite Ht in Hloads.
  now apply (loads_bracket_is_list t).
Qed.

End FenceFacts.
(* ================================================================== *)
(** * The companies table: seeding, soft deletion, constraints *)
(* ================================================================== *)

Module StoreFacts.

Import Db DbMore Vocab2.

Ltac conj := repeat match goal with |- _ /\ _ => split end.

Lemma add_company_is_insert now name url st :
  add_company now name url st = insert_company now name url 1 st.
Proof. reflexivity. Qed.

Lemma insert_company_tables now name url active st :
  roles (insert_company now name url active st) = roles st
  /\ scrape_logs (insert_company now name url active st) = scrape_logs st
  /\ next_company_id (insert_company now name url active st) = (next_company_id st + 1)%Z
  /\ companies (insert_company now name url active st)
     = companies st
         ++ (if has_name name st then []
             else [mkCompany (next_company_id st) name url active now None]).
Proof.
  unfold insert_company, has_name.
  destruct (existsb _ (companies st)); cbn; rewrite ?app_nil_r; auto.
Qed.

Lemma has_name_spec name st :
  has_name name st = true <-> In name (map c_name (companies st)).
Proof.
  unfold has_name. rewrite existsb_exists, in_map_iff.
  split; intros (c & H1 & H2).
  - exists c. apply String.eqb_eq in H2. auto.
  - exists c. split; [tauto|]. apply String.eqb_eq. tauto.
Qed.

Lemma has_name_insert now name url active st :
  has_name name (insert_company now name url active st) = true.
Proof.
  apply has_name_spec.
  destruct (insert_company_tables now name url active st) as (_ & _ & _ & ->).
  rewrite map_app, in_app_iff.
  destruct (has_name name st) eqn:E.
  - left. now apply has_name_spec.
  - right. now left.
Qed.

Lemma has_name_kept now name url active st n :
  has_name n st = true -> has_name n (insert_company now name url active st) = true.
Proof.
  rewrite !has_name_spec.
  destruct (insert_company_tables now name url active st) as (_ & _ & _ & ->).
  rewrite map_app, in_app_iff. auto.
Qed.

Lemma insert_company_wf now name url active st :
  companies_wf st -> companies_wf (insert_company now name url active st).
Proof.
  intros (Hid & Hlt & Hname).
  destruct (insert_company_tables now name url active st) as (_ & _ & Hn & Hc).
  unfold companies_wf. rewrite Hn, Hc.
  destruct (has_name name st) eqn:E.
  - rewrite app_nil_r. repeat split; auto.
    eapply Forall_impl; [|exact Hlt]. cbn. intros; lia.
  - rewrite !map_app. cbn. repeat split.
    + apply NoDup_app; auto.
      * constructor; [intros []|constructor].
      * intros a Ha [<-|[]]. apply in_map_iff in Ha as (c & Hc1 & Hc2).
        rewrite Forall_forall in Hlt. specialize (Hlt c Hc2). lia.
    + apply Forall_app. split.
      * eapply Forall_impl; [|exact Hlt]. cbn. intros; lia.
      * constructor; [cbn; lia|constructor].
    + apply NoDup_app; auto.
      * constructor; [intros []|constructor].
      * intros a Ha [<-|[]]. apply has_name_spec in Ha. congruence.
Qed.

(** The loop of [seed_companies]: what a committed pass leaves. *)
Lemma seed_rows_grows now entries : forall st0 st st',
  seed_rows now entries st0 st = Seeded st' ->
  (exists added,
      companies st' = companies st ++ added
      /\ Forall (fun c => has_name (c_name c) st = false
                          /\ c_created_at c = now
                          /\ c_last_scraped_at c = None) added)
  /\ roles st' = roles st
  /\ scrape_logs st' = scrape_logs st
  /\ (companies_wf st -> companies_wf st')
  /\ Forall (fun e => exists n u a,
                 seed_values e = SNext (n, u, a) /\ has_name n st' = true) entries
  /\ (forall n, has_name n st = true -> has_name n st' = true).
Proof.
  induction entries as [|e entries IH]; intros st0 st st' H; cbn in H.
  - inversion H; subst.
    conj; auto. exists []. rewrite app_nil_r. auto.
  - destruct (seed_values e) as [[[n u] a]| |] eqn:Ev; try discriminate.
    apply IH in H as ((added & Hc & Hadd) & Hr & Hl & Hwf & Hall & Hmono).
    destruct (insert_company_tables now n u a st) as (Hr1 & Hl1 & _ & Hc1).
    conj.
    + rewrite Hc, Hc1, <- app_assoc. eexists. split; [reflexivity|].
      apply Forall_app. split.
      * destruct (has_name n st) eqn:E; constructor; auto.
      * eapply Forall_impl; [|exact Hadd]. cbn. intros c (Hn & Hrest). split; auto.
        destruct (has_name (c_name c) st) eqn:E; auto.
        apply (has_name_kept now n u a) in E. congruence.
    + congruence.
    + congruence.
    + intro W. apply Hwf. now apply insert_company_wf.
    + constructor; auto. exists n, u, a. split; auto.
      apply Hmono. apply has_name_insert.
    + intros m Hm. apply Hmono. now apply has_name_kept.
Qed.

(** When every entry's name is taken, the loop inserts nothing. *)
Lemma seed_rows_present now entries : forall st0 st,
  Forall (fun e => exists n u a,
              seed_values e = SNext (n, u, a) /\ has_name n st = true) entries ->
  exists st', seed_rows now entries st0 st = Seeded st'
              /\ companies st' = companies st
              /\ roles st' = roles st
              /\ scrape_logs st' = scrape_logs st.
Proof.
  induction entries as [|e entries IH]; intros st0 st H; cbn.
  - eauto.
  - inversion H as [|? ? (n & u & a & Ev & Hn) Hrest]; subst. rewrite Ev.
    destruct (insert_company_tables now n u a st) as (Hr1 & Hl1 & _ & Hc1).
    rewrite Hn, app_nil_r in Hc1.
    destruct (IH st0 (insert_company now n u a st)) as (st' & -> & Hc & Hr & Hl).
    + eapply Forall_impl; [|exact Hrest]. cbn.
      intros x (n' & u' & a' & E1 & E2). exists n', u', a'. split; auto.
      unfold has_name in *. now rewrite Hc1.
    + exists st'. repeat split; congruence.
Qed.

Lemma seed_rows_failed now entries : forall st0 st e st',
  seed_rows now entries st0 st = SeedFailed e st' ->
  (next_company_id st0 <= next_company_id st)%Z ->
  companies st' = companies st0 /\ roles st' = roles st0
  /\ scrape_logs st' = scrape_logs st0
  /\ (next_company_id st0 <= next_company_id st')%Z.
Proof.
  induction entries as [|x entries IH]; intros st0 st e st' H Hle; cbn in H.
  - discriminate.
  - destruct (seed_values x) as [[[n u] a]|e' ex|] eqn:Ev; try discriminate.
    + apply IH in H; auto.
      destruct (insert_company_tables now n u a st) as (_ & _ & -> & _). lia.
    + inversion H; subst. cbn. repeat split; auto. destruct ex; lia.
Qed.

(** X8. A committed [seed_companies] touches no row that was there: the
    companies table is the old table, row for row (a deactivated company
    stays deactivated, whatever the file says, and keeps its URL and its
    last-scraped stamp), followed by rows for names that were not taken;
    the roles and the scrape logs are as before. *)
Theorem seed_companies_keeps_rows (now : time) (file : text) (st st' : store)
  (Hseed : seed_companies now file st = Seeded st') :
  (exists added,
      companies st' = companies st ++ added
      /\ Forall (fun c => has_name (c_name c) st = false
                          /\ c_created_at c = now
                          /\ c_last_scraped_at c = None) added)
  /\ roles st' = roles st
  /\ scrape_logs st' = scrape_logs st.
Proof.
  unfold seed_companies in Hseed.
  assert (Hsame : Seeded st = Seeded st' ->
                  (exists added,
                      companies st' = companies st ++ added
                      /\ Forall (fun c => has_name (c_name c) st = false
                                          /\ c_created_at c = now
                                          /\ c_last_scraped_at c = None) added)
                  /\ roles st' = roles st /\ scrape_logs st' = scrape_logs st).
  { intros [= <-]. split; [exists []; rewrite app_nil_r; auto | auto]. }
  destruct (loads file) as [[| | | | s |entries|[|? ?]]|]; try discriminate; auto.
  - destruct (String.eqb s ""); [auto|discriminate].
  - apply seed_rows_grows in Hseed. tauto.
Qed.

Lemma seed_companies_keeps_rows_witness :
  exists st',
    seed_companies 7 Data2.seed_file Data2.acme_off = Seeded st'
    /\ map c_active (companies st') = [0; 0]%Z
    /\ roles st' = roles Data2.acme_off.
Proof.
  eexists. split; [vm_compute; reflexivity|].
  split; [vm_compute; reflexivity|].
  apply (seed_companies_keeps_rows 7 Data2.seed_file Data2.acme_off).
  vm_compute. reflexivity.
Defined.

(** X9. Seeding is idempotent on the tables: after a committed
    [seed_companies], running it again on the same file, at any later
    time, commits too and changes no row of any table. *)
Theorem seed_companies_again (now now' : time) (file : text) (st st1 : store)
  (Hseed : seed_companies now file st = Seeded st1) :
  exists st2,
    seed_companies now' file st1 = Seeded st2
    /\ companies st2 = companies st1
    /\ roles st2 = roles st1
    /\ scrape_logs st2 = scrape_logs st1.
Proof.
  unfold seed_companies in *.
  destruct (loads file) as [[| | | | s |entries|[|? ?]]|]; try discriminate.
  - destruct (String.eqb s ""); [|discriminate]. eauto.
  - apply seed_rows_grows in Hseed as (_ & _ & _ & _ & Hall & _).
    now apply seed_rows_present.
  - eauto.
Qed.

Lemma seed_companies_again_witness :
  exists st1 st2,
    seed_companies 7 Data2.seed_file Data.acme_store = Seeded st1
    /\ seed_companies 9 Data2.seed_file st1 = Seeded st2
    /\ companies st2 = companies st1.
Proof.
  eexists.
  destruct (seed_companies_again 7 9 Data2.seed_file Data.acme_store _
              ltac:(vm_compute; reflexivity)) as (st2 & H1 & H2 & _).
  exists st2. split; [vm_compute; reflexivity|]. split; assumption.
Defined.

(** An [UPDATE] writes the rows it selects and moves them behind the
    others. *)
Lemma update_where_perm {A} (p : A -> bool) (f : A -> A) (rows : list A) :
  Permutation (update_where p f rows) (map (fun r => if p r then f r else r) rows).
Proof.
  unfold update_where. induction rows as [|r rows IH]; cbn; [constructor|].
  destruct (p r); cbn.
  - apply Permutation_sym. eapply perm_trans; [|apply Permutation_middle].
    apply perm_skip. now apply Permutation_sym.
  - now apply perm_skip.
Qed.

Lemma update_where_column {A B} (p : A -> bool) (f : A -> A) (key : A -> B)
  (rows : list A) :
  (forall r, key (f r) = key r) ->
  Permutation (map key (update_where p f rows)) (map key rows).
Proof.
  intro Hkey. eapply perm_trans; [apply Permutation_map, update_where_perm|].
  rewrite map_map. erewrite map_ext; [apply Permutation_refl|].
  intro r. cbn. destruct (p r); auto.
Qed.

Lemma remove_company_columns id st :
  Permutation (map c_id (companies (remove_company id st))) (map c_id (companies st))
  /\ Permutation (map c_name (companies (remove_company id st)))
       (map c_name (companies st)).
Proof. split; apply update_where_column; reflexivity. Qed.

Lemma update_company_scraped_columns now id st :
  Permutation (map c_id (companies (update_company_scraped now id st)))
    (map c_id (companies st))
  /\ Permutation (map c_name (companies (update_company_scraped now id st)))
       (map c_name (companies st)).
Proof. split; apply update_where_column; reflexivity. Qed.

Lemma companies_wf_columns st st' :
  Permutation (map c_id (companies st')) (map c_id (companies st)) ->
  Permutation (map c_name (companies st')) (map c_name (companies st)) ->
  next_company_id st' = next_company_id st ->
  companies_wf st -> companies_wf st'.
Proof.
  intros Hid Hname Hn (W1 & W2 & W3). unfold companies_wf. rewrite Hn.
  split; [|split].
  - eapply Permutation_NoDup; [apply Permutation_sym, Hid | exact W1].
  - rewrite Forall_forall in *. intros c Hc.
    assert (Hi : In (c_id c) (map c_id (companies st))).
    { eapply Permutation_in; [exact Hid | now apply in_map]. }
    apply in_map_iff in Hi as (c0 & <- & H0). auto.
  - eapply Permutation_NoDup; [apply Permutation_sym, Hname | exact W3].
Qed.

(** X10. The constraints of the companies table, distinct ids below the
    sequence and distinct names, hold of the empty database and are kept
    by every operation of db.py that writes the table: [add_company],
    [remove_company], [update_company_scraped] and [seed_companies],
    whether it commits or raises. *)
Theorem companies_constraints_kept (now : time) (st : store)
  (Hwf : companies_wf st) :
  companies_wf empty
  /\ (forall name url, companies_wf (add_company now name url st))
  /\ (forall id, companies_wf (remove_company id st))
  /\ (forall id, companies_wf (update_company_scraped now id st))
  /\ (forall file st', seed_companies now file st = Seeded st' -> companies_wf st')
  /\ (forall file e st',
         seed_companies now file st = SeedFailed e st' -> companies_wf st').
Proof.
  split; [|split; [|split; [|split; [|split]]]].
  - repeat split; cbn; constructor.
  - intros. rewrite add_company_is_insert. now apply insert_company_wf.
  - intro id. destruct (remove_company_columns id st) as (H1 & H2).
    now apply (companies_wf_columns st).
  - intro id. destruct (update_company_scraped_columns now id st) as (H1 & H2).
    now apply (companies_wf_columns st).
  - intros file st' H. unfold seed_companies in H.
    destruct (loads file) as [[| | | | s |entries|[|? ?]]|]; try discriminate.
    + destruct (String.eqb s ""); [|discriminate]. now inversion H; subst.
    + apply seed_rows_grows in H. tauto.
    + now inversion H; subst.
  - intros file e st' H. unfold seed_companies in H.
    assert (Hsame : forall e0, SeedFailed e0 st = SeedFailed e st' -> companies_wf st').
    { intros e0 [= _ <-]. exact Hwf. }
    destruct (loads file) as [[| | | | s |entries|[|? ?]]|]; eauto; try discriminate.
    + destruct (String.eqb s ""); [discriminate|eauto].
    + apply seed_rows_failed in H; [|lia].
      destruct H as (Hc & _ & _ & Hn). destruct Hwf as (W1 & W2 & W3).
      unfold companies_wf. rewrite Hc. repeat split; auto.
      eapply Forall_impl; [|exact W2]. cbn. intros; lia.
Qed.

Lemma companies_constraints_kept_witness :
  companies_wf (add_company 3 "Beta" "https://beta.example/jobs" empty).
Proof.
  apply (companies_constraints_kept 3 empty).
  repeat split; cbn; constructor.
Defined.

End StoreFacts.

(* ================================================================== *)
(** * Deactivating a company *)
(* ================================================================== *)

Module SoftDelete.

Import Db DbMore Vocab2 Pipeline.

Lemma filter_within {A} (q p : A -> bool) (l : list A) :
  (forall x, q x = true -> p x = true) -> filter q (filter p l) = filter q l.
Proof.
  intro H. induction l as [|x l IH]; cbn; [reflexivity|].
  destruct (p x) eqn:Ep; cbn; rewrite IH; [reflexivity|].
  destruct (q x) eqn:Eq; [|reflexivity]. apply H in Eq. congruence.
Qed.

Lemma filter_without {A} (q p : A -> bool) (l : list A) :
  (forall x, q x = true -> p x = false) -> filter q (filter p l) = [].
Proof.
  intro H. induction l as [|x l IH]; cbn; [reflexivity|].
  destruct (p x) eqn:Ep; cbn; [|exact IH].
  destruct (q x) eqn:Eq; [|exact IH]. apply H in Eq. congruence.
Qed.

(** The joins read the id, the name and the URL of a company, nothing
    else of it, and a join on the id meets the rows an [UPDATE] by id
    wrote either all or not at all. *)
Lemma join_side {B} (F : company -> B) (k id : Z) (f : company -> company)
  (HF : forall c, F (f c) = F c) (Hid : forall c, c_id (f c) = c_id c)
  (cs : list company) :
  map F (filter (fun c => (k =? c_id c)%Z)
           (update_where (fun c => (c_id c =? id)%Z) f cs))
  = map F (filter (fun c => (k =? c_id c)%Z) cs).
Proof.
  unfold update_where. rewrite filter_app, map_app, filter_map_swap, map_map.
  rewrite (filter_ext (fun a => (k =? c_id (f a))%Z) (fun c => (k =? c_id c)%Z))
    by (intro c; now rewrite Hid).
  destruct (Z.eqb_spec k id) as [->|Hne].
  - rewrite filter_without, filter_within; cbn.
    + apply map_ext. auto.
    + intros c H. apply Z.eqb_eq in H. apply Z.eqb_eq. auto.
    + intros c H. apply Z.eqb_eq in H. apply negb_false_iff, Z.eqb_eq. auto.
  - rewrite filter_within, filter_without; cbn.
    + apply app_nil_r.
    + intros c H. apply Z.eqb_eq in H. apply Z.eqb_neq. congruence.
    + intros c H. apply Z.eqb_eq in H. apply negb_true_iff, Z.eqb_neq. congruence.
Qed.

Lemma remove_company_rows id st :
  companies (remove_company id st)
  = update_where (fun c => (c_id c =? id)%Z) deactivated (companies st).
Proof. reflexivity. Qed.

Lemma join_roles_remove b id st :
  join_roles b (remove_company id st) = join_roles b st.
Proof.
  unfold join_roles. rewrite remove_company_rows.
  change (roles (remove_company id st)) with (roles st).
  apply flat_map_ext. intro r.
  apply (join_side (fun c => mkJoined r (c_name c)
                               (if b then Some (c_careers_url c) else None)));
    reflexivity.
Qed.

Lemma join_logs_remove id st :
  join_logs (remove_company id st) = join_logs st.
Proof.
  unfold join_logs. rewrite remove_company_rows.
  change (scrape_logs (remove_company id st)) with (scrape_logs st).
  apply flat_map_ext. intro l.
  apply (join_side (fun c => mkJoinedLog l (c_name c))); reflexivity.
Qed.

(** The active companies after a removal: those there were, in their
    order, but for the one removed. *)
Lemma active_after_removal id st :
  get_active_companies (remove_company id st)
  = filter (fun c => negb (c_id c =? id)%Z) (get_active_companies st).
Proof.
  unfold get_active_companies. rewrite remove_company_rows. unfold update_where.
  rewrite filter_app, filter_map_swap. cbn [c_active deactivated].
  replace (filter (fun _ => (0 =? 1)%Z) (filter _ (companies st))) with (@nil company)
    by (symmetry; apply Upsert.filter_none; reflexivity).
  cbn. rewrite app_nil_r.
  induction (companies st) as [|c cs IH]; cbn; [reflexivity|].
  destruct (c_id c =? id)%Z eqn:Ei, (c_active c =? 1)%Z eqn:E; cbn;
    rewrite ?Ei, ?E; cbn; rewrite ?IH; reflexivity.
Qed.

Lemma removed_is_inactive id st c :
  In c (get_active_companies (remove_company id st)) -> c_id c <> id.
Proof.
  rewrite active_after_removal, filter_In. intros [_ H].
  apply negb_true_iff, Z.eqb_neq in H. exact H.
Qed.

(** X11. [remove_company] is a soft delete.  Afterwards the active
    companies are those there were, in their order, but for the one
    removed; the table holds the same companies, each with its id, name
    and URL; no role and no log row is touched; and every listing of roles
    and the scrape history still show the deactivated company's rows as
    before. *)
Theorem remove_company_soft_delete (id : Z) (st : store) :
  (forall c, In c (get_active_companies (remove_company id st)) -> c_id c <> id)
  /\ (forall c, c_id c <> id ->
                In c (get_active_companies (remove_company id st))
                <-> In c (get_active_companies st))
  /\ get_active_companies (remove_company id st)
     = filter (fun c => negb (c_id c =? id)%Z) (get_active_companies st)
  /\ Permutation
       (map (fun c => (c_id c, c_name c, c_careers_url c))
          (companies (remove_company id st)))
       (map (fun c => (c_id c, c_name c, c_careers_url c)) (companies st))
  /\ roles (remove_company id st) = roles st
  /\ scrape_logs (remove_company id st) = scrape_logs st
  /\ get_all_roles (remove_company id st) = get_all_roles st
  /\ (forall t, get_qualified_roles t (remove_company id st) = get_qualified_roles t st)
  /\ (forall k, get_roles_by_company k (remove_company id st)
                = get_roles_by_company k st)
  /\ (forall n, history_rows n (remove_company id st) = history_rows n st).
Proof.
  repeat match goal with |- _ /\ _ => split end; try reflexivity.
  - apply removed_is_inactive.
  - intros c Hc. rewrite active_after_removal, filter_In.
    split; [tauto|]. intro H. split; [exact H|].
    apply negb_true_iff, Z.eqb_neq. exact Hc.
  - apply active_after_removal.
  - rewrite remove_company_rows. apply StoreFacts.update_where_column. reflexivity.
  - unfold get_all_roles. now rewrite join_roles_remove.
  - intro t. unfold get_qualified_roles. now rewrite join_roles_remove.
  - intro k. unfold get_roles_by_company. now rewrite join_roles_remove.
  - intro n. unfold history_rows. now rewrite join_logs_remove.
Qed.

(** X12. A deactivated company cannot be brought back through
    [add_company]: adding a company under the name of a row that was
    removed leaves the table as the removal left it, so the company stays
    out of the active ones (and the URL given is dropped). *)
Theorem add_company_does_not_reactivate
  (now : time) (c : company) (url : string) (st : store)
  (Hin : In c (companies st)) :
  companies (add_company now (c_name c) url (remove_company (c_id c) st))
  = companies (remove_company (c_id c) st)
  /\ forall c', In c' (get_active_companies
                         (add_company now (c_name c) url
                            (remove_company (c_id c) st))) ->
                c_id c' <> c_id c.
Proof.
  assert (E : companies (add_company now (c_name c) url (remove_company (c_id c) st))
              = companies (remove_company (c_id c) st)).
  { unfold add_company.
    replace (existsb _ (companies (remove_company (c_id c) st))) with true; [reflexivity|].
    symmetry.
    assert (Hn : In (c_name c) (map c_name (companies (remove_company (c_id c) st)))).
    { eapply Permutation_in;
        [apply Permutation_sym, (StoreFacts.remove_company_columns (c_id c) st)|].
      now apply in_map. }
    apply in_map_iff in Hn as (c' & Hc1 & Hc2).
    apply existsb_exists. exists c'. split; [exact Hc2 | now apply String.eqb_eq]. }
  split; [exact E|].
  intros c' Hc'. apply (removed_is_inactive (c_id c) st).
  unfold get_active_companies in *. now rewrite E in Hc'.
Qed.

Lemma add_company_does_not_reactivate_witness :
  companies (add_company 5 "Acme" "https://acme.example/new"
               (remove_company 1 Data.acme_store))
  = companies (remove_company 1 Data.acme_store).
Proof.
  exact (proj1 (add_company_does_not_reactivate 5 Data.acme
                  "https://acme.example/new" Data.acme_store
                  ltac:(left; reflexivity))).
Defined.

Section Run.
Variable search_service : string -> string -> result text.
Variable scoring_service : json -> json -> json -> json -> string -> result text.
Variable untyped : Z -> json -> json -> result (bool * upsert_args).

(** X13. A manual run asked for one company that is not among the
    active ones, because it was deactivated or because no company has the
    id, scrapes nothing and reports nothing: no search is made, no table
    changes, no log row is written, and the run ends with the status
    Done like any other. *)
Theorem run_for_inactive_company_is_silent (id : Z) (w : world)
  (Hoff : forall c, In c (get_active_companies (db w)) -> c_id c <> id) :
  Api._run_scrape search_service scoring_service untyped (Some [id]) w
  = Done (mkWorld (db w) (clock w) (mkStatus false None "Done")).
Proof.
  unfold Api._run_scrape, Api.select_companies. cbn [db with_status].
  replace (filter _ (get_active_companies (db w))) with (@nil company); [reflexivity|].
  symmetry. induction (get_active_companies (db w)) as [|c cs IH]; [reflexivity|].
  cbn. assert (Hc : c_id c <> id) by (apply Hoff; now left).
  destruct (c_id c =? id)%Z eqn:E; [lia|]. cbn. apply IH.
  intros c' Hc'. apply Hoff. now right.
Qed.
End Run.

Lemma run_for_inactive_company_is_silent_witness :
  Api._run_scrape Data.beta_down Data.scores_85 Data.refuses (Some [1%Z])
    (mkWorld Data2.acme_off 10 Data.idle)
  = Done (mkWorld Data2.acme_off 10 (mkStatus false None "Done")).
Proof.
  apply (run_for_inactive_company_is_silent Data.beta_down Data.scores_85
           Data.refuses 1%Z
           (mkWorld Data2.acme_off 10 Data.idle)).
  intros c H. vm_compute in H. destruct H.
Defined.

End SoftDelete.

(* ================================================================== *)
(** * The dashboard counters and the user's decisions *)
(* ================================================================== *)

Module Decisions.

Import Db DbMore Vocab Vocab2 Pipeline ApiMore.

Lemma joined_rows (b : bool) (cs : list company) (rs : list role) :
  forallb (fun r =>
             Nat.eqb (List.length (filter (fun c => (r_company_id r =? c_id c)%Z) cs)) 1)
    rs = true ->
  map j_role
    (flat_map (fun r =>
                 map (fun c => mkJoined r (c_name c)
                                 (if b then Some (c_careers_url c) else None))
                   (filter (fun c => (r_company_id r =? c_id c)%Z) cs)) rs)
  = rs.
Proof.
  induction rs as [|r rs IH]; cbn; [reflexivity|].
  intro H. apply andb_prop in H as [H1 H2]. rewrite map_app, IH by exact H2.
  destruct (filter _ cs) as [|c [|c' l]]; try discriminate. reflexivity.
Qed.

Lemma join_roles_rows b st :
  refs_ok st = true -> map j_role (join_roles b st) = roles st.
Proof. apply joined_rows. Qed.

Lemma count_on_rows (p : role -> bool) (js : list joined) :
  List.length (filter (fun j => p (j_role j)) js)
  = List.length (filter p (map j_role js)).
Proof. now rewrite filter_map_swap, length_map. Qed.

Lemma order_by_length {A} (before : A -> A -> bool) (l : list A) :
  List.length (order_by before l) = List.length l.
Proof. symmetry. apply Permutation_length, Listing.order_by_perm. Qed.

(** X14. The dashboard agrees with the listings.  When every role
    refers to exactly one company (the foreign key and the primary key of
    the schema), the counter [qualified_roles] of [get_dashboard_stats],
    which has its threshold written into the query, is the number of
    entries of the default listing [GET /api/roles], which takes it from
    [SCORE_THRESHOLD]; and [total_roles] is the number of entries of the
    listing of all roles. *)
Theorem dashboard_counts_match_listings (st : store)
  (Hrefs : refs_ok st = true) :
  qualified_roles (get_dashboard_stats st)
  = Z.of_nat (List.length (Api.list_roles true None st))
  /\ total_roles (get_dashboard_stats st)
     = Z.of_nat (List.length (Api.list_roles false None st)).
Proof.
  unfold Api.list_roles, get_dashboard_stats, get_qualified_roles, get_all_roles,
    SCORE_THRESHOLD, count. cbn [Api.given qualified_roles total_roles].
  rewrite !length_map, !order_by_length.
  rewrite (count_on_rows (fun r => (r_score r >=? 80)%Z)).
  rewrite <- (length_map j_role (join_roles true st)).
  now rewrite join_roles_rows.
Qed.

Lemma dashboard_counts_match_listings_witness :
  qualified_roles (get_dashboard_stats Data.scored_store)
  = Z.of_nat (List.length (Api.list_roles true None Data.scored_store)).
Proof.
  apply (dashboard_counts_match_listings Data.scored_store).
  vm_compute. reflexivity.
Defined.

Lemma count_cons {A} (p : A -> bool) (x : A) (l : list A) :
  count p (x :: l) = (one (p x) + count p l)%Z.
Proof. unfold count, one. cbn. destruct (p x); cbn [List.length]; lia. Qed.

Lemma at_id_absent id f (rs : list role) :
  ~ In id (map r_id rs) -> map (at_id id f) rs = rs.
Proof.
  induction rs as [|x rs IH]; cbn; [reflexivity|].
  intro H. rewrite IH by tauto. unfold at_id.
  destruct (r_id x =? id)%Z eqn:E; [|reflexivity]. exfalso. apply H. left. lia.
Qed.

(** Rewriting the one row with a given id moves a counter by that row's
    contribution. *)
Lemma count_at_id (p : role -> bool) (f : role -> role) (r : role) (rs : list role) :
  NoDup (map r_id rs) -> In r rs ->
  count p (map (at_id (r_id r) f) rs) = (count p rs - one (p r) + one (p (f r)))%Z.
Proof.
  induction rs as [|x rs IH]; cbn [map In]; [tauto|].
  intros Hnd Hin. inversion Hnd as [|? ? Hx Hrest]; subst.
  rewrite !count_cons. destruct Hin as [->|Hin].
  - rewrite at_id_absent by exact Hx. unfold at_id. rewrite Z.eqb_refl. lia.
  - rewrite IH by assumption. unfold at_id at 1.
    destruct (r_id x =? r_id r)%Z eqn:E; [|lia].
    exfalso. apply Hx. apply Z.eqb_eq in E. rewrite E. now apply in_map.
Qed.

Lemma update_role_rows id f st :
  roles (update_role id f st) = map (at_id id f) (roles st).
Proof. reflexivity. Qed.

(** X15. Marking a role as applied moves it between the dashboard's
    counters and changes nothing else there: [applied_roles] goes up by
    one unless the role was applied already, [new_roles] goes down by one
    when the role was new and scored at least 80, and the totals of
    companies, of roles and of qualified roles stay. *)
Theorem applying_moves_one_counter (now : time) (r : role) (st : store)
  (Hids : NoDup (map r_id (roles st)))
  (Hin : In r (roles st)) :
  let before := get_dashboard_stats st in
  let after := get_dashboard_stats (mark_role_applied now (r_id r) st) in
  applied_roles after
  = (applied_roles before + one (negb (String.eqb (r_status r) "applied")))%Z
  /\ new_roles after
     = (new_roles before
        - one (String.eqb (r_status r) "new" && (r_score r >=? 80)%Z))%Z
  /\ qualified_roles after = qualified_roles before
  /\ total_roles after = total_roles before
  /\ total_companies after = total_companies before.
Proof.
  cbn zeta. unfold get_dashboard_stats, mark_role_applied.
  cbn [applied_roles new_roles qualified_roles total_roles total_companies].
  rewrite !update_role_rows, length_map.
  rewrite !(count_at_id _ _ r (roles st) Hids Hin). cbn.
  destruct (String.eqb (r_status r) "applied"); cbn; repeat split; lia.
Qed.

Lemma applying_moves_one_counter_witness :
  applied_roles (get_dashboard_stats (mark_role_applied 9 1 Data.one_role_store)) = 1%Z
  /\ new_roles (get_dashboard_stats (mark_role_applied 9 1 Data.one_role_store)) = 0%Z.
Proof.
  destruct (applying_moves_one_counter 9 Data.the_role Data.one_role_store
              ltac:(vm_compute; repeat constructor; intros [])
              ltac:(left; reflexivity)) as (H1 & H2 & _).
  split; [exact H1 | exact H2].
Defined.

(** X16. [PATCH /api/roles/{role_id}] writes at most the status and the
    applied stamp of the rows with that id.  A status other than applied
    or dismissed is answered with 400 and nothing is written; otherwise
    the answer is 200, also when no role has the id, in which case no
    row changes; companies and logs are untouched; the roles keep their
    number, order and ids; a role with another id is as it was; and the
    role addressed keeps every column but [status] and [applied_at]. *)
Theorem update_role_status_frame (role_id : Z) (new_status : string) (w : world) :
  let out := update_role_status role_id new_status w in
  (new_status <> "applied"%string -> new_status <> "dismissed"%string ->
   out = (Http400 "Status must be 'applied' or 'dismissed'"%string, w))
  /\ (new_status = "applied"%string \/ new_status = "dismissed"%string ->
      exists message, fst out = Http200 message)
  /\ (~ In role_id (map r_id (roles (db w))) ->
      roles (db (snd out)) = roles (db w))
  /\ companies (db (snd out)) = companies (db w)
  /\ scrape_logs (db (snd out)) = scrape_logs (db w)
  /\ exists g : role -> role,
       roles (db (snd out)) = map g (roles (db w))
       /\ forall r,
            (r_id r <> role_id -> g r = r)
            /\ r_id (g r) = r_id r
            /\ r_company_id (g r) = r_company_id r
            /\ r_title (g r) = r_title r
            /\ r_url (g r) = r_url r
            /\ r_location (g r) = r_location r
            /\ r_description (g r) = r_description r
            /\ r_posted_date (g r) = r_posted_date r
            /\ r_score (g r) = r_score r
            /\ r_score_breakdown (g r) = r_score_breakdown r
            /\ r_first_seen_at (g r) = r_first_seen_at r
            /\ r_last_seen_at (g r) = r_last_seen_at r.
Proof.
  cbn zeta. unfold update_role_status.
  destruct (String.eqb new_status "applied") eqn:Ea;
    [|destruct (String.eqb new_status "dismissed") eqn:Ed].
  - apply String.eqb_eq in Ea. subst.
    repeat match goal with |- _ /\ _ => split end; cbn [fst snd db with_db]; auto.
    + congruence.
    + eauto.
    + intro H. unfold mark_role_applied. rewrite update_role_rows.
      now apply at_id_absent.
    + eexists. split; [unfold mark_role_applied; apply update_role_rows|].
      intro r. unfold at_id.
      destruct (r_id r =? role_id)%Z eqn:E; cbn; repeat split; auto; lia.
  - apply String.eqb_eq in Ed. subst.
    repeat match goal with |- _ /\ _ => split end; cbn [fst snd db with_db]; auto.
    + congruence.
    + eauto.
    + intro H. unfold mark_role_dismissed. rewrite update_role_rows.
      now apply at_id_absent.
    + eexists. split; [unfold mark_role_dismissed; apply update_role_rows|].
      intro r. unfold at_id.
      destruct (r_id r =? role_id)%Z eqn:E; cbn; repeat split; auto; lia.
  - apply String.eqb_neq in Ea, Ed.
    repeat match goal with |- _ /\ _ => split end; cbn [fst snd]; auto.
    + intros [H|H]; contradiction.
    + exists (fun r => r). split; [now rewrite map_id|]. intro r. repeat split; auto.
Qed.

(** X17. Dismissing a role that was applied to keeps the applied stamp:
    every role with the id ends with status dismissed and with
    [applied_at] still set to the time of the application. *)
Theorem dismiss_keeps_applied_stamp (t : time) (id : Z) (st : store) (r : role) :
  In r (roles (mark_role_dismissed id (mark_role_applied t id st))) ->
  r_id r = id ->
  r_status r = "dismissed"%string /\ r_applied_at r = Some t.
Proof.
  unfold mark_role_dismissed, mark_role_applied.
  rewrite !update_role_rows, map_map, in_map_iff.
  intros (r0 & <- & _). unfold at_id. cbn.
  destruct (r_id r0 =? id)%Z eqn:E; cbn; rewrite E; cbn; [auto|lia].
Qed.

Lemma dismiss_keeps_applied_stamp_witness :
  map (fun r => (r_status r, r_applied_at r))
    (roles (mark_role_dismissed 1 (mark_role_applied 9 1 Data.one_role_store)))
  = [("dismissed"%string, Some 9%Z)].
Proof.
  destruct (roles (mark_role_dismissed 1 (mark_role_applied 9 1 Data.one_role_store)))
    as [|r [|r' l]] eqn:E; try (vm_compute in E; discriminate E).
  destruct (dismiss_keeps_applied_stamp 9 1 Data.one_role_store r) as [H1 H2].
  - rewrite E. now left.
  - vm_compute in E. now inversion E.
  - cbn. now rewrite H1, H2.
Defined.

End Decisions.

(* ================================================================== *)
(** * What every run keeps *)
(* ================================================================== *)

Module RunInvariants.

Import Db DbMore Vocab Vocab2 Pipeline.
Local Open Scope Z_scope.

(** The two orchestrators run the same loops, each on its own loop body. *)
Lemma api_loops untyped company_id scored : forall n w,
  Api.upsert_all untyped company_id scored n w
  = upsert_loop (Api.iteration untyped) company_id scored n w.
Proof.
  induction scored as [|[role sr] rest IH]; intros n w; cbn; [reflexivity|].
  destruct (Api.iteration untyped company_id role sr) as [[q a]|e]; [|reflexivity].
  destruct (call_upsert (clock w) a (db w)); [apply IH | reflexivity].
Qed.

Lemma sched_loops untyped company_id scored : forall n w,
  Scheduler.upsert_all untyped company_id scored n w
  = upsert_loop (Scheduler.iteration untyped) company_id scored n w.
Proof.
  induction scored as [|[role sr] rest IH]; intros n w; cbn; [reflexivity|].
  destruct (Scheduler.iteration untyped company_id role sr) as [[q a]|e]; [|reflexivity].
  destruct (call_upsert (clock w) a (db w)); [apply IH | reflexivity].
Qed.

Lemma api_iterates ss sc untyped cs : forall w,
  Api.for_companies ss sc untyped cs w = iterate (Api.scrape_one ss sc untyped) cs w.
Proof.
  induction cs as [|c cs IH]; intro w; cbn; [reflexivity|].
  destruct (Api.scrape_one ss sc untyped c w); auto.
Qed.

Lemma sched_iterates ss sc untyped cs : forall w,
  Scheduler.for_companies ss sc untyped cs w
  = iterate (Scheduler.scrape_one ss sc untyped) cs w.
Proof.
  induction cs as [|c cs IH]; intro w; cbn; [reflexivity|].
  destruct (Scheduler.scrape_one ss sc untyped c w); auto.
Qed.

(** A relation between the database before and after that each write of
    an orchestrator respects holds across a whole run, manual or
    scheduled, whatever the services answer, whatever is made of untyped
    values and whether or not an exception escapes the run. *)
Section Steps.
Variable R : store -> store -> Prop.
Hypothesis R_refl : forall st, R st st.
Hypothesis R_trans : forall a b c, R a b -> R b c -> R a c.
Hypothesis R_upsert :
  forall now a st st', call_upsert now a st = Ok st' -> R st st'.
Hypothesis R_stamp : forall now id st, R st (update_company_scraped now id st).
Hypothesis R_log : forall now id f q s e st, R st (log_scrape now id f q s e st).

Variable search_service : string -> string -> result text.
Variable scoring_service : json -> json -> json -> json -> string -> result text.

Lemma loop_keeps iteration (company_id : Z) (scored : list (json * json)) :
  forall n w,
    match upsert_loop iteration company_id scored n w with
    | Completed w' _ | Failed w' _ => R (db w) (db w')
    end.
Proof.
  induction scored as [|[role sr] rest IH]; intros n w; cbn; [apply R_refl|].
  destruct (iteration company_id role sr) as [[q a]|e]; auto.
  destruct (call_upsert (clock w) a (db w)) as [st|e] eqn:Ec; auto.
  specialize (IH (if q then n + 1 else n) (with_db st w)). apply R_upsert in Ec.
  destruct (upsert_loop iteration company_id rest _ (with_db st w)); auto;
    eapply R_trans; eauto.
Qed.

Lemma log_failure_keeps (company_id : Z) (e : exn) (w : world) :
  R (db w) (db (world_of (log_failure company_id e w))).
Proof. unfold log_failure. destruct (refusal (str_exn e)); cbn; auto. Qed.

Lemma api_scrape_one_keeps untyped (c : company) (w : world) :
  R (db w) (db (world_of (Api.scrape_one search_service scoring_service untyped c w))).
Proof.
  unfold Api.scrape_one, Api.try_company.
  destruct (Scraper.scrape_company_roles _ _ _) as [found|e].
  - rewrite api_loops.
    match goal with
    | |- context [upsert_loop ?i ?k ?s ?n ?v] =>
        pose proof (loop_keeps i k s n v) as H;
        destruct (upsert_loop i k s n v) as [w1 q|w1 e]
    end; cbn in *.
    + eapply R_trans; [exact H|]. eapply R_trans; [apply R_stamp|apply R_log].
    + eapply R_trans; [exact H|]. apply log_failure_keeps.
  - exact (log_failure_keeps (c_id c) e (with_status _ w)).
Qed.

Lemma sched_scrape_one_keeps untyped (c : company) (w : world) :
  R (db w)
    (db (world_of (Scheduler.scrape_one search_service scoring_service untyped c w))).
Proof.
  unfold Scheduler.scrape_one, Scheduler.try_company.
  destruct (Scraper.scrape_company_roles _ _ _) as [found|e].
  - rewrite sched_loops.
    match goal with
    | |- context [upsert_loop ?i ?k ?s ?n ?v] =>
        pose proof (loop_keeps i k s n v) as H;
        destruct (upsert_loop i k s n v) as [w1 q|w1 e]
    end; cbn in *.
    + eapply R_trans; [exact H|]. eapply R_trans; [apply R_stamp|apply R_log].
    + eapply R_trans; [exact H|]. apply log_failure_keeps.
  - apply (log_failure_keeps (c_id c) e).
Qed.

Lemma iterate_keeps (one : company -> world -> outcome)
  (Hone : forall c w, R (db w) (db (world_of (one c w)))) (cs : list company) :
  forall w, R (db w) (db (world_of (iterate one cs w))).
Proof.
  induction cs as [|c cs IH]; intro w; cbn; [apply R_refl|].
  specialize (Hone c w). destruct (one c w) as [w1|w1 e]; cbn in *; [|exact Hone].
  eapply R_trans; eauto.
Qed.

Lemma manual_run_keeps untyped ids (w : world) :
  R (db w)
    (db (world_of (Api._run_scrape search_service scoring_service untyped ids w))).
Proof.
  unfold Api._run_scrape. rewrite api_iterates.
  match goal with
  | |- context [iterate ?o ?l ?v] =>
      pose proof (iterate_keeps o (api_scrape_one_keeps untyped) l v) as H;
      destruct (iterate o l v)
  end; exact H.
Qed.

Lemma scheduled_run_keeps untyped (w : world) :
  R (db w)
    (db (world_of (Scheduler.scheduled_scrape search_service scoring_service
                     untyped w))).
Proof.
  unfold Scheduler.scheduled_scrape. rewrite sched_iterates.
  apply iterate_keeps, sched_scrape_one_keeps.
Qed.
End Steps.

Lemma extends_refl st : extends st st.
Proof. exists []. cbn. rewrite app_nil_r. auto. Qed.

Lemma extends_trans a b c : extends a b -> extends b c -> extends a c.
Proof.
  intros (x & Hx & Fx) (y & Hy & Fy). exists (x ++ y)%list. split.
  - eapply perm_trans; [exact Hy|]. rewrite map_app, app_assoc.
    now apply Permutation_app_tail.
  - apply Forall_app. auto.
Qed.

Lemma extends_same_roles st st' : roles st' = roles st -> extends st st'.
Proof. intro H. exists []. cbn. rewrite app_nil_r, H. auto. Qed.

Lemma call_upsert_extends now a st st' :
  call_upsert now a st = Ok st' -> extends st st'.
Proof.
  unfold call_upsert, upsert_role.
  destruct (negb (int4 (a_score a))); [discriminate|].
  destruct (find_role _ _ _ st) as [ex|].
  - intros [= <-]. exists []. cbn. rewrite app_nil_r, map_map. split; [|constructor].
    erewrite map_ext; [apply Permutation_refl|].
    intro r. cbn. destruct (r_id r =? r_id ex); reflexivity.
  - destruct (existsb _ (companies st)); [|discriminate].
    intros [= <-]. eexists [_]. split.
    + cbn [roles set_roles]. rewrite map_app. apply Permutation_refl.
    + constructor; [|constructor]. split; reflexivity.
Qed.

(** X18. A run, manual or scheduled, never deletes a role and never
    undoes a decision of the user, whatever the search and the scoring
    answer, whatever is made of values outside the typed model, whether
    companies fail or not and whether or not an exception escapes the run.
    The roles after the run are the roles there were, each with its id,
    company, title, location, status, applied stamp and first-seen stamp,
    and the roles the run found, which are new and not applied. *)
Theorem run_keeps_user_decisions
  (search_service : string -> string -> result text)
  (scoring_service : json -> json -> json -> json -> string -> result text)
  (api_untyped sched_untyped : Z -> json -> json -> result (bool * upsert_args))
  (company_ids : option (list Z)) (w : world) :
  extends (db w)
    (db (world_of (Api._run_scrape search_service scoring_service api_untyped
                     company_ids w)))
  /\ extends (db w)
       (db (world_of (Scheduler.scheduled_scrape search_service scoring_service
                        sched_untyped w))).
Proof.
  split.
  - apply (manual_run_keeps extends extends_refl extends_trans call_upsert_extends);
      intros; now apply extends_same_roles.
  - apply (scheduled_run_keeps extends extends_refl extends_trans call_upsert_extends);
      intros; now apply extends_same_roles.
Qed.

Example rerun_keeps_application :
  map (fun r => (r_title r, r_status r, r_applied_at r, r_last_seen_at r))
    (roles (db Data2.after_rerun))
  = [("PM"%string, "applied"%string, Some 9, 10)].
Proof. vm_compute. reflexivity. Qed.

Lemma call_upsert_companies now a st st' :
  call_upsert now a st = Ok st' ->
  companies st' = companies st /\ next_company_id st' = next_company_id st.
Proof.
  unfold call_upsert, upsert_role.
  destruct (negb (int4 (a_score a))); [discriminate|].
  destruct (find_role _ _ _ st).
  - intros [= <-]. auto.
  - destruct (existsb _ (companies st)); [|discriminate]. intros [= <-]. auto.
Qed.

Lemma forallb_through {A B} (f : A -> B) (p : B -> bool) (q : A -> bool) (l : list A) :
  (forall x, q x = p (f x)) -> forallb q l = forallb p (map f l).
Proof. intro H. induction l as [|x l IH]; cbn; [reflexivity|]. now rewrite H, IH. Qed.

(** The foreign-key test reads the company ids only, and not their order. *)
Lemma refs_ok_columns st :
  refs_ok st
  = forallb (fun k => matches k (map c_id (companies st))) (map r_company_id (roles st)).
Proof.
  unfold refs_ok, matches. apply forallb_through. intro r.
  f_equal. rewrite filter_map_swap, length_map. reflexivity.
Qed.

Lemma matches_perm (k : Z) (ids ids' : list Z) :
  Permutation ids ids' -> matches k ids = matches k ids'.
Proof.
  intro H. unfold matches. f_equal.
  induction H as [|x l l' H IH|x y l|l l' l'' H1 IH1 H2 IH2]; cbn; auto.
  - destruct (k =? x); cbn; auto.
  - destruct (k =? x), (k =? y); reflexivity.
  - congruence.
Qed.

Lemma refs_ok_same st st' :
  map r_company_id (roles st') = map r_company_id (roles st) ->
  Permutation (map c_id (companies st')) (map c_id (companies st)) ->
  refs_ok st' = refs_ok st.
Proof.
  intros H1 H2. rewrite !refs_ok_columns, H1. clear H1.
  induction (map r_company_id (roles st)) as [|k ks IH]; cbn [forallb];
    [reflexivity|].
  now rewrite IH, (matches_perm k _ _ H2).
Qed.

Lemma matches_known (k : Z) (ids : list Z) :
  NoDup ids -> existsb (fun i => i =? k) ids = true -> matches k ids = true.
Proof.
  unfold matches. induction ids as [|i ids IH]; cbn; [discriminate|].
  intros Hnd H. inversion Hnd as [|? ? Hi Hrest]; subst.
  destruct (i =? k) eqn:E.
  - apply Z.eqb_eq in E. subst i. rewrite Z.eqb_refl. cbn.
    replace (filter _ ids) with (@nil Z); [reflexivity|].
    symmetry. clear -Hi. induction ids as [|j ids IH]; cbn; [reflexivity|].
    destruct (k =? j) eqn:E; [|apply IH; cbn in Hi; tauto].
    exfalso. apply Hi. left. lia.
  - cbn in H. rewrite Z.eqb_sym, E. auto.
Qed.

Lemma call_upsert_consistent now a st st' :
  call_upsert now a st = Ok st' -> consistent st -> consistent st'.
Proof.
  intros Hup (Wc & Wr & Wf).
  destruct (call_upsert_companies _ _ _ _ Hup) as (Hc & Hn).
  split; [|split].
  - destruct Wc as (W1 & W2 & W3). unfold companies_wf. now rewrite Hc, Hn.
  - unfold call_upsert in Hup. eapply Upsert.upsert_role_wf; eauto.
  - unfold call_upsert, upsert_role in Hup.
    destruct (negb (int4 (a_score a))); [discriminate|].
    destruct (find_role _ _ _ st) as [ex|].
    + inversion Hup; subst. rewrite <- Wf. apply refs_ok_same; [|reflexivity].
      cbn. rewrite map_map. apply map_ext. intro r.
      destruct (r_id r =? r_id ex); reflexivity.
    + destruct (existsb _ (companies st)) eqn:Ek; [|discriminate].
      inversion Hup; subst. rewrite refs_ok_columns in *.
      cbn [roles companies set_roles].
      rewrite map_app, forallb_app, Wf. cbn [map forallb r_company_id andb].
      rewrite andb_true_r.
      apply matches_known; [apply Wc|].
      rewrite <- Ek. clear. induction (companies st) as [|c cs IH]; cbn; congruence.
Qed.

Lemma stamp_consistent now id st :
  consistent st -> consistent (update_company_scraped now id st).
Proof.
  intros (Wc & Wr & Wf).
  destruct (StoreFacts.update_company_scraped_columns now id st) as (H1 & H2).
  split; [|split].
  - now apply (StoreFacts.companies_wf_columns st).
  - exact Wr.
  - rewrite <- Wf. now apply refs_ok_same.
Qed.

(** X19. The constraints of the schema are invariants of the runs: if
    ids and names of companies are distinct, role ids are distinct, no two
    roles with a location share company, title and location, and every
    role refers to exactly one company, then the same holds after a manual
    or a scheduled run, whatever the services answer, whatever is made of
    values outside the typed model and whether or not an exception escapes
    the run. *)
Theorem run_keeps_constraints
  (search_service : string -> string -> result text)
  (scoring_service : json -> json -> json -> json -> string -> result text)
  (api_untyped sched_untyped : Z -> json -> json -> result (bool * upsert_args))
  (company_ids : option (list Z)) (w : world)
  (Hok : companies_wf (db w) /\ roles_wf (db w) /\ refs_ok (db w) = true) :
  consistent
    (db (world_of (Api._run_scrape search_service scoring_service api_untyped
                     company_ids w)))
  /\ consistent
       (db (world_of (Scheduler.scheduled_scrape search_service scoring_service
                        sched_untyped w))).
Proof.
  split; revert Hok.
  - apply (manual_run_keeps (fun a b => consistent a -> consistent b)); auto.
    + intros. now apply (call_upsert_consistent now a st).
    + intros. now apply stamp_consistent.
  - apply (scheduled_run_keeps (fun a b => consistent a -> consistent b)); auto.
    + intros. now apply (call_upsert_consistent now a st).
    + intros. now apply stamp_consistent.
Qed.

Lemma run_keeps_constraints_witness :
  companies_wf (db Data2.after_rerun) /\ roles_wf (db Data2.after_rerun)
  /\ refs_ok (db Data2.after_rerun) = true.
Proof.
  apply (run_keeps_constraints (Data.answers Data.one_role) Data.scores_85
           Data.refuses Data.refuses None Data2.applied_world).
  split; [|split].
  - unfold companies_wf. cbn.
    repeat split; repeat constructor; try (intros []); lia.
  - apply (Upsert.update_role_wf 1 _ Data.one_role_store);
      [intro r; cbn; auto | apply Upsert.roles_wf_one_role].
  - vm_compute. reflexivity.
Defined.

End RunInvariants.

(* ================================================================== *)
(** * The log rows and the stamps of a run *)
(* ================================================================== *)

Module RunEffects.

Import Db DbMore Vocab Vocab2 Pipeline RunInvariants.
Local Open Scope Z_scope.

Lemma batch_roles
  (svc : json -> json -> json -> json -> string -> result text)
  (found : list json) (name : string) :
  map fst (Scorer.score_roles_batch svc found name) = found.
Proof. induction found as [|r rs IH]; cbn; congruence. Qed.

Lemma batch_size
  (svc : json -> json -> json -> json -> string -> result text)
  (found : list json) (name : string) :
  List.length (Scorer.score_roles_batch svc found name) = List.length found.
Proof. now rewrite <- (batch_roles svc found name) at 2; rewrite length_map. Qed.

Lemma loop_effect_step n len w st q out :
  companies st = companies (db w) -> scrape_logs st = scrape_logs (db w) ->
  loop_effect (if q : bool then n + 1 else n) len (with_db st w) out ->
  loop_effect n (S len) w out.
Proof.
  intros Hc Hl. unfold loop_effect. destruct out as [w' k|w' e]; cbn; auto.
  - intros (H1 & H2 & H3 & H4). rewrite H1, H2. repeat split; auto; try lia.
    all: destruct q; lia.
  - intros (H1 & H2 & H3). rewrite H1, H2. repeat split; auto; lia.
Qed.

Lemma loop_leaves iteration (company_id : Z) (scored : list (json * json)) :
  forall n w,
    loop_effect n (List.length scored) w (upsert_loop iteration company_id scored n w).
Proof.
  induction scored as [|[role sr] rest IH]; intros n w; cbn [upsert_loop List.length].
  - cbn. repeat split; lia.
  - destruct (iteration company_id role sr) as [[q a]|e]; [|cbn; repeat split; lia].
    destruct (call_upsert (clock w) a (db w)) as [st|e] eqn:Ec;
      [|cbn; repeat split; lia].
    destruct (RunFacts.call_upsert_frame _ _ _ _ Ec) as (F1 & F2 & _).
    eapply loop_effect_step; eauto.
Qed.

Section Loop.
Variable iteration : Z -> json -> json -> result (bool * upsert_args).
Variable company_id : Z.
Hypothesis for_company :
  forall role sr q a, iteration company_id role sr = Ok (q, a) ->
                      a_company_id a = company_id.

(** When every iteration is accepted the loop completes, and counts the
    qualified ones. *)
Lemma loop_completes (scored : list (json * json)) :
  forall n w,
    forallb (fun p => accepted (iteration company_id (fst p) (snd p))) scored = true ->
    known company_id (db w) = true ->
    exists w',
      upsert_loop iteration company_id scored n w
      = Completed w'
          (n + Z.of_nat
                 (List.length
                    (filter (fun p => qualifies (iteration company_id (fst p) (snd p)))
                       scored))).
Proof.
  induction scored as [|[role sr] rest IH]; intros n w Hacc Hknown; cbn.
  - exists w. f_equal. lia.
  - cbn in Hacc. apply andb_true_iff in Hacc. destruct Hacc as [Ha Hrest].
    destruct (iteration company_id role sr) as [[q a]|e] eqn:Eu;
      cbn in Ha; try discriminate.
    pose proof (for_company _ _ _ _ Eu) as Hc.
    destruct (RunFacts.call_upsert_ok (clock w) a (db w) Ha) as [st Est];
      [now rewrite Hc|].
    rewrite Est.
    destruct (RunFacts.call_upsert_frame _ _ _ _ Est) as (F1 & _).
    assert (Hk : known company_id (db (with_db st w)) = true).
    { cbn. unfold known in *. now rewrite F1. }
    destruct (IH (if q then n + 1 else n) (with_db st w) Hrest Hk) as [w' Ew'].
    exists w'. rewrite Ew'. f_equal. destruct q; simpl; lia.
Qed.

End Loop.

Lemma api_iteration_company untyped company_id role sr q a :
  Api.iteration untyped company_id role sr = Ok (q, a) -> a_company_id a = company_id.
Proof.
  unfold Api.iteration. apply RunFacts.typed_or_company.
  intros q' a'. apply RunFacts.api_upsert_scored_company.
Qed.

Lemma sched_iteration_company untyped company_id role sr q a :
  Scheduler.iteration untyped company_id role sr = Ok (q, a) ->
  a_company_id a = company_id.
Proof.
  unfold Scheduler.iteration. apply RunFacts.typed_or_company.
  intros q' a'. apply RunFacts.sched_upsert_scored_company.
Qed.

Lemma log_failure_effect (owed : company -> scrape_log -> Prop) (c : company)
  (e : exn) (w0 w1 : world) :
  companies (db w0) = companies (db w1) -> scrape_logs (db w0) = scrape_logs (db w1) ->
  clock w1 <= clock w0 ->
  (refusal (str_exn e) = None ->
   owed c (mkLog (next_log_id (db w0)) (c_id c) (clock w0) (Some (clock w0)) 0 0
             "error" (Some (str_exn e)))) ->
  company_effect owed c w1 (log_failure (c_id c) e w0).
Proof.
  intros Hc Hl Hk Howed. unfold company_effect, log_failure.
  destruct (refusal (str_exn e)); cbn.
  - split; [lia|]. auto.
  - split; [lia|]. eexists. split; [rewrite Hl; reflexivity|].
    split; [reflexivity|]. split; [now apply Howed|]. split.
    + split; [reflexivity|]. right. cbn. repeat split. discriminate.
    + right. auto.
Qed.

Section Company.
Variable search_service : string -> string -> result text.
Variable scoring_service : json -> json -> json -> json -> string -> result text.
Variable iteration : Z -> json -> json -> result (bool * upsert_args).
Hypothesis iteration_company :
  forall company_id role sr q a,
    iteration company_id role sr = Ok (q, a) -> a_company_id a = company_id.

(** The company's search answered: the loop over its roles and what
    follows it. *)
Lemma found_effect (c : company) (content : text) (w0 w1 : world) :
  search_service (c_name c) (c_careers_url c) = Ok content ->
  known (c_id c) (db w0) = true ->
  companies (db w0) = companies (db w1) -> scrape_logs (db w0) = scrape_logs (db w1) ->
  clock w0 = clock w1 ->
  company_effect (row_for search_service scoring_service iteration) c w1
    (match upsert_loop iteration (c_id c) (scored_of scoring_service c content) 0 w0 with
     | Completed w k =>
         Done (with_db
                 (log_scrape (clock w + 1) (c_id c)
                    (Z.of_nat (List.length (Scraper.parse_response content))) k
                    "completed" None
                    (update_company_scraped (clock w) (c_id c) (db w)))
                 (with_db (update_company_scraped (clock w) (c_id c) (db w)) w))
     | Failed w e => log_failure (c_id c) e w
     end).
Proof.
  intros Hs Hknown Hc Hl Hk.
  pose proof (loop_leaves iteration (c_id c) (scored_of scoring_service c content) 0 w0)
    as Hloop.
  unfold scored_of in Hloop at 1. rewrite batch_size in Hloop.
  assert (Hdone : company_succeeds scoring_service iteration c content = true ->
                  exists w',
                    upsert_loop iteration (c_id c) (scored_of scoring_service c content)
                      0 w0
                    = Completed w' (qualified_count scoring_service iteration c content)).
  { intro Hsucc.
    destruct (loop_completes iteration (c_id c) (iteration_company (c_id c))
                (scored_of scoring_service c content) 0 w0 Hsucc Hknown) as [w' E].
    exists w'. exact E. }
  destruct (upsert_loop iteration (c_id c) (scored_of scoring_service c content) 0 w0)
    as [w2 k|w2 e]; cbn in Hloop.
  - destruct Hloop as (H1 & H2 & H3 & H4). unfold company_effect. cbn.
    split; [lia|]. eexists. split; [rewrite H2, Hl; reflexivity|].
    split; [reflexivity|]. split; [|split].
    + split; [reflexivity|]. split.
      * intros e He. congruence.
      * intros content' Hc' Hsucc. assert (content' = content) by congruence. subst.
        destruct (Hdone Hsucc) as [w' E]. inversion E; subst. repeat split.
    + split; [reflexivity|]. left. cbn. repeat split; lia.
    + left. split; [reflexivity|]. exists (clock w2). split; [lia|].
      now rewrite H1, Hc.
  - destruct Hloop as (H1 & H2 & H3).
    apply log_failure_effect; try congruence; try lia.
    intros _. split; [reflexivity|]. split.
    + intros e' He. congruence.
    + intros content' Hc' Hsucc. assert (content' = content) by congruence. subst.
      destruct (Hdone Hsucc) as [w' E]. discriminate.
Qed.

(** The company's search raised. *)
Lemma raised_effect (c : company) (e : exn) (w0 w1 : world) :
  search_service (c_name c) (c_careers_url c) = Raise e ->
  companies (db w0) = companies (db w1) -> scrape_logs (db w0) = scrape_logs (db w1) ->
  clock w0 = clock w1 ->
  company_effect (row_for search_service scoring_service iteration) c w1
    (log_failure (c_id c) e w0).
Proof.
  intros Hs Hc Hl Hk. apply log_failure_effect; auto; try lia.
  intros _. split; [reflexivity|]. split.
  - intros e' He. assert (e' = e) by congruence. subst. repeat split.
  - intros content Hc'. congruence.
Qed.
End Company.

Section Run.
Variable search_service : string -> string -> result text.
Variable scoring_service : json -> json -> json -> json -> string -> result text.
Variable untyped : Z -> json -> json -> result (bool * upsert_args).

Lemma api_company_effect (c : company) (w : world) :
  known (c_id c) (db w) = true ->
  company_effect (row_for search_service scoring_service (Api.iteration untyped)) c w
    (Api.scrape_one search_service scoring_service untyped c w).
Proof.
  intro Hknown. unfold Api.scrape_one, Api.try_company, Scraper.scrape_company_roles.
  destruct (search_service (c_name c) (c_careers_url c)) as [content|e] eqn:Es.
  - rewrite api_loops.
    pose proof (found_effect search_service scoring_service (Api.iteration untyped)
                  (api_iteration_company untyped) c content
                  (with_status
                     (mkStatus (is_running (status w)) (Some (c_name c))
                        ("Scoring "
                           ++ Api.decimal (List.length (Scraper.parse_response content))
                           ++ " roles from " ++ c_name c ++ "..."))
                     w)
                  w Es Hknown eq_refl eq_refl eq_refl) as H.
    unfold scored_of in H. cbn in H |- *.
    destruct (upsert_loop _ _ _ 0 _) as [w2 k|w2 e]; exact H.
  - exact (raised_effect search_service scoring_service (Api.iteration untyped) c e
             (with_status _ w) w Es eq_refl eq_refl eq_refl).
Qed.

Lemma sched_company_effect (c : company) (w : world) :
  known (c_id c) (db w) = true ->
  company_effect (row_for search_service scoring_service (Scheduler.iteration untyped))
    c w (Scheduler.scrape_one search_service scoring_service untyped c w).
Proof.
  intro Hknown.
  unfold Scheduler.scrape_one, Scheduler.try_company, Scraper.scrape_company_roles.
  destruct (search_service (c_name c) (c_careers_url c)) as [content|e] eqn:Es.
  - rewrite sched_loops.
    pose proof (found_effect search_service scoring_service
                  (Scheduler.iteration untyped) (sched_iteration_company untyped)
                  c content w w Es Hknown eq_refl eq_refl eq_refl) as H.
    unfold scored_of in H.
    destruct (upsert_loop _ _ _ 0 _) as [w2 k|w2 e]; exact H.
  - exact (raised_effect search_service scoring_service (Scheduler.iteration untyped)
             c e w w Es eq_refl eq_refl eq_refl).
Qed.
End Run.


Lemma known_perm (company_id : Z) (st st' : store) :
  Permutation (map c_id (companies st')) (map c_id (companies st)) ->
  known company_id st = true -> known company_id st' = true.
Proof.
  unfold known. intros Hp H. apply existsb_exists in H as (c & Hc & E).
  assert (Hin : In (c_id c) (map c_id (companies st'))).
  { eapply Permutation_in; [apply Permutation_sym, Hp | now apply in_map]. }
  apply in_map_iff in Hin as (c' & E' & Hc').
  apply existsb_exists. exists c'. split; [exact Hc' | now rewrite E'].
Qed.

Lemma company_effect_known owed (c : company) (w : world) (out : outcome)
  (company_id : Z) :
  company_effect owed c w out ->
  known company_id (db w) = true -> known company_id (db (world_of out)) = true.
Proof.
  intros [_ H]. apply known_perm. destruct out as [w'|w' e]; cbn.
  - destruct H as (row & _ & _ & _ & _ & [(_ & t & _ & ->)|(_ & ->)]);
      [|apply Permutation_refl].
    apply StoreFacts.update_where_column. reflexivity.
  - destruct H as (_ & ->). apply Permutation_refl.
Qed.

Lemma iterate_effect (owed : company -> scrape_log -> Prop)
  (one : company -> world -> outcome)
  (Hone : forall c w, known (c_id c) (db w) = true -> company_effect owed c w (one c w))
  (cs : list company) :
  forall w,
    (forall c, In c cs -> known (c_id c) (db w) = true) ->
    run_effect owed cs w (iterate one cs w).
Proof.
  induction cs as [|c cs IH]; intros w Hknown; cbn [iterate].
  - split; [cbn; lia|]. exists [], [], (fun c => c). cbn.
    rewrite app_nil_r, map_id. repeat split; auto.
  - pose proof (Hone c w (Hknown c (or_introl eq_refl))) as H1.
    pose proof (fun k => company_effect_known owed c w (one c w) k H1) as Hk1.
    destruct (one c w) as [w1|w1 e] eqn:E1.
    + destruct H1 as (K1 & row & L1 & Hrow & O1 & R1 & S1). cbn in K1, Hk1.
      destruct (IH w1) as (K2 & visited & rows & g & T2 & L2 & O2 & R2 & C2 & G2).
      { intros c' Hc'. apply Hk1, Hknown. now right. }
      split; [lia|].
      assert (Hthrough : got_through (c :: cs) (c :: visited) (iterate one cs w1)).
      { destruct (iterate one cs w1); cbn in *.
        - now subst.
        - destruct T2 as (c' & rest & ->). now exists c', rest. }
      destruct S1 as [(St & t & Ht & C1)|(St & C1)].
      * exists (c :: visited), (row :: rows), (fun x => g (stamp_at (c_id c) t x)).
        split; [exact Hthrough|].
        split; [now rewrite L2, L1, <- app_assoc|].
        split; [now constructor|]. split; [now constructor|]. split.
        { eapply perm_trans; [exact C2|]. rewrite <- (map_map (stamp_at (c_id c) t) g).
          apply Permutation_map. rewrite C1. apply StoreFacts.update_where_perm. }
        intro x. unfold completed_for. cbn [existsb]. rewrite St, Hrow.
        change (String.eqb "completed" "completed") with true. rewrite andb_true_r.
        fold (completed_for (c_id x) rows). unfold stamp_at.
        rewrite (Z.eqb_sym (c_id c) (c_id x)).
        destruct (c_id x =? c_id c) eqn:Ex; cbn [orb].
        -- specialize (G2 (stamped t x)). cbn [stamped c_id] in G2.
           destruct (completed_for (c_id x) rows).
           ++ destruct G2 as (t2 & H2 & ->). exists t2. split; [lia|reflexivity].
           ++ exists t. split; [lia|exact G2].
        -- specialize (G2 x). destruct (completed_for (c_id x) rows); auto.
           destruct G2 as (t2 & H2 & ->). exists t2. split; [lia|reflexivity].
      * exists (c :: visited), (row :: rows), g.
        split; [exact Hthrough|].
        split; [now rewrite L2, L1, <- app_assoc|].
        split; [now constructor|]. split; [now constructor|].
        split; [now rewrite <- C1|].
        intro x. unfold completed_for. cbn [existsb]. rewrite St.
        change (String.eqb "error" "completed") with false. rewrite andb_false_r.
        cbn [orb]. fold (completed_for (c_id x) rows).
        specialize (G2 x). destruct (completed_for (c_id x) rows); auto.
        destruct G2 as (t2 & H2 & ->). exists t2. split; [lia|reflexivity].
    + destruct H1 as (K1 & L1 & C1). cbn in K1.
      split; [cbn; lia|]. exists [], [], (fun c => c). cbn.
      rewrite app_nil_r, map_id, C1. repeat split; auto.
      now exists c, cs.
Qed.





Section Runs.
Variable search_service : string -> string -> result text.
Variable scoring_service : json -> json -> json -> json -> string -> result text.
Variable untyped : Z -> json -> json -> result (bool * upsert_args).

Lemma selected_known ids (w : world) (c : company) :
  In c (Api.select_companies ids (get_active_companies (db w))) ->
  known (c_id c) (db w) = true.
Proof.
  intro Hc. apply RunFacts.select_companies_incl in Hc.
  unfold get_active_companies in Hc. apply filter_In in Hc as [Hc _].
  unfold known. apply existsb_exists. exists c. split; [exact Hc | apply Z.eqb_refl].
Qed.

Lemma manual_run_effect ids (w : world) :
  run_effect (row_for search_service scoring_service (Api.iteration untyped))
    (Api.select_companies ids (get_active_companies (db w))) w
    (Api._run_scrape search_service scoring_service untyped ids w).
Proof.
  unfold Api._run_scrape. rewrite api_iterates. cbn [db with_status].
  match goal with
  | |- context [iterate ?o ?l ?v] =>
      pose proof (iterate_effect _ o (api_company_effect search_service
                                        scoring_service untyped) l v
                    (selected_known ids w)) as H;
      destruct (iterate o l v)
  end; exact H.
Qed.

Lemma scheduled_run_effect (w : world) :
  run_effect (row_for search_service scoring_service (Scheduler.iteration untyped))
    (get_active_companies (db w)) w
    (Scheduler.scheduled_scrape search_service scoring_service untyped w).
Proof.
  unfold Scheduler.scheduled_scrape. rewrite sched_iterates.
  apply iterate_effect.
  - apply sched_company_effect.
  - apply (selected_known None w).
Qed.


End Runs.


Lemma run_effect_stamps owed cs w out : run_effect owed cs w out -> stamps w out.
Proof.
  intros (_ & visited & rows & g & _ & H2 & _ & _ & H5 & H6). exists rows, g. auto.
Qed.



(** X30. [last_scraped_at] is stamped for the companies whose scrape
    completed, and for no other.  After a run, manual or scheduled,
    however it ends, the companies table holds the rows it held; a
    company for which the run logged a completed row has its row
    unchanged but for [last_scraped_at], set to a time not before the run
    began; every other company, in particular one whose scrape failed, has
    its row, stamp included, exactly as before. *)
Theorem run_stamps_completed_companies
  (search_service : string -> string -> result text)
  (scoring_service : json -> json -> json -> json -> string -> result text)
  (api_untyped sched_untyped : Z -> json -> json -> result (bool * upsert_args))
  (company_ids : option (list Z)) (w : world) :
  stamps w (Api._run_scrape search_service scoring_service api_untyped company_ids w)
  /\ stamps w
       (Scheduler.scheduled_scrape search_service scoring_service sched_untyped w).
Proof.
  split.
  - eapply run_effect_stamps, manual_run_effect.
  - eapply run_effect_stamps, scheduled_run_effect.
Qed.

(** The run of the example stamps Acme and Gamma, not Beta, whose row
    now comes first. *)
Example after_three_stamps :
  map (fun c => (c_id c, c_last_scraped_at c)) (companies (db Data2.after_three))
  = [(2, None); (1, Some 11); (3, Some 15)].
Proof. vm_compute. reflexivity. Qed.


End RunEffects.

(* ================================================================== *)
(** * The scrape history *)
(* ================================================================== *)

Module History.

Import Db DbMore Vocab2 Pipeline ApiMore.
Local Open Scope Z_scope.

Lemma by_started_total (a b : joined_log) :
  by_started a b = false -> by_started b a = true.
Proof. unfold by_started. rewrite Z.leb_gt, Z.leb_le. lia. Qed.

Lemma ordered_later_first (l : list joined_log) :
  StronglySorted later_first (order_by by_started l).
Proof.
  apply Sorted_StronglySorted.
  - intros a b c. unfold later_first. lia.
  - pose proof (Listing.order_by_sorted by_started by_started_total l) as H.
    induction H as [|a t Ht IH Hhd]; constructor; auto.
    destruct Hhd as [|b t' Hb]; constructor.
    unfold later_first. unfold by_started in Hb. now apply Z.leb_le.
Qed.

Lemma sorted_prefix {A} (R : A -> A -> Prop) (a b : list A) :
  StronglySorted R (a ++ b) ->
  StronglySorted R a /\ forall x y, In x a -> In y b -> R x y.
Proof.
  induction a as [|h a IH]; cbn; intro H.
  - split; [constructor|]. intros x y [].
  - apply StronglySorted_inv in H as [H1 H2]. apply IH in H1 as [H3 H4].
    rewrite Forall_app in H2. destruct H2 as [H5 H6]. split.
    + now constructor.
    + intros x y [<-|Hx] Hy; auto. rewrite Forall_forall in H6. auto.
Qed.

(** X20. The scrape history is the latest runs, latest first.  For any
    limit, the rows [get_scrape_history] selects are at most [limit], they
    are in descending order of [started_at], and every joined log row left
    out started no later than every row listed; so the endpoint
    [GET /api/scrape/history] shows at most 20 entries, in descending
    order of date. *)
Theorem history_is_latest_first (limit : nat) (w : world) :
  (List.length (history_rows limit (db w)) <= limit)%nat
  /\ StronglySorted
       (fun a b => l_started_at (jl_log b) <= l_started_at (jl_log a))
       (history_rows limit (db w))
  /\ (exists older,
         Permutation (join_logs (db w)) (history_rows limit (db w) ++ older)
         /\ forall x y, In x (history_rows limit (db w)) -> In y older ->
                        l_started_at (jl_log y) <= l_started_at (jl_log x))
  /\ (List.length (scrape_history w) <= 20)%nat
  /\ StronglySorted (fun a b => ah_date b <= ah_date a) (scrape_history w).
Proof.
  assert (G : forall n,
             StronglySorted later_first (history_rows n (db w))
             /\ forall x y, In x (history_rows n (db w)) ->
                            In y (skipn n (order_by by_started (join_logs (db w)))) ->
                            later_first x y).
  { intro n. apply sorted_prefix. unfold history_rows. rewrite firstn_skipn.
    apply ordered_later_first. }
  split; [apply firstn_le_length|]. split; [apply G|]. split; [|split].
  - exists (skipn limit (order_by by_started (join_logs (db w)))). split.
    + unfold history_rows. rewrite firstn_skipn. apply Listing.order_by_perm.
    + apply G.
  - unfold scrape_history. rewrite length_map. apply firstn_le_length.
  - unfold scrape_history. destruct (G 20%nat) as [H _].
    induction H as [|a l Hl IH Ha]; cbn; constructor; auto.
    rewrite Forall_forall in *. intros x Hx.
    apply in_map_iff in Hx as (y & <- & Hy). apply Ha, Hy.
Qed.

Lemma filter_by_id (c : company) (cs : list company) :
  NoDup (map c_id cs) -> In c cs ->
  filter (fun x => c_id c =? c_id x) cs = [c].
Proof.
  intros Hnd Hin. apply Upsert.filter_singleton; auto.
  - eapply NoDup_map_inv, Hnd.
  - apply Z.eqb_refl.
  - intros y Hy E. apply Z.eqb_eq in E.
    apply (Upsert.NoDup_map_inv_In c_id cs); auto.
Qed.

Lemma joined_log_started (st : store) (x : joined_log) :
  In x (join_logs st) -> In (jl_log x) (scrape_logs st).
Proof.
  unfold join_logs. rewrite in_flat_map. intros (l & Hl & Hx).
  apply in_map_iff in Hx as (c & <- & _). exact Hl.
Qed.

Lemma newest_goes_first (x : joined_log) (l acc : list joined_log) :
  (forall y, In y l -> by_started y x = false) ->
  fold_right (insert by_started) (x :: acc) l
  = x :: fold_right (insert by_started) acc l.
Proof.
  induction l as [|y l IH]; cbn; intro H; [reflexivity|].
  rewrite IH by auto. cbn. now rewrite (H y (or_introl eq_refl)).
Qed.

(** X21. The run just logged heads the history.  When a row is logged
    for a company on file at a time later than every row's [started_at],
    the history of [n + 1] entries read afterwards is that row, with the
    company's name, followed by the history of [n] entries read before. *)
Theorem latest_scrape_heads_history
  (now found qualified : Z) (run_status : string) (error : option string)
  (c : company) (st : store) (n : nat)
  (Hids : NoDup (map c_id (companies st)))
  (Hin : In c (companies st))
  (Hlater : forall l, In l (scrape_logs st) -> l_started_at l < now) :
  history_rows (S n) (log_scrape now (c_id c) found qualified run_status error st)
  = mkJoinedLog
      (mkLog (next_log_id st) (c_id c) now (Some now) found qualified run_status error)
      (c_name c)
    :: history_rows n st.
Proof.
  unfold history_rows, join_logs, log_scrape. cbn [scrape_logs companies set_logs].
  rewrite flat_map_app. cbn [flat_map l_company_id]. rewrite app_nil_r.
  rewrite (filter_by_id c (companies st) Hids Hin). cbn [map].
  unfold order_by. rewrite fold_right_app. cbn [fold_right insert].
  rewrite newest_goes_first; [reflexivity|].
  intros y Hy. apply joined_log_started in Hy. apply Hlater in Hy.
  unfold by_started. cbn. apply Z.leb_gt. exact Hy.
Qed.

Lemma latest_scrape_heads_history_witness :
  history_rows 1 (log_scrape 7 1 3 1 "completed" None Data.acme_store)
  = [mkJoinedLog (mkLog 1 1 7 (Some 7) 3 1 "completed" None) "Acme"].
Proof.
  apply (latest_scrape_heads_history 7 3 1 "completed" None Data.acme
           Data.acme_store 0).
  - cbn. repeat constructor. intros [].
  - left. reflexivity.
  - intros l [].
Defined.

End History.

(* ================================================================== *)
(** * Reading the services' answers *)
(* ================================================================== *)

Module Answers.

Import Vocab2.
Local Open Scope Z_scope.

Lemma strip_fence_valid (content : text) (v : json) :
  loads content = Some v ->
  strip_fence content = Py.strip content /\ loads (strip_fence content) = Some v.
Proof.
  intro H. apply JsonFacts.loads_strip in H as [H1 H2].
  unfold strip_fence. rewrite H2. auto.
Qed.

(** X22. An answer that is valid JSON is taken as it is, whatever its
    shape.  The search client returns the array's elements when the
    answer is an array and the empty list, silently, for any other value
    (an object wrapping the roles, say); the scoring client returns the
    value unchanged, also when it is no object. *)
Theorem valid_json_is_taken_as_is (content : text) (v : json)
  (Hvalid : loads content = Some v) :
  Scraper.parse_response content = match v with JArr l => l | _ => [] end
  /\ Scorer.parse_response content = Ok v.
Proof.
  destruct (strip_fence_valid content v Hvalid) as [_ H].
  unfold Scraper.parse_response, Scorer.parse_response. rewrite H. auto.
Qed.

Lemma valid_json_is_taken_as_is_witness :
  Scraper.parse_response Data2.roles_in_object = []
  /\ exists m, Scorer.parse_response Data2.roles_in_object = Ok (JObj m).
Proof.
  destruct (valid_json_is_taken_as_is Data2.roles_in_object
              (JObj [("roles"%string, JArr [JObj [("title"%string, JStr "PM")]])])
              ltac:(vm_compute; reflexivity)) as [H1 H2].
  split; [exact H1 | eexists; exact H2].
Defined.

Lemma lacks_cons c x s :
  lacks c (x :: s) = true -> Ascii.eqb x c = false /\ lacks c s = true.
Proof.
  unfold lacks. cbn. intro H. apply andb_prop in H as [H1 H2].
  apply negb_true_iff in H1. auto.
Qed.

Lemma find_from_first (c : ascii) (pre rest : text) : forall i,
  lacks c pre = true ->
  Py.find_from c (pre ++ c :: rest) i = i + Z.of_nat (List.length pre).
Proof.
  induction pre as [|x pre IH]; intros i H; cbn [app Py.find_from List.length].
  - rewrite Ascii.eqb_refl. lia.
  - apply lacks_cons in H as [-> H]. rewrite IH by exact H. lia.
Qed.

Lemma rfind_from_none (c : ascii) (post : text) : forall i best,
  lacks c post = true -> Py.rfind_from c post i best = best.
Proof.
  induction post as [|x post IH]; intros i best H; cbn; [reflexivity|].
  apply lacks_cons in H as [-> H]. now apply IH.
Qed.

Lemma rfind_from_last (c : ascii) (s post : text) : forall i best,
  lacks c post = true ->
  Py.rfind_from c (s ++ c :: post) i best = i + Z.of_nat (List.length s).
Proof.
  induction s as [|x s IH]; intros i best H; cbn [app Py.rfind_from List.length].
  - rewrite Ascii.eqb_refl, rfind_from_none by exact H. lia.
  - rewrite IH by exact H. lia.
Qed.

(** The slice between the first opening and the last closing character. *)
Lemma bracketed_slice (o c : ascii) (pre mid post : text) :
  lacks o pre = true -> lacks c post = true ->
  let s := pre ++ o :: mid ++ c :: post in
  (negb (Py.find o s =? -1) && (Py.rfind c s + 1 >? Py.find o s)) = true
  /\ Py.slice s (Py.find o s) (Py.rfind c s + 1) = o :: mid ++ [c].
Proof.
  intros Hpre Hpost s.
  assert (Ef : Py.find o s = Z.of_nat (List.length pre)).
  { unfold Py.find, s. now rewrite find_from_first. }
  assert (Er : Py.rfind c s = Z.of_nat (List.length (pre ++ o :: mid))).
  { unfold Py.rfind, s.
    replace (pre ++ o :: mid ++ c :: post) with ((pre ++ o :: mid) ++ c :: post)
      by now rewrite <- app_assoc.
    now rewrite rfind_from_last. }
  rewrite Ef, Er, length_app. cbn [List.length]. split.
  - apply andb_true_intro. split.
    + apply negb_true_iff, Z.eqb_neq. lia.
    + apply Z.gtb_lt. lia.
  - unfold Py.slice, s. rewrite Nat2Z.id.
    rewrite skipn_app, skipn_all, Nat.sub_diag. cbn [skipn app].
    replace (Z.to_nat _) with (List.length (o :: mid ++ [c])).
    + replace (o :: mid ++ c :: post) with ((o :: mid ++ [c]) ++ post)
        by (cbn; now rewrite <- app_assoc).
      rewrite firstn_app, firstn_all, Nat.sub_diag. cbn [firstn]. apply app_nil_r.
    + cbn [List.length]. rewrite length_app. cbn [List.length]. lia.
Qed.

(** X23. Prose around the array does not lose the roles.  When the
    answer of the search, fence removed, is not JSON as a whole but has
    the form prose, array, prose, with no opening bracket before the
    array and no closing bracket after it, the search client returns the
    elements of the array. *)
Theorem prose_wrapped_array_is_extracted
  (content pre mid post : text) (l : list json)
  (Hshape : strip_fence content = pre ++ chr "[" :: mid ++ chr "]" :: post)
  (Hpre : lacks (chr "[") pre = true)
  (Hpost : lacks (chr "]") post = true)
  (Hprose : loads (strip_fence content) = None)
  (Harray : loads (chr "[" :: mid ++ [chr "]"]) = Some (JArr l)) :
  Scraper.parse_response content = l.
Proof.
  unfold Scraper.parse_response. rewrite Hprose, Hshape.
  destruct (bracketed_slice (chr "[") (chr "]") pre mid post Hpre Hpost) as [-> ->].
  now rewrite Harray.
Qed.

Lemma prose_wrapped_array_is_extracted_witness :
  Scraper.parse_response Data2.chatty_roles = [JObj [("title"%string, JStr "PM")]].
Proof.
  apply (prose_wrapped_array_is_extracted Data2.chatty_roles
           (T "Here are the roles: ") (Q "{'title': 'PM'}") (T " Hope this helps!"));
    vm_compute; reflexivity.
Defined.

(** X24. Prose around the object does not lose the score.  When the
    answer of the scoring, fence removed, is not JSON as a whole but has
    the form prose, object, prose, with no opening brace before the
    object and no closing brace after it, the scoring client returns the
    object. *)
Theorem prose_wrapped_object_is_extracted
  (content pre mid post : text) (v : json)
  (Hshape : strip_fence content = pre ++ chr "{" :: mid ++ chr "}" :: post)
  (Hpre : lacks (chr "{") pre = true)
  (Hpost : lacks (chr "}") post = true)
  (Hprose : loads (strip_fence content) = None)
  (Hobject : loads (chr "{" :: mid ++ [chr "}"]) = Some v) :
  Scorer.parse_response content = Ok v.
Proof.
  unfold Scorer.parse_response. rewrite Hprose, Hshape.
  destruct (bracketed_slice (chr "{") (chr "}") pre mid post Hpre Hpost) as [-> ->].
  now rewrite Hobject.
Qed.

Lemma prose_wrapped_object_is_extracted_witness :
  Scorer.parse_response Data2.chatty_score = Ok (JObj [("total_score"%string, JInt 85)]).
Proof.
  apply (prose_wrapped_object_is_extracted Data2.chatty_score
           (T "Sure. ") (Q "'total_score': 85") (T " Let me know if you need more."));
    vm_compute; reflexivity.
Defined.

(** X25. A fenced answer of fewer than three lines is lost.  When the
    answer, stripped, starts with a code fence and has at most two lines
    (the fence and the JSON on one line, or a fence that is never closed
    and one line after it), removing the first and the last line leaves
    nothing: the search client returns no roles and the scoring client
    its parse-failure result with score 0, without raising. *)
Theorem short_fenced_answer_is_lost (content : text)
  (Hfence : Py.startswith fence (Py.strip content) = true)
  (Hlines : (List.length (Py.split_lines (Py.strip content)) <= 2)%nat) :
  Scraper.parse_response content = []
  /\ Scorer.parse_response content = Ok Scorer.parse_failure.
Proof.
  assert (E : strip_fence content = []).
  { unfold strip_fence. rewrite Hfence.
    destruct (Py.split_lines (Py.strip content)) as [|a [|b [|c ls]]];
      cbn in Hlines; try lia; reflexivity. }
  unfold Scraper.parse_response, Scorer.parse_response. rewrite E. split; reflexivity.
Qed.

Lemma short_fenced_answer_is_lost_witness :
  Scraper.parse_response (T "```json" ++ Py.newline :: Data.bare_array) = []
  /\ Scorer.parse_response (T "```json" ++ Py.newline :: Data.bare_array)
     = Ok Scorer.parse_failure.
Proof.
  apply (short_fenced_answer_is_lost (T "```json" ++ Py.newline :: Data.bare_array)).
  - vm_compute. reflexivity.
  - vm_compute. lia.
Defined.

End Answers.

(* ================================================================== *)
(** * The loop bodies of the two orchestrators, side by side *)
(* ================================================================== *)

Module Bodies.

Import Db Vocab Vocab2 Pipeline ScoreFacts.
Local Open Scope Z_scope.

(** What of a call's arguments comes from the score result, the score
    and the posted date. *)
Lemma role_args_parts cid role sr ts pd a :
  role_args cid role sr ts pd = Next a ->
  exists bj,
    get sr "breakdown" (JObj []) = Next bj
    /\ as_breakdown bj = Next (a_score_breakdown a)
    /\ as_score ts = Next (a_score a)
    /\ as_text pd = Next (a_posted_date a).
Proof.
  unfold role_args. intro H. do 16 unbind H. inversion H; subst; cbn. eauto.
Qed.

(** The rest comes from the role alone. *)
Lemma role_args_swap cid role sr ts pd a sr' ts' pd' bj b z p :
  role_args cid role sr ts pd = Next a ->
  get sr' "breakdown" (JObj []) = Next bj -> as_breakdown bj = Next b ->
  as_score ts' = Next z -> as_text pd' = Next p ->
  role_args cid role sr' ts' pd'
  = Next (mkArgs (a_company_id a) (a_title a) (a_url a) (a_location a)
            (a_description a) (a_seniority a) (a_department a) z b p).
Proof.
  unfold role_args. intros H Hb1 Hb2 Hz Hp. do 16 unbind H.
  inversion H; subst; cbn [a_company_id a_title a_url a_location a_description
                             a_seniority a_department].
  repeat match goal with
         | E : ?m = Next _ |- context [bind ?m _] => rewrite E; cbn [bind]
         end.
  reflexivity.
Qed.

Lemma api_body_parts cid role sr q a :
  Api.upsert_scored cid role sr = Next (q, a) ->
  exists ts raw pd,
    get sr "total_score" (JInt 0) = Next ts /\ ge_threshold ts = Next q
    /\ get role "posted_date" JNull = Next raw /\ normalize_posted raw = Next pd
    /\ role_args cid role sr ts pd = Next a.
Proof.
  unfold Api.upsert_scored. intro H. do 5 unbind H. inversion H; subst. eauto 10.
Qed.

(** An accepted upsert of a role on file rewrites that row. *)
Lemma call_upsert_overwrites now a st ex :
  find_role (a_company_id a) (a_title a) (a_location a) st = Some ex ->
  int4 (a_score a) = true ->
  exists st',
    call_upsert now a st = Ok st'
    /\ forall r, In r (roles st') -> r_id r = r_id ex ->
                 r_score r = a_score a
                 /\ r_score_breakdown r = breakdown_json (a_score_breakdown a)
                 /\ r_posted_date r = a_posted_date a
                 /\ r_last_seen_at r = now.
Proof.
  intros Hex Hint. unfold call_upsert, upsert_role. rewrite Hex, Hint. cbn [negb].
  eexists. split; [reflexivity|]. cbn [roles set_roles].
  intros r Hr Hid. apply in_map_iff in Hr as (r0 & <- & _).
  destruct (r_id r0 =? r_id ex) eqn:E; [cbn; auto|].
  cbn in Hid. lia.
Qed.

(** X26. The scheduled run treats a role as the manual run does, but
    for the posted date.  Whenever the manual run's loop body accepts a
    role with its score result, the scheduled run's body accepts it too,
    with the same verdict on the threshold and the same arguments for the
    upsert except [posted_date], which is null; and when the role is on
    file, that upsert goes through and leaves the row with no posted date,
    whatever date a manual run had stored. *)
Theorem scheduled_body_drops_posted_date
  (now company_id : Z) (role score_result : json) (q : bool) (a : upsert_args)
  (st : store) (ex : Db.role)
  (Hbody : Api.upsert_scored company_id role score_result = Next (q, a))
  (Hfile : find_role (a_company_id a) (a_title a) (a_location a) st = Some ex)
  (Hrange : int4 (a_score a) = true) :
  Scheduler.upsert_scored company_id role score_result = Next (q, without_posted a)
  /\ exists st',
       call_upsert now (without_posted a) st = Ok st'
       /\ forall r, In r (roles st') -> r_id r = r_id ex -> r_posted_date r = None.
Proof.
  destruct (api_body_parts _ _ _ _ _ Hbody) as (ts & raw & pd & E1 & E2 & _ & _ & E5).
  destruct (role_args_parts _ _ _ _ _ _ E5) as (bj & B1 & B2 & B3 & _).
  split.
  - unfold Scheduler.upsert_scored. rewrite E1. cbn [bind]. rewrite E2. cbn [bind].
    rewrite (role_args_swap _ _ _ _ _ _ score_result ts JNull bj _ _ None E5 B1 B2 B3
               eq_refl).
    reflexivity.
  - destruct (call_upsert_overwrites now (without_posted a) st ex Hfile Hrange)
      as (st' & Hst & Hrow).
    exists st'. split; [exact Hst|]. intros r Hr Hid. now apply Hrow.
Qed.

Lemma scheduled_body_drops_posted_date_witness :
  Scheduler.upsert_scored 1 Data.role_with_date Data.result_70
  = Next (false,
          mkArgs 1 "PM" (Some ""%string) (Some "London"%string) (Some ""%string)
            (Some ""%string) (Some ""%string) 70 (BDict []) None).
Proof.
  apply (scheduled_body_drops_posted_date 5 1 Data.role_with_date Data.result_70 false
           (mkArgs 1 "PM" (Some ""%string) (Some "London"%string) (Some ""%string)
              (Some ""%string) (Some ""%string) 70 (BDict [])
              (Some "2024-05-01"%string))
           Data.one_role_store Data.the_role);
    vm_compute; reflexivity.
Defined.

(** X27. A failed scoring overwrites the score on file.  When scoring a
    role raises, the batch's stand-in result goes through either loop body
    like any score result: the role is not counted as qualified and is
    upserted with score 0 and an empty breakdown, its other arguments
    being those it would have had with a proper result; and when the role
    is on file, the upsert goes through and leaves its row with score 0
    and breakdown [{}], whatever score it had. *)
Theorem scoring_failure_overwrites_score
  (now company_id : Z) (role score_result : json) (q : bool) (a : upsert_args)
  (e : exn) (st : store) (ex : Db.role)
  (Hbody : Api.upsert_scored company_id role score_result = Next (q, a))
  (Hfile : find_role (a_company_id a) (a_title a) (a_location a) st = Some ex) :
  Api.upsert_scored company_id role (Scorer.batch_failure e)
  = Next (false, zero_scored a)
  /\ Scheduler.upsert_scored company_id role (Scorer.batch_failure e)
     = Next (false, without_posted (zero_scored a))
  /\ exists st',
       call_upsert now (zero_scored a) st = Ok st'
       /\ forall r, In r (roles st') -> r_id r = r_id ex ->
                    r_score r = 0 /\ r_score_breakdown r = Some (Dumps []).
Proof.
  destruct (api_body_parts _ _ _ _ _ Hbody) as (ts & raw & pd & E1 & E2 & E3 & E4 & E5).
  destruct (role_args_parts _ _ _ _ _ _ E5) as (bj & B1 & B2 & B3 & B4).
  split; [|split].
  - unfold Api.upsert_scored.
    change (get (Scorer.batch_failure e) "total_score" (JInt 0)) with (Next (JInt 0)).
    cbn [bind ge_threshold]. rewrite E3. cbn [bind]. rewrite E4. cbn [bind].
    rewrite (role_args_swap _ _ _ _ _ _ (Scorer.batch_failure e) (JInt 0) pd
               (JObj []) (BDict []) 0 (a_posted_date a) E5 eq_refl eq_refl eq_refl B4).
    reflexivity.
  - unfold Scheduler.upsert_scored.
    change (get (Scorer.batch_failure e) "total_score" (JInt 0)) with (Next (JInt 0)).
    cbn [bind ge_threshold].
    rewrite (role_args_swap _ _ _ _ _ _ (Scorer.batch_failure e) (JInt 0) JNull
               (JObj []) (BDict []) 0 None E5 eq_refl eq_refl eq_refl eq_refl).
    reflexivity.
  - destruct (call_upsert_overwrites now (zero_scored a) st ex Hfile eq_refl)
      as (st' & Hst & Hrow).
    exists st'. split; [exact Hst|]. intros r Hr Hid.
    destruct (Hrow r Hr Hid) as (H1 & H2 & _). auto.
Qed.

Lemma scoring_failure_overwrites_score_witness :
  exists st',
    call_upsert 5
      (mkArgs 1 "PM" (Some "u1"%string) (Some "London"%string) (Some ""%string)
         (Some ""%string) (Some ""%string) 0 (BDict []) None)
      Data.one_role_store = Ok st'
    /\ map r_score (roles st') = [0].
Proof.
  destruct (scoring_failure_overwrites_score 5 1 Data2.pm_role Data.result_70 false
              (mkArgs 1 "PM" (Some "u1"%string) (Some "London"%string)
                 (Some ""%string) (Some ""%string) (Some ""%string) 70 (BDict []) None)
              (TransportError "503 Server Error") Data.one_role_store Data.the_role
              ltac:(vm_compute; reflexivity) ltac:(vm_compute; reflexivity))
    as (_ & _ & st' & Hst & _).
  exists st'. split; [exact Hst|].
  revert Hst. vm_compute. intros [= <-]. reflexivity.
Defined.

End Bodies.

(* ================================================================== *)
(** * Scraping a list of companies *)
(* ================================================================== *)

Module Batch.

Import Db ScraperMore.
Local Open Scope Z_scope.

Lemma results_set_new (k : Z) (v : scraped) (m : list (Z * scraped)) :
  ~ In k (map fst m) -> results_set k v m = m ++ [(k, v)].
Proof.
  induction m as [|[k' v'] m IH]; cbn; intro H; [reflexivity|].
  destruct (k' =? k) eqn:E; [exfalso; apply H; left; lia|].
  rewrite IH by tauto. reflexivity.
Qed.

Section Client.
Variable search_service : string -> string -> result text.

Lemma scrape_all_from (cs : list company) : forall acc,
  NoDup (map fst acc ++ map c_id cs) ->
  fold_left (fun results c => results_set (c_id c) (scrape_entry search_service c) results)
    cs acc
  = acc ++ map (fun c => (c_id c, scrape_entry search_service c)) cs.
Proof.
  induction cs as [|c cs IH]; intros acc H; cbn; [now rewrite app_nil_r|].
  cbn in H. rewrite results_set_new.
  - rewrite IH.
    + now rewrite <- app_assoc.
    + rewrite map_app. cbn. rewrite <- app_assoc. exact H.
  - apply NoDup_remove_2 in H. intro Hin. apply H, in_or_app. now left.
Qed.

(** X28. [scrape_all_companies] answers for every company and never
    raises.  For companies with distinct ids the result has one entry per
    company, under the company's id and in the order of the list; the
    entry holds the company, and either the roles read from the search's
    answer and no error, or, when the search raised, no roles and the
    text of the exception. *)
Theorem scrape_all_companies_entries (cs : list company)
  (Hids : NoDup (map c_id cs)) :
  scrape_all_companies search_service cs
  = map (fun c =>
           (c_id c,
            match search_service (c_name c) (c_careers_url c) with
            | Ok content => mkScraped c (Scraper.parse_response content) None
            | Raise e => mkScraped c [] (Some (str_exn e))
            end)) cs.
Proof.
  unfold scrape_all_companies. rewrite scrape_all_from by exact Hids.
  cbn [app]. apply map_ext. intro c.
  unfold scrape_entry, Scraper.scrape_company_roles.
  destruct (search_service (c_name c) (c_careers_url c)); reflexivity.
Qed.
End Client.

Lemma scrape_all_companies_entries_witness :
  map (fun kv => (fst kv, s_error (snd kv)))
    (scrape_all_companies Data.beta_down (Data.acme :: Data.beta_gamma))
  = [(1, None); (2, Some "503 Server Error"%string); (3, None)].
Proof.
  rewrite (scrape_all_companies_entries Data.beta_down (Data.acme :: Data.beta_gamma)).
  - vm_compute. reflexivity.
  - cbn. repeat constructor; cbn; intuition lia.
Defined.

End Batch.

